(** * cbfs: reading a coreboot file system out of physical memory

    A shallow embedding of [main] of [cbfs.c] (3mdeb/flashtools) and of the
    C library calls it makes, followed by the properties of the header
    locator, of the file-table walk and of the command line handling. *)

From Stdlib Require Import ZArith List String Ascii Bool Lia.
From Stdlib Require Import Strings.Byte.
Import ListNotations.
Local Open Scope Z_scope.

(** ** Machine integers

    [uint32_t] and [uint64_t] values are integers with the wrap-around
    written out. *)

Definition u32 (x : Z) : Z := x mod 2 ^ 32.
Definition u64 (x : Z) : Z := x mod 2 ^ 64.

(** Conversion of a 32-bit pattern to [int32_t]. *)
Definition s32 (x : Z) : Z := if x <? 2 ^ 31 then x else x - 2 ^ 32.

(** [~x] on a [uint32_t]. *)
Definition not32 (x : Z) : Z := u32 (Z.lnot x).

Definition byte_val (b : byte) : Z := Z.of_N (Byte.to_N b).

(** ** Byte order *)

Inductive endianness : Type := LittleEndian | BigEndian.

Fixpoint le_int (bs : list byte) : Z :=
  match bs with
  | [] => 0
  | b :: bs' => Z.lor (byte_val b) (Z.shiftl (le_int bs') 8)
  end.

Definition be_int (bs : list byte) : Z := le_int (rev bs).

(** What a load of an integer object holding the bytes [bs] yields on the
    host. *)
Definition native_int (host : endianness) (bs : list byte) : Z :=
  match host with
  | LittleEndian => le_int bs
  | BigEndian => be_int bs
  end.

Definition bswap32 (x : Z) : Z :=
  Z.lor (Z.lor (Z.shiftl (Z.land x 255) 24)
               (Z.shiftl (Z.land x 65280) 8))
        (Z.lor (Z.land (Z.shiftr x 8) 65280)
               (Z.land (Z.shiftr x 24) 255)).

(** [ntohl] of <arpa/inet.h>: the identity on a big-endian host, a byte swap
    on a little-endian one. *)
Definition ntohl (host : endianness) (x : Z) : Z :=
  match host with
  | LittleEndian => bswap32 x
  | BigEndian => x
  end.

(** ** C strings

    Memory is a list of bytes; a pointer into it is the suffix that starts at
    the pointed byte.  A read that runs off the end of the list is a read
    outside the object and is reported as [None]. *)

Definition is_nul (b : byte) : bool := Byte.eqb b x00.

(** The bytes of the NUL-terminated string at [s], as [printf("%s")] reads
    them. *)
Fixpoint c_string (s : list byte) : option (list byte) :=
  match s with
  | [] => None
  | c :: s' =>
      if is_nul c then Some []
      else match c_string s' with
           | Some r => Some (c :: r)
           | None => None
           end
  end.

(** [strncmp(s1, s2, n)]: [s1] is read from memory, [s2] is a C string given
    by its bytes (the end of the list is its terminator).  At most [n] bytes
    are compared and the comparison stops after a NUL. *)
Fixpoint strncmp (s1 s2 : list byte) (n : Z) : option Z :=
  if n <=? 0 then Some 0
  else
    match s1 with
    | [] => None
    | c1 :: s1' =>
        match s2 with
        | [] => Some (byte_val c1)
        | c2 :: s2' =>
            if byte_val c1 =? byte_val c2
            then if is_nul c1 then Some 0 else strncmp s1' s2' (n - 1)
            else Some (byte_val c1 - byte_val c2)
        end
    end.

Definition isspace (c : ascii) : bool :=
  let n := nat_of_ascii c in
  Nat.eqb n 32 || (Nat.leb 9 n && Nat.leb n 13).

Definition hex_digit (c : ascii) : option Z :=
  let n := Z.of_nat (nat_of_ascii c) in
  if (48 <=? n) && (n <=? 57) then Some (n - 48)
  else if (97 <=? n) && (n <=? 102) then Some (n - 87)
  else if (65 <=? n) && (n <=? 70) then Some (n - 55)
  else None.

Fixpoint skip_space (s : string) : string :=
  match s with
  | String c s' => if isspace c then skip_space s' else s
  | EmptyString => s
  end.

Fixpoint hex_value (s : string) (acc : Z) : Z :=
  match s with
  | String c s' =>
      match hex_digit c with
      | Some d => hex_value s' (acc * 16 + d)
      | None => acc
      end
  | EmptyString => acc
  end.

Definition skip_0x (s : string) : string :=
  match s with
  | String "0" (String "x" s') => s'
  | String "0" (String "X" s') => s'
  | _ => s
  end.

(** [strtoul(s, NULL, 16)] with a 64-bit [unsigned long]: blanks, an optional
    sign, an optional [0x], then hexadecimal digits; a value that does not
    fit is [ULONG_MAX], a negative one is negated modulo [2^64]. *)
Definition strtoul16 (s : string) : Z :=
  let s := skip_space s in
  let '(neg, s) :=
    match s with
    | String "-" s' => (true, s')
    | String "+" s' => (false, s')
    | _ => (false, s)
    end in
  let v := hex_value (skip_0x s) 0 in
  if 2 ^ 64 <=? v then 2 ^ 64 - 1
  else if neg then u64 (- v) else v.

(** ** [getopt_long]

    The call [getopt_long(argc, argv, "h?vlr:t:", long_options, NULL)] as the
    GNU C library performs it with [POSIXLY_CORRECT] unset: operands are
    skipped and gathered after the options, [--] ends the options, a long
    option may be abbreviated to an unambiguous prefix and may carry its
    argument after [=], short options may be clustered.  An unknown option,
    a missing argument and an unwanted argument are reported on the error
    stream and answered with ['?']. *)

Inductive has_arg : Type := no_argument | required_argument.

Definition chr (c : ascii) : Z := Z.of_nat (nat_of_ascii c).

Definition long_options : list (string * has_arg * Z) :=
  [ ("verbose"%string, no_argument, chr "v");
    ("read"%string, required_argument, chr "r");
    ("list"%string, no_argument, chr "l");
    ("type"%string, required_argument, chr "t");
    ("help"%string, no_argument, chr "h") ].

Definition optstring : string := "h?vlr:t:".

(** One answer of [getopt_long]: the value returned, [optarg], and whether
    the library wrote a complaint to the error stream. *)
Record getopt_ret : Type := GetoptRet {
  g_opt : Z;
  g_optarg : option string;
  g_complained : bool
}.

Definition unrecognized : getopt_ret := GetoptRet (chr "?") None true.

(** Looks [c] up in the option string: [Some true] when it takes an
    argument, [Some false] when it does not, [None] when it is no option. *)
Fixpoint short_lookup (spec : string) (c : ascii) : option bool :=
  match spec with
  | EmptyString => None
  | String d spec' =>
      if Ascii.eqb d c then
        if Ascii.eqb c ":" then None
        else match spec' with
             | String ":" _ => Some true
             | _ => Some false
             end
      else short_lookup spec' c
  end.

(** The answers for the cluster of short options [s]; the boolean says
    whether the following element of [argv] was taken as an argument. *)
Fixpoint short_cluster (s : string) (next : option string)
  : list getopt_ret * bool :=
  match s with
  | EmptyString => ([], false)
  | String c s' =>
      match short_lookup optstring c with
      | None =>
          let (r, used) := short_cluster s' next in (unrecognized :: r, used)
      | Some false =>
          let (r, used) := short_cluster s' next in
          (GetoptRet (chr c) None false :: r, used)
      | Some true =>
          match s' with
          | String _ _ => ([GetoptRet (chr c) (Some s') false], false)
          | EmptyString =>
              match next with
              | Some a => ([GetoptRet (chr c) (Some a) false], true)
              | None => ([unrecognized], false)
              end
          end
      end
  end.

(** Splits [name=value] at the first [=]. *)
Fixpoint split_eq (s : string) : string * option string :=
  match s with
  | EmptyString => (EmptyString, None)
  | String c s' =>
      if Ascii.eqb c "=" then (EmptyString, Some s')
      else let (n, v) := split_eq s' in (String c n, v)
  end.

(** The long option meant by [name]: an exact match, else the only option
    that [name] is a prefix of. *)
Definition long_lookup (name : string) : option (has_arg * Z) :=
  match filter (fun o => String.eqb (fst (fst o)) name) long_options with
  | o :: _ => Some (snd (fst o), snd o)
  | [] =>
      match filter (fun o => String.prefix name (fst (fst o))) long_options with
      | [o] => Some (snd (fst o), snd o)
      | _ => None
      end
  end.

(** All answers of the successive calls before [-1], and the operands left
    in [argv] from [optind] on.  [args] is [argv] without [argv[0]]. *)
Fixpoint getopt_long (args : list string) : list getopt_ret * list string :=
  match args with
  | [] => ([], [])
  | a :: rest =>
      match a with
      | String "-" (String "-" EmptyString) => ([], rest)
      | String "-" (String "-" long) =>
          let (name, value) := split_eq long in
          match long_lookup name, value with
          | None, _ =>
              let (r, ops) := getopt_long rest in (unrecognized :: r, ops)
          | Some (no_argument, _), Some _ =>
              let (r, ops) := getopt_long rest in (unrecognized :: r, ops)
          | Some (no_argument, v), None =>
              let (r, ops) := getopt_long rest in
              (GetoptRet v None false :: r, ops)
          | Some (required_argument, v), Some x =>
              let (r, ops) := getopt_long rest in
              (GetoptRet v (Some x) false :: r, ops)
          | Some (required_argument, v), None =>
              match rest with
              | x :: rest' =>
                  let (r, ops) := getopt_long rest' in
                  (GetoptRet v (Some x) false :: r, ops)
              | [] => ([unrecognized], [])
              end
          end
      | String "-" (String c s) =>
          match rest with
          | [] => (fst (short_cluster (String c s) None), [])
          | x :: rest' =>
              let (here, used) := short_cluster (String c s) (Some x) in
              let (r, ops) :=
                if used then getopt_long rest' else getopt_long rest in
              (here ++ r, ops)
          end
      | _ =>
          let (r, ops) := getopt_long rest in (r, a :: ops)
      end
  end.

(** ** The data of [cbfs.c] *)

Definition CBFS_HEADER_MAGIC : Z := 0x4F524243.
Definition CBFS_HEADER_VERSION1 : Z := 0x31313131.
Definition CBFS_HEADER_VERSION2 : Z := 0x31313132.
Definition CBFS_FILE_MAGIC : list byte := list_byte_of_string "LARCHIVE".

Definition EXIT_SUCCESS : Z := 0.
Definition EXIT_FAILURE : Z := 1.

Definition nl : string := String (ascii_of_nat 10) EmptyString.

Definition usage : string :=
  ("Usage: sudo cbfs [options]" ++ nl ++
   nl ++
   "    -h | -? | --help       This help" ++ nl ++
   "    -v | --verbose         Increase verbosity" ++ nl ++
   "    -r | --read file       Export a CBFS file to stdout" ++ nl ++
   "    -l | --list            List the names of CBFS files" ++ nl ++
   "    -t | --type 50         Filter to specific CBFS file type (hex)" ++ nl ++
   nl)%string.

Record cbfs_header : Type := {
  hdr_magic : Z;
  hdr_version : Z;
  hdr_romsize : Z;
  hdr_bootblocksize : Z;
  hdr_align : Z;
  hdr_offset : Z;
  hdr_architecture : Z;
  hdr_pad : Z
}.

Record cbfs_file : Type := {
  file_magic : list byte;
  file_len : Z;
  file_type : Z;
  file_attributes_offset : Z;
  file_offset : Z
}.

(** [sizeof(struct cbfs_header)] and [sizeof(struct cbfs_file)]. *)
Definition sizeof_header : Z := 32.
Definition sizeof_file : Z := 24.

(** ** The machine

    [phys] is the content of physical memory, [host] the byte order of the
    processor, and [sink n] what the [n]-th call of
    [write(STDOUT_FILENO, ...)] answers: a non-positive value is returned as
    it is, a positive one is the number of bytes the descriptor takes at
    most. *)
Record machine : Type := {
  host : endianness;
  phys : Z -> byte;
  sink : nat -> Z
}.

Definition range (m : machine) (addr : Z) (n : nat) : list byte :=
  map (fun i => phys m (addr + Z.of_nat i)) (seq 0 n).

(** Modelled from the spec: [copy_physical] is declared in util.h and
    defined outside the two source files; the spec gives it as
    [read(address, length) -> bytes] over absolute physical addresses.  The
    bytes are those of memory, in the order of the addresses. *)
Definition copy_physical (m : machine) (addr len : Z) : list byte :=
  range m addr (Z.to_nat len).

(** Modelled from the spec: [map_physical] is declared in util.h and
    defined outside the two source files; the spec gives it as
    [map(address, length) -> read-only byte view]. *)
Definition map_physical (m : machine) (addr len : Z) : list byte :=
  range m addr (Z.to_nat len).

(** ** Reading the mapped view *)

(** [p + n] for a pointer [p] into the view. *)
Fixpoint advance {A : Type} (n : Z) (p : list A) : list A :=
  if n <=? 0 then p
  else match p with
       | [] => []
       | _ :: p' => advance (n - 1) p'
       end.

Fixpoint take {A : Type} (n : Z) (p : list A) : list A :=
  if n <=? 0 then []
  else match p with
       | [] => []
       | a :: p' => a :: take (n - 1) p'
       end.

(** The [n] bytes at [p + i], when they lie inside the view. *)
Definition read_at (p : list byte) (i n : Z) : option (list byte) :=
  if (0 <=? i) && (0 <=? n) && (i + n <=? Z.of_nat (List.length p))
  then Some (take n (advance i p))
  else None.

Definition field (bs : list byte) (i : Z) : list byte := take 4 (advance i bs).

(** The header as the structure overlays the 32 bytes copied into it. *)
Definition header_of_bytes (e : endianness) (bs : list byte) : cbfs_header :=
  {| hdr_magic := native_int e (field bs 0);
     hdr_version := native_int e (field bs 4);
     hdr_romsize := native_int e (field bs 8);
     hdr_bootblocksize := native_int e (field bs 12);
     hdr_align := native_int e (field bs 16);
     hdr_offset := native_int e (field bs 20);
     hdr_architecture := native_int e (field bs 24);
     hdr_pad := native_int e (field bs 28) |}.

(** Lines 141-147: every field but [pad] goes through [ntohl]. *)
Definition header_ntohl (e : endianness) (h : cbfs_header) : cbfs_header :=
  {| hdr_magic := ntohl e (hdr_magic h);
     hdr_version := ntohl e (hdr_version h);
     hdr_romsize := ntohl e (hdr_romsize h);
     hdr_bootblocksize := ntohl e (hdr_bootblocksize h);
     hdr_align := ntohl e (hdr_align h);
     hdr_offset := ntohl e (hdr_offset h);
     hdr_architecture := ntohl e (hdr_architecture h);
     hdr_pad := hdr_pad h |}.

Definition file_of_bytes (e : endianness) (bs : list byte) : cbfs_file :=
  {| file_magic := take 8 bs;
     file_len := native_int e (field bs 8);
     file_type := native_int e (field bs 12);
     file_attributes_offset := native_int e (field bs 16);
     file_offset := native_int e (field bs 20) |}.

(** Lines 177-180: the magic stays as it is. *)
Definition file_ntohl (e : endianness) (f : cbfs_file) : cbfs_file :=
  {| file_magic := file_magic f;
     file_len := ntohl e (file_len f);
     file_type := ntohl e (file_type f);
     file_attributes_offset := ntohl e (file_attributes_offset f);
     file_offset := ntohl e (file_offset f) |}.

(** ** What the program writes *)

(** The messages on the error stream, each with the arguments of its format.
    Those after [NotFound] are only written when [verbose] is set. *)
Inductive diag : Type :=
| GetoptComplaint
| Usage
| ExcessArguments (prog_name : string)
| NoValidHeader
| BeyondROM
| WriteFailed
| NotFound (filename : string)
| SeekingTo (addr : Z)
| HeaderOffset (header_delta : Z)
| HeaderFields (header : cbfs_header)
| PotentialFile (off : Z)
| FileFields (file : cbfs_file)
| FileName (name : list byte)
| StartData (file_off : Z)
| EndData
| Advanced (sum align inc off : Z).

(** The text of the messages that carry no number. *)
Definition diag_text (d : diag) : option string :=
  match d with
  | Usage => Some usage
  | ExcessArguments p => Some (p ++ ": Excess arguments?" ++ nl)%string
  | NoValidHeader => Some ("Failed to find valid header" ++ nl)%string
  | BeyondROM => Some "File offset/length extends beyond ROM"%string
  | NotFound f =>
      Some ("Failed to find CBFS file named '" ++ f ++ "'" ++ nl)%string
  | EndData => Some (nl ++ "-------- End Data" ++ nl)%string
  | _ => None
  end.

(** [printed] is what [printf] put on the standard output, [written] what
    [write] put on its descriptor, [errors] the error stream, [writes] the
    number of calls of [write] so far. *)
Record world : Type := {
  printed : list byte;
  written : list byte;
  errors : list diag;
  writes : nat
}.

Definition start_world : world :=
  {| printed := []; written := []; errors := []; writes := 0 |}.

Definition say (d : diag) (w : world) : world :=
  {| printed := printed w; written := written w;
     errors := errors w ++ [d]; writes := writes w |}.

(** [if (verbose) fprintf(stderr, ...)]. *)
Definition chat (verbose : Z) (d : diag) (w : world) : world :=
  if verbose =? 0 then w else say d w.

(** [printf("%s\n", name)]. *)
Definition puts (name : list byte) (w : world) : world :=
  {| printed := printed w ++ name ++ [x0a]; written := written w;
     errors := errors w; writes := writes w |}.

Definition emit (bs : list byte) (w : world) : world :=
  {| printed := printed w; written := written w ++ bs;
     errors := errors w; writes := S (writes w) |}.

(** How the process ends: [return] from [main], or a read outside the
    mapped view, after which nothing is known. *)
Inductive status : Type :=
| Exited (code : Z)
| Undefined.

(** ** Command line (lines 66-119) *)

Record options : Type := {
  verbose : Z;
  do_read : Z;
  do_list : bool;
  do_type : bool;
  cbfs_file_type : Z;
  filename : option string
}.

Definition no_options : options :=
  {| verbose := 0; do_read := 0; do_list := false; do_type := false;
     cbfs_file_type := 0; filename := None |}.

(** The [switch] on one answer of [getopt_long]: the new values of the
    variables, or the value [main] returns after printing the usage. *)
Definition option_case (o : options) (g : getopt_ret) : options + Z :=
  let opt := g_opt g in
  if opt =? chr "v" then
    inl {| verbose := verbose o + 1; do_read := do_read o;
           do_list := do_list o; do_type := do_type o;
           cbfs_file_type := cbfs_file_type o; filename := filename o |}
  else if opt =? chr "l" then
    inl {| verbose := verbose o; do_read := do_read o;
           do_list := true; do_type := do_type o;
           cbfs_file_type := cbfs_file_type o; filename := filename o |}
  else if opt =? chr "r" then
    inl {| verbose := verbose o; do_read := 1;
           do_list := do_list o; do_type := do_type o;
           cbfs_file_type := cbfs_file_type o; filename := g_optarg g |}
  else if opt =? chr "t" then
    inl {| verbose := verbose o; do_read := do_read o;
           do_list := do_list o; do_type := true;
           cbfs_file_type :=
             u32 (strtoul16 (match g_optarg g with
                             | Some a => a
                             | None => EmptyString
                             end));
           filename := filename o |}
  else if (opt =? chr "?") || (opt =? chr "h") then inr EXIT_SUCCESS
  else inr EXIT_FAILURE.

Definition complain (g : getopt_ret) (w : world) : world :=
  if g_complained g then say GetoptComplaint w else w.

(** The [while] loop over the answers of [getopt_long]. *)
Fixpoint parse_options (o : options) (w : world) (gs : list getopt_ret)
  : (options + Z) * world :=
  match gs with
  | [] => (inl o, w)
  | g :: gs' =>
      let w := complain g w in
      match option_case o g with
      | inl o' => parse_options o' w gs'
      | inr code => (inr code, say Usage w)
      end
  end.

(** ** Header locator (lines 121-157) *)

(** [uint64_t end = 0x100000000]. *)
Definition top_of_space : Z := 0x100000000.

Definition locate_header (m : machine) (o : options) (w : world)
  : cbfs_header * world :=
  let v := verbose o in
  let w := chat v (SeekingTo (u64 (top_of_space - 4))) w in
  let header_delta :=
    s32 (native_int (host m) (copy_physical m (u64 (top_of_space - 4)) 4)) in
  let w := chat v (HeaderOffset header_delta) w in
  let header_off := u64 (top_of_space + header_delta) in
  let w := chat v (SeekingTo header_off) w in
  let header :=
    header_ntohl (host m)
      (header_of_bytes (host m) (copy_physical m header_off sizeof_header)) in
  (header, chat v (HeaderFields header) w).

(** ** File table walk (lines 164-254) *)

(** The variables the loop changes. *)
Record state : Type := {
  off : Z;
  rom : list byte;
  reading : Z;     (* the current value of [do_read] *)
  out : world
}.

Definition with_out (s : state) (w : world) : state :=
  {| off := off s; rom := rom s; reading := reading s; out := w |}.

(** How one turn of the loop, or the loop, leaves. *)
Inductive flow : Type :=
| Next (s : state)
| Break (s : state)
| Return (code : Z) (w : world)
| Fault (w : world).

Inductive write_end : Type :=
| WriteDone (w : world)
| WriteError (w : world)
| WriteFault (w : world).

(** One call [write(STDOUT_FILENO, buf, count)]. *)
Definition write_rc (m : machine) (w : world) (count : Z) : Z :=
  let k := sink m (writes w) in
  if k <=? 0 then k else Z.min k count.

(** Lines 221-235. *)
Fixpoint write_loop (m : machine) (fuel : nat) (file_data : list byte)
    (len offset : Z) (w : world) : option write_end :=
  if offset <? len then
    match fuel with
    | O => None
    | S fuel' =>
        let rc := write_rc m w (u64 (len - offset)) in
        if rc <=? 0 then Some (WriteError (say WriteFailed (emit [] w)))
        else
          match read_at file_data offset rc with
          | None => Some (WriteFault w)
          | Some bs =>
              write_loop m fuel' file_data len (u64 (offset + rc)) (emit bs w)
          end
    end
  else Some (WriteDone w).

(** [(align + (file.offset + file.len) - 1) & (~(align-1))] in [uint32_t]. *)
Definition increment (align : Z) (file : cbfs_file) : Z :=
  Z.land (u32 (u32 (align + u32 (file_offset file + file_len file)) - 1))
         (not32 (u32 (align - 1))).

(** [!do_type || (do_type && file.type == cbfs_file_type)]. *)
Definition type_selected (o : options) (file : cbfs_file) : bool :=
  negb (do_type o) || (do_type o && (file_type file =? cbfs_file_type o)).

(** Lines 210-242, entered when the name matched. *)
Definition extract (m : machine) (o : options) (end_ : Z) (s : state)
    (file : cbfs_file) (w : world) : option flow :=
  let file_off := u64 (off s + file_offset file) in
  let w := chat (verbose o) (StartData file_off) w in
  if u64 (file_off + file_len file) >? end_ then
    Some (Return EXIT_FAILURE (say BeyondROM w))
  else
    let file_data := advance (file_offset file) (rom s) in
    match write_loop m (Z.to_nat (file_len file)) file_data
                     (file_len file) 0 w with
    | None => None
    | Some (WriteFault w) => Some (Fault w)
    | Some (WriteError w) => Some (Return EXIT_FAILURE w)
    | Some (WriteDone w) =>
        Some (Break {| off := off s; rom := rom s;
                       reading := reading s + 1;
                       out := chat (verbose o) EndData w |})
    end.

(** Lines 245-253. *)
Definition step_over (o : options) (align : Z) (s : state)
    (file : cbfs_file) (w : world) : state :=
  let inc := increment align file in
  let off' := u64 (off s + inc) in
  {| off := off';
     rom := advance inc (rom s);
     reading := reading s;
     out := chat (verbose o)
              (Advanced (u32 (file_offset file + file_len file)) align inc off')
              w |}.

(** [strncmp(name, filename, name_size) == 0]; [None] when the comparison
    reads outside the view or [filename] is the null pointer. *)
Definition name_matches (o : options) (name : list byte) (name_size : Z)
  : option bool :=
  match filename o with
  | None => None
  | Some fn =>
      match strncmp name (list_byte_of_string fn) name_size with
      | None => None
      | Some c => Some (c =? 0)
      end
  end.

(** Lines 197-204: the name is printed for [verbose], then for [--list].
    [None] when no NUL ends the name inside the view. *)
Definition show_names (o : options) (file : cbfs_file) (name : list byte)
    (w : world) : option world :=
  match (if verbose o =? 0 then Some w
         else option_map (fun n => say (FileName n) w) (c_string name)) with
  | None => None
  | Some w =>
      if do_list o && type_selected o file
      then option_map (fun n => puts n w) (c_string name)
      else Some w
  end.

(** [memcpy(&file, rom, sizeof(file))] and the four [ntohl]. *)
Definition decode (m : machine) (p : list byte) : option cbfs_file :=
  match read_at p 0 sizeof_file with
  | None => None
  | Some bs => Some (file_ntohl (host m) (file_of_bytes (host m) bs))
  end.

(** The body of the loop, lines 171-253. *)
Definition loop_body (m : machine) (o : options) (align end_ : Z) (s : state)
  : option flow :=
  let v := verbose o in
  let w := chat v (PotentialFile (off s)) (out s) in
  match decode m (rom s) with
  | None => Some (Fault w)
  | Some file =>
      let w := chat v (FileFields file) w in
      match strncmp (file_magic file) CBFS_FILE_MAGIC 8 with
      | None => Some (Fault w)
      | Some c =>
          if negb (c =? 0) then Some (Break (with_out s w))
          else
            let name_size := u64 (file_offset file - sizeof_file) in
            let name := advance sizeof_file (rom s) in
            match show_names o file name w with
            | None => Some (Fault w)
            | Some w =>
                if negb (reading s =? 0) && type_selected o file then
                  match name_matches o name name_size with
                  | None => Some (Fault w)
                  | Some true => extract m o end_ s file w
                  | Some false => Some (Next (step_over o align s file w))
                  end
                else Some (Next (step_over o align s file w))
            end
      end
  end.

(** [while (off < end) { ... }]; [None] when [fuel] turns do not end it. *)
Fixpoint while (m : machine) (o : options) (align end_ : Z) (fuel : nat)
    (s : state) : option flow :=
  if off s <? end_ then
    match fuel with
    | O => None
    | S fuel' =>
        match loop_body m o align end_ s with
        | Some (Next s') => while m o align end_ fuel' s'
        | r => r
        end
    end
  else Some (Break s).

(** Lines 256-261, and the [return]s inside the loop. *)
Definition finish (o : options) (r : flow) : status * world :=
  match r with
  | Next s | Break s =>
      if reading s =? 1 then
        match filename o with
        | Some fn => (Exited EXIT_FAILURE, say (NotFound fn) (out s))
        | None => (Undefined, out s)
        end
      else (Exited EXIT_SUCCESS, out s)
  | Return code w => (Exited code, w)
  | Fault w => (Undefined, w)
  end.

(** Lines 159-261: the header is checked and the table walked. *)
Definition walk (m : machine) (o : options) (header : cbfs_header)
    (w : world) (fuel : nat) : option (status * world) :=
  if negb (hdr_magic header =? CBFS_HEADER_MAGIC) then
    Some (Exited EXIT_FAILURE, say NoValidHeader w)
  else
    let align := hdr_align header in
    let end_ := top_of_space in
    let off :=
      u64 (u64 (end_ - hdr_romsize header) + hdr_offset header) in
    let rom := map_physical m off (u64 (end_ - off)) in
    match while m o align end_ fuel
            {| off := off; rom := rom; reading := do_read o; out := w |} with
    | None => None
    | Some r => Some (finish o r)
    end.

(** [main]: [argv] with [argc] its length; [fuel] bounds the turns of the
    walk. *)
Definition main (m : machine) (argv : list string) (fuel : nat)
  : option (status * world) :=
  let prog_name := hd EmptyString argv in
  if Z.of_nat (List.length argv) <=? 1 then
    Some (Exited EXIT_FAILURE, say Usage start_world)
  else
    let (gs, operands) := getopt_long (tl argv) in
    match parse_options no_options start_world gs with
    | (inr code, w) => Some (Exited code, w)
    | (inl o, w) =>
        if negb (do_list o) && (do_read o =? 0) then
          Some (Exited EXIT_FAILURE, say Usage w)
        else if negb (Z.of_nat (List.length operands) =? 0) then
          Some (Exited EXIT_FAILURE, say (ExcessArguments prog_name) w)
        else
          let (header, w) := locate_header m o w in
          walk m o header w fuel
    end.

(** ** Building images

    The encoders of the on-disk layout, used to write images down. *)

Definition byte_of_Z (z : Z) : byte :=
  match Byte.of_N (Z.to_N (z mod 256)) with
  | Some b => b
  | None => x00
  end.

Fixpoint le_bytes (n : nat) (x : Z) : list byte :=
  match n with
  | O => []
  | S n' => byte_of_Z x :: le_bytes n' (Z.shiftr x 8)
  end.

Definition be_bytes (n : nat) (x : Z) : list byte := rev (le_bytes n x).

Definition native_bytes (e : endianness) (n : nat) (x : Z) : list byte :=
  match e with
  | LittleEndian => le_bytes n x
  | BigEndian => be_bytes n x
  end.

(** The header as it lies in the image: eight big-endian words. *)
Definition header_bytes (h : cbfs_header) : list byte :=
  be_bytes 4 (hdr_magic h) ++ be_bytes 4 (hdr_version h) ++
  be_bytes 4 (hdr_romsize h) ++ be_bytes 4 (hdr_bootblocksize h) ++
  be_bytes 4 (hdr_align h) ++ be_bytes 4 (hdr_offset h) ++
  be_bytes 4 (hdr_architecture h) ++ be_bytes 4 (hdr_pad h).

(** The fixed part of a file record as it lies in the image. *)
Definition file_bytes (f : cbfs_file) : list byte :=
  file_magic f ++ be_bytes 4 (file_len f) ++ be_bytes 4 (file_type f) ++
  be_bytes 4 (file_attributes_offset f) ++ be_bytes 4 (file_offset f).

(** The footer pointer: [header_delta] in the byte order of the host. *)
Definition footer_bytes (e : endianness) (header_delta : Z) : list byte :=
  native_bytes e 4 (u32 header_delta).

Definition pad_to (n : nat) (bs : list byte) : list byte :=
  bs ++ repeat x00 (n - List.length bs).

(** Physical memory that holds [bytes] from [base] on and zeroes elsewhere. *)
Definition flash (base : Z) (bytes : list byte) (a : Z) : byte :=
  if a <? base then x00 else nth (Z.to_nat (a - base)) bytes x00.

(** [bs] lies at [addr] in the memory of [m]. *)
Definition holds (m : machine) (addr : Z) (bs : list byte) : Prop :=
  forall i, (i < List.length bs)%nat ->
            phys m (addr + Z.of_nat i) = nth i bs x00.

(** ** Vocabulary of the statements *)

(** Every field of the header is a 32-bit word. *)
Definition words (h : cbfs_header) : Prop :=
  0 <= hdr_magic h < 2 ^ 32 /\ 0 <= hdr_version h < 2 ^ 32 /\
  0 <= hdr_romsize h < 2 ^ 32 /\ 0 <= hdr_bootblocksize h < 2 ^ 32 /\
  0 <= hdr_align h < 2 ^ 32 /\ 0 <= hdr_offset h < 2 ^ 32 /\
  0 <= hdr_architecture h < 2 ^ 32 /\ 0 <= hdr_pad h < 2 ^ 32.


(** Rounding [x] up to a multiple of [a], as the spec writes the advance of
    the walker. *)
Definition align_up (x a : Z) : Z := (x + a - 1) / a * a.


(** The world when the magic of the record at the cursor is examined. *)
Definition seen (o : options) (s : state) (file : cbfs_file) : world :=
  chat (verbose o) (FileFields file)
       (chat (verbose o) (PotentialFile (off s)) (out s)).


(** The pointer [rom] and the cursor [off] go together: what is left of the
    view is what lies between [off] and [end]. *)
Definition view_ok (end_ : Z) (s : state) : Prop :=
  0 <= off s /\ Z.of_nat (List.length (rom s)) = Z.max 0 (end_ - off s).

(** Every record that can be decoded somewhere in the view [p] moves the
    cursor forward. *)
Definition advancing (m : machine) (align : Z) (p : list byte) : Prop :=
  forall i file,
    0 <= i -> decode m (advance i p) = Some file ->
    file_magic file = CBFS_FILE_MAGIC -> 0 < increment align file.

Fixpoint advancing_check (m : machine) (align : Z) (p : list byte) : bool :=
  match decode m p with
  | Some file =>
      if list_eq_dec Byte.byte_eq_dec (file_magic file) CBFS_FILE_MAGIC
      then 0 <? increment align file
      else true
  | None => true
  end &&
  match p with
  | [] => true
  | _ :: p' => advancing_check m align p'
  end.

(** The cursor stands at the end of the table: past the region, or on a
    record whose magic is not [LARCHIVE]. *)
Definition at_end (m : machine) (end_ : Z) (s : state) : Prop :=
  end_ <= off s \/
  exists file, decode m (rom s) = Some file /\
               file_magic file <> CBFS_FILE_MAGIC.

(** The table that lies at the cursor: the records with their names, each
    followed by the next at the distance of lines 245-247, up to the end of
    the region or to a record with another magic. *)
Inductive table (m : machine) (align end_ : Z)
  : Z -> list byte -> list (cbfs_file * list byte) -> Prop :=
| table_exhausted off p :
    end_ <= off -> table m align end_ off p []
| table_sentinel off p file :
    off < end_ -> decode m p = Some file ->
    file_magic file <> CBFS_FILE_MAGIC ->
    table m align end_ off p []
| table_record off p file name rest :
    off < end_ -> decode m p = Some file ->
    file_magic file = CBFS_FILE_MAGIC ->
    c_string (advance sizeof_file p) = Some name ->
    table m align end_ (u64 (off + increment align file))
          (advance (increment align file) p) rest ->
    table m align end_ off p ((file, name) :: rest).

(** The lines [--list] prints for the records [recs]. *)
Definition listing (o : options) (recs : list (cbfs_file * list byte))
  : list byte :=
  List.concat (map (fun r => snd r ++ [x0a])
              (filter (fun r => type_selected o (fst r)) recs)).

(** The state in which [main] enters the loop. *)
Definition first_state (m : machine) (o : options) (header : cbfs_header)
    (w : world) : state :=
  let off :=
    u64 (u64 (top_of_space - hdr_romsize header) + hdr_offset header) in
  {| off := off;
     rom := map_physical m off (u64 (top_of_space - off));
     reading := do_read o;
     out := w |}.

(** The header that the locator finds in the memory of [m], and the view
    that [main] maps for it. *)
Definition image_header (m : machine) : cbfs_header :=
  fst (locate_header m no_options start_world).

Definition image_view (m : machine) : list byte :=
  rom (first_state m no_options (image_header m) start_world).

(** ** Images

    A ROM of 256 bytes at the top of the address space: two files, an erased
    block, the header at [-0x40] from the top and the footer pointer. *)

Definition file_record (name : string) (name_capacity : nat) (type len : Z)
    (payload : list byte) : list byte :=
  file_bytes {| file_magic := CBFS_FILE_MAGIC; file_len := len;
                file_type := type; file_attributes_offset := 0;
                file_offset := 24 + Z.of_nat name_capacity |}
  ++ pad_to name_capacity (list_byte_of_string name) ++ payload.

Definition demo_header (offset : Z) : cbfs_header :=
  {| hdr_magic := CBFS_HEADER_MAGIC; hdr_version := CBFS_HEADER_VERSION2;
     hdr_romsize := 0x100; hdr_bootblocksize := 0x40; hdr_align := 0x40;
     hdr_offset := offset; hdr_architecture := 1; hdr_pad := 0 |}.

Definition rom_image (e : endianness) (h : cbfs_header)
    (first second : list byte) : list byte :=
  pad_to 64 first ++ pad_to 64 second ++ repeat xff 64 ++
  pad_to 60 (header_bytes h) ++ footer_bytes e (-0x40).

Definition machine_of (e : endianness) (image : list byte) (k : Z) : machine :=
  {| host := e;
     phys := flash (top_of_space - 0x100) image;
     sink := fun _ => k |}.

Definition bootblock : list byte :=
  file_record "bootblock" 16 0x10 4 (list_byte_of_string "BOOT").

Definition config : list byte :=
  file_record "config" 8 0x50 3 (list_byte_of_string "abc").

(** The well-formed image; the descriptor takes two bytes at a time. *)
Definition demo : machine :=
  machine_of LittleEndian
    (rom_image LittleEndian (demo_header 0) bootblock config) 2.

(** The same image on a big-endian host, with a full descriptor. *)
Definition demo_be : machine :=
  {| host := BigEndian;
     phys := flash (top_of_space - 0x100)
               (rom_image BigEndian (demo_header 0) bootblock config);
     sink := fun _ => 0 |}.

(** The first file claims [0xFFFFFFF0] bytes: offset plus length wrap
    around to [0x18]. *)
Definition wrapped : machine :=
  machine_of LittleEndian
    (rom_image LittleEndian (demo_header 0)
       (file_record "bootblock" 16 0x10 0xFFFFFFF0 []) config) 2.

(** The first file claims [0xFFFFFFE0] bytes after a header of [0x20]:
    offset plus length wrap around to zero. *)
Definition stuck : machine :=
  machine_of LittleEndian
    (rom_image LittleEndian (demo_header 0)
       (file_record "stuck" 8 0x10 0xFFFFFFE0 []) config) 2.

(** The header places the table eight bytes below the top. *)
Definition short : machine :=
  machine_of LittleEndian
    (rom_image LittleEndian (demo_header 0xF8) bootblock config) 2.

(** The name field of the first file holds [boot] and nothing else. *)
Definition tight : machine :=
  machine_of LittleEndian
    (rom_image LittleEndian (demo_header 0)
       (file_record "boot" 4 0x10 4 (list_byte_of_string "DATA")) config) 2.

Definition list_only : options :=
  {| verbose := 0; do_read := 0; do_list := true; do_type := false;
     cbfs_file_type := 0; filename := None |}.

Definition read_only (name : string) : options :=
  {| verbose := 0; do_read := 1; do_list := false; do_type := false;
     cbfs_file_type := 0; filename := Some name |}.

(** The header [h] with another version word. *)
Definition with_version (v : Z) (h : cbfs_header) : cbfs_header :=
  {| hdr_magic := hdr_magic h; hdr_version := v;
     hdr_romsize := hdr_romsize h;
     hdr_bootblocksize := hdr_bootblocksize h;
     hdr_align := hdr_align h; hdr_offset := hdr_offset h;
     hdr_architecture := hdr_architecture h; hdr_pad := hdr_pad h |}.

(** The options that ask for the usage text. *)
Definition help_options : list string :=
  ["-h"%string; "-?"%string; "--help"%string].

(** The states in which the loop is entered over these images, and the first
    records as they are decoded. *)
Definition demo_state (m : machine) (o : options) : state :=
  first_state m o (demo_header 0) start_world.

Definition record_of (name_capacity type len : Z) : cbfs_file :=
  {| file_magic := CBFS_FILE_MAGIC; file_len := len; file_type := type;
     file_attributes_offset := 0; file_offset := 24 + name_capacity |}.

Definition bootblock_file : cbfs_file := record_of 16 0x10 4.
Definition config_file : cbfs_file := record_of 8 0x50 3.

(** The state after [n] bytes of the view, with the world [w]. *)
Definition later (m : machine) (o : options) (n : Z) (w : world) : state :=
  {| off := off (demo_state m o) + n;
     rom := advance n (rom (demo_state m o));
     reading := do_read o;
     out := w |}.

Definition cbfs_argv (args : list string) : list string :=
  "cbfs"%string :: args.

(** ** Further vocabulary *)

(** The four numbers of a record are 32-bit words and its magic has eight
    bytes. *)
Definition file_words (f : cbfs_file) : Prop :=
  List.length (file_magic f) = 8%nat /\
  0 <= file_len f < 2 ^ 32 /\ 0 <= file_type f < 2 ^ 32 /\
  0 <= file_attributes_offset f < 2 ^ 32 /\ 0 <= file_offset f < 2 ^ 32.

(** The same memory and descriptor, whatever the byte order. *)
Definition same_memory (m1 m2 : machine) : Prop :=
  (forall a, phys m1 a = phys m2 a) /\ (forall n, sink m1 n = sink m2 n).

(** The records [recs] lie one after the other from the cursor [off] with
    pointer [p], and the cursor after the last of them is [off'] with
    pointer [p']. *)
Inductive leads (m : machine) (align end_ : Z)
  : Z -> list byte -> list (cbfs_file * list byte) -> Z -> list byte -> Prop :=
| leads_here off p : leads m align end_ off p [] off p
| leads_step off p file name rest off' p' :
    off < end_ -> decode m p = Some file ->
    file_magic file = CBFS_FILE_MAGIC ->
    c_string (advance sizeof_file p) = Some name ->
    leads m align end_ (u64 (off + increment align file))
          (advance (increment align file) p) rest off' p' ->
    leads m align end_ off p ((file, name) :: rest) off' p'.

(** The record [r], with its terminated name, is the one [--read fn] takes:
    it passes the type filter and line 208 compares equal. *)
Definition matches (o : options) (fn : string) (r : cbfs_file * list byte)
  : bool :=
  type_selected o (fst r) &&
  match strncmp (snd r ++ [x00]) (list_byte_of_string fn)
                (u64 (file_offset (fst r) - sizeof_file)) with
  | Some c => c =? 0
  | None => false
  end.

(** What [--list] has printed for [recs], if it was given. *)
Definition listed (o : options) (recs : list (cbfs_file * list byte))
  : list byte :=
  if do_list o then listing o recs else [].

(** The options [o] without [--verbose]. *)
Definition quiet (o : options) : options :=
  {| verbose := 0; do_read := do_read o; do_list := do_list o;
     do_type := do_type o; cbfs_file_type := cbfs_file_type o;
     filename := filename o |}.

(** Two worlds with the same standard output. *)
Definition same_output (w1 w2 : world) : Prop :=
  printed w1 = printed w2 /\ written w1 = written w2 /\
  writes w1 = writes w2.

(** The memory and descriptor of [demo] on a big-endian host. *)
Definition demo_swapped : machine :=
  {| host := BigEndian; phys := phys demo; sink := sink demo |}.

(** The world in which the loop of lines 221-235 ended. *)
Definition world_of (e : write_end) : world :=
  match e with
  | WriteDone w | WriteError w | WriteFault w => w
  end.

(** The bytes of a C string: none of them is NUL. *)
Definition no_nul (bs : list byte) : Prop :=
  Forall (fun b => is_nul b = false) bs.

(** An answer for [-r] or [-t] comes with its argument. *)
Definition with_argument (g : getopt_ret) : Prop :=
  g_opt g = chr "r" \/ g_opt g = chr "t" -> g_optarg g <> None.

(** [filename] is set exactly when [do_read] is, and [do_read] is 0 or 1. *)
Definition read_is_named (o : options) : Prop :=
  (do_read o = 0 /\ filename o = None) \/
  (do_read o = 1 /\ exists fn, filename o = Some fn).

(** Two states at the same cursor with the same standard output, and two
    ways of leaving a turn of the loop in such states. *)
Definition same_state (s1 s2 : state) : Prop :=
  off s1 = off s2 /\ rom s1 = rom s2 /\ reading s1 = reading s2 /\
  same_output (out s1) (out s2).

Definition same_end (e1 e2 : write_end) : Prop :=
  match e1, e2 with
  | WriteDone w1, WriteDone w2
  | WriteError w1, WriteError w2
  | WriteFault w1, WriteFault w2 => same_output w1 w2
  | _, _ => False
  end.

Definition same_flow (r1 r2 : flow) : Prop :=
  match r1, r2 with
  | Next s1, Next s2 | Break s1, Break s2 => same_state s1 s2
  | Return c1 w1, Return c2 w2 => c1 = c2 /\ same_output w1 w2
  | _, _ => False
  end.

(** [--verbose --list]. *)
Definition verbose_list : options :=
  {| verbose := 1; do_read := 0; do_list := true; do_type := false;
     cbfs_file_type := 0; filename := None |}.

(** The world in which a turn of the loop, or the loop, is left. *)
Definition world_after (r : flow) : world :=
  match r with
  | Next s | Break s => out s
  | Return _ w | Fault w => w
  end.

(** [do_read] as the loop may leave it. *)
Definition reading_after (r : flow) : option Z :=
  match r with
  | Next s | Break s => Some (reading s)
  | Return _ _ | Fault _ => None
  end.

(** * util: hexadecimal dumps and copies of a given access width

    A shallow embedding of [util.c]. *)

(** ** [hexdump] (lines 14-57) *)

(** [isprint] of <ctype.h> in the C locale, the one in force since nothing
    in the repository calls [setlocale]: the characters from the space to
    the tilde. *)
Definition isprint (c : Z) : bool := (0x20 <=? c) && (c <=? 0x7e).

(** Lines 14-22. *)
Definition printable (c : byte) : byte :=
  if isprint (byte_val c) then c else x2e.

(** The digit [d] of a [%x] conversion. *)
Definition hex_char (d : Z) : byte :=
  nth (Z.to_nat d) (list_byte_of_string "0123456789abcdef") x30.

(** The [n] low hexadecimal digits of [v], the most significant first. *)
Fixpoint hex_digits (n : nat) (v : Z) : list byte :=
  match n with
  | O => []
  | S n' => hex_digits n' (v / 16) ++ [hex_char (v mod 16)]
  end.

(** The number of hexadecimal digits of [v], one for zero. *)
Definition hex_length (v : Z) : nat := Z.to_nat (Z.log2 v / 4 + 1).

(** [printf("%0<width>x", v)] for an unsigned [v]: all the digits of [v],
    with zeros on the left up to [width] characters. *)
Definition printf_x (width : nat) (v : Z) : list byte :=
  hex_digits (Nat.max width (hex_length v)) v.

(** [printf(" %02x", b)] and [printf("%c", printable(b))]. *)
Definition hex_cell (b : byte) : list byte := x20 :: printf_x 2 (byte_val b).
Definition char_cell (b : byte) : list byte := [printable b].

(** One of the two loops over [i] (lines 37-43 and 47-53), from [i] on with
    [n] turns to go: [cell] prints a byte of the buffer, [blank] is printed
    where [i + offset] has reached [len].  The sums are those of [size_t];
    [None] is a read outside [buf]. *)
Fixpoint row (cell : byte -> list byte) (blank : list byte)
    (buf : list byte) (len offset : Z) (n : nat) (i : Z)
  : option (list byte) :=
  match n with
  | O => Some []
  | S n' =>
      match (if u64 (i + offset) <? len
             then option_map cell
                    (nth_error buf (Z.to_nat (u64 (offset + i))))
             else Some blank),
            row cell blank buf len offset n' (i + 1) with
      | Some a, Some b => Some (a ++ b)
      | _, _ => None
      end
  end.

(** How [hexdump] ends: with its text on the standard output, or at a read
    outside the buffer. *)
Inductive dumped : Type :=
| Dumped (text : list byte)
| BadRead.

(** The loop over [offset] (lines 34-56) with [text] printed so far; [None]
    when [fuel] turns do not end it. *)
Fixpoint hexdump_from (fuel : nat) (base_offset : Z) (buf : list byte)
    (len offset : Z) (text : list byte) : option dumped :=
  if offset <? len then
    match fuel with
    | O => None
    | S fuel' =>
        match row hex_cell [x20; x20; x20] buf len offset 16 0,
              row char_cell [x20] buf len offset 16 0 with
        | Some hex, Some chars =>
            hexdump_from fuel' base_offset buf len (u64 (offset + 16))
              (text ++ printf_x 8 (u64 (base_offset + offset)) ++ [x3a]
                    ++ hex ++ [x20; x20] ++ chars ++ [x0a])
        | _, _ => Some BadRead
        end
    end
  else Some (Dumped text).

Definition hexdump (fuel : nat) (base_offset : Z) (buf : list byte) (len : Z)
  : option dumped :=
  hexdump_from fuel base_offset buf len 0 [].

(** ** [memcpy_width] (lines 60-112) *)

(** [mem_op_t] is declared in util.h, outside the two source files:
    [MEMCPY_N] tells its enumerators [MEM_AND] and [MEM_OR], taken to be
    different, from every other value, for which [MEM_other] stands. *)
Inductive mem_op_t : Type := MEM_AND | MEM_OR | MEM_other.

(** Memory is one list of bytes and a pointer an index into it, so that
    [dest] and [src] may overlap.  [p[i]] for a pointer [p] to objects of
    [width] bytes is loaded and stored in the byte order of the host;
    [None] is an access outside the memory.  Alignment plays no part. *)
Definition load (e : endianness) (mem : list byte) (p width i : Z)
  : option Z :=
  option_map (native_int e) (read_at mem (p + i * width) width).

Definition store (e : endianness) (mem : list byte) (p width i v : Z)
  : option (list byte) :=
  let a := p + i * width in
  if (0 <=? a) && (a + width <=? Z.of_nat (List.length mem)) then
    Some (take a mem ++ native_bytes e (Z.to_nat width) v
            ++ advance (a + width) mem)
  else None.

(** The loop of lines 69-79 over objects of [width] bytes, from [i] on with
    [n] turns to go.  The fence after each store changes no value. *)
Fixpoint memcpy_loop (e : endianness) (width : Z) (op : mem_op_t)
    (dest src : Z) (n : nat) (i : Z) (mem : list byte)
  : option (list byte) :=
  match n with
  | O => Some mem
  | S n' =>
      match load e mem src width i with
      | None => None
      | Some s =>
          match (match op with
                 | MEM_AND =>
                     option_map (fun d => Z.land d s) (load e mem dest width i)
                 | MEM_OR =>
                     option_map (fun d => Z.lor d s) (load e mem dest width i)
                 | MEM_other => Some s
                 end) with
          | None => None
          | Some v =>
              match store e mem dest width i v with
              | None => None
              | Some mem' => memcpy_loop e width op dest src n' (i + 1) mem'
              end
          end
      end
  end.

(** [MEMCPY_N(WIDTH)] (lines 60-80): [memcpy_WIDTH] over [uintWIDTH_t], with
    [len / sizeof dest[0]] turns of the loop. *)
Definition MEMCPY_N (WIDTH : Z) (e : endianness) (mem : list byte)
    (dest src len : Z) (op : mem_op_t) : option (list byte) :=
  let size := WIDTH / 8 in
  memcpy_loop e size op dest src (Z.to_nat (len / size)) 0 mem.

Definition memcpy_8 := MEMCPY_N 8.
Definition memcpy_16 := MEMCPY_N 16.
Definition memcpy_32 := MEMCPY_N 32.
Definition memcpy_64 := MEMCPY_N 64.

(** How [memcpy_width] ends: it returns, with the memory as it has become;
    it prints [width %zu not supported] and exits; or it goes outside the
    memory. *)
Inductive copied : Type :=
| Copied (mem : list byte)
| NotSupported (width code : Z)
| BadAccess.

Definition returned (r : option (list byte)) : copied :=
  match r with
  | Some mem => Copied mem
  | None => BadAccess
  end.

(** Lines 87-112. *)
Definition memcpy_width (e : endianness) (mem : list byte)
    (dest src len width : Z) (op : mem_op_t) : copied :=
  if width =? 1 then returned (memcpy_8 e mem dest src len op)
  else if width =? 2 then returned (memcpy_16 e mem dest src len op)
  else if width =? 4 then returned (memcpy_32 e mem dest src len op)
  else if width =? 8 then returned (memcpy_64 e mem dest src len op)
  else NotSupported width EXIT_FAILURE.

(** ** Vocabulary for [util.c] *)

(** A column of a line for the bytes [bs], at most sixteen. *)
Definition column (cell : byte -> list byte) (blank : list byte)
    (bs : list byte) : list byte :=
  flat_map cell bs ++ List.concat (repeat blank (16 - List.length bs)).

(** The line for the bytes [bs] at the address [a]. *)
Definition dump_line (a : Z) (bs : list byte) : list byte :=
  printf_x 8 a ++ [x3a] ++ column hex_cell [x20; x20; x20] bs
    ++ [x20; x20] ++ column char_cell [x20] bs ++ [x0a].

(** [k] lines for the bytes [bs] from the address [a] on. *)
Fixpoint dump_lines (k : nat) (a : Z) (bs : list byte) : list byte :=
  match k with
  | O => []
  | S k' =>
      dump_line (u64 a) (take 16 bs) ++ dump_lines k' (a + 16) (advance 16 bs)
  end.

(** The number of lines for [len] bytes. *)
Definition line_count (len : Z) : nat := Z.to_nat ((len + 15) / 16).

(** A character that a terminal shows, or the end of a line. *)
Definition shown (c : byte) : Prop :=
  isprint (byte_val c) = true \/ c = x0a.

(** What [op] makes of a byte [d] of the destination and a byte [s] of the
    source. *)
Definition byte_op (op : mem_op_t) (d s : byte) : byte :=
  match op with
  | MEM_AND => byte_of_Z (Z.land (byte_val d) (byte_val s))
  | MEM_OR => byte_of_Z (Z.lor (byte_val d) (byte_val s))
  | MEM_other => s
  end.

(** The byte of [mem] at the index [a]. *)
Definition byte_at (mem : list byte) (a : Z) : option byte :=
  if a <? 0 then None else nth_error mem (Z.to_nat a).

(** The widths [memcpy_width] knows. *)
Definition supported (width : Z) : Prop :=
  width = 1 \/ width = 2 \/ width = 4 \/ width = 8.

(** Sixteen bytes, the first four of them unprintable, and a memory of
    sixteen bytes. *)
Definition sample : list byte :=
  [x00; x01; x7f; xff] ++ list_byte_of_string "coreboot" ++
  list_byte_of_string "CBFS".

Definition two_blocks : list byte :=
  [xf0; xf0; xf0; xf0; x0f; x0f; x0f; x0f;
   x3c; x3c; x3c; x3c; x3c; x3c; x3c; x3c].

(** Bytewise [op] of two objects of the same size. *)
Definition blend (op : mem_op_t) (ds ss : list byte) : list byte :=
  map (fun p => byte_op op (fst p) (snd p)) (combine ds ss).

(** The value the loop of [MEMCPY_N] stores for the loaded [d] and [s]. *)
Definition word_op (op : mem_op_t) (d s : Z) : Z :=
  match op with
  | MEM_AND => Z.land d s
  | MEM_OR => Z.lor d s
  | MEM_other => s
  end.

(** The byte at [a] once the [k] bytes at [dest] have taken, by [op], the
    [k] bytes at [src]. *)
Definition copy_byte (op : mem_op_t) (mem : list byte) (dest src k a : Z)
  : option byte :=
  if (dest <=? a) && (a <? dest + k) then
    match byte_at mem a, byte_at mem (a - dest + src) with
    | Some d, Some s => Some (byte_op op d s)
    | _, _ => None
    end
  else byte_at mem a.

(** The answers for [-r] or [--read] among those of [getopt_long], in the
    order of the command line, and the argument of the last of them. *)
Definition read_answers (gs : list getopt_ret) : list getopt_ret :=
  filter (fun g => g_opt g =? chr "r") gs.

Definition last_read (gs : list getopt_ret) : option string :=
  match rev (read_answers gs) with
  | g :: _ => g_optarg g
  | [] => None
  end.

(** The records [recs] as they lie on disk in the region [p], one block
    after the other: the block of a record has [align_up (offset + len)
    align] bytes and begins with the 24 bytes of its header, followed by the
    bytes of its name, a NUL and the rest of the block (what is left of the
    name field, the payload and the padding).  After the last block the
    region ends, or goes on with at least 24 bytes of which the first eight
    are not the magic. *)
Inductive on_disk (align : Z)
  : list byte -> list (cbfs_file * list byte) -> Prop :=
| on_disk_end p :
    p = [] \/
    (24 <= Z.of_nat (List.length p) /\ take 8 p <> CBFS_FILE_MAGIC) ->
    on_disk align p []
| on_disk_record p file name tail rest recs :
    p = file_bytes file ++ (name ++ x00 :: tail) ++ rest ->
    file_words file ->
    file_magic file = CBFS_FILE_MAGIC ->
    no_nul name ->
    24 + Z.of_nat (List.length (name ++ x00 :: tail))
      = align_up (file_offset file + file_len file) align ->
    on_disk align rest recs ->
    on_disk align p ((file, name) :: recs).

(** The names of [recs], each followed by a newline. *)
Definition name_lines (recs : list (cbfs_file * list byte)) : list byte :=
  List.concat (map (fun r => snd r ++ [x0a]) recs).

(** * Properties *)

(** ** Lists and views *)

Lemma advance_skipn {A : Type} (p : list A) : forall n,
  advance n p = skipn (Z.to_nat n) p.
Proof.
  induction p as [|a p IH]; intros n; simpl.
  - destruct (n <=? 0); now rewrite skipn_nil.
  - destruct (Z.leb_spec n 0) as [H|H].
    + replace (Z.to_nat n) with 0%nat by lia. reflexivity.
    + rewrite IH. replace (Z.to_nat n) with (S (Z.to_nat (n - 1))) by lia.
      reflexivity.
Qed.

Lemma take_firstn {A : Type} (p : list A) : forall n,
  take n p = firstn (Z.to_nat n) p.
Proof.
  induction p as [|a p IH]; intros n; simpl.
  - destruct (n <=? 0); now rewrite firstn_nil.
  - destruct (Z.leb_spec n 0) as [H|H].
    + replace (Z.to_nat n) with 0%nat by lia. reflexivity.
    + rewrite IH. replace (Z.to_nat n) with (S (Z.to_nat (n - 1))) by lia.
      reflexivity.
Qed.

Lemma advance_length {A : Type} (p : list A) n :
  Z.of_nat (List.length (advance n p)) =
  Z.max 0 (Z.of_nat (List.length p) - Z.max 0 n).
Proof. rewrite advance_skipn, length_skipn. lia. Qed.

Lemma take_length {A : Type} (p : list A) n :
  Z.of_nat (List.length (take n p)) =
  Z.min (Z.max 0 n) (Z.of_nat (List.length p)).
Proof. rewrite take_firstn, length_firstn. lia. Qed.

Lemma advance_0 {A : Type} (p : list A) : advance 0 p = p.
Proof. destruct p; reflexivity. Qed.

Lemma advance_advance {A : Type} (p : list A) i j :
  0 <= i -> 0 <= j -> advance i (advance j p) = advance (i + j) p.
Proof.
  intros Hi Hj. rewrite !advance_skipn, skipn_skipn. f_equal. lia.
Qed.

Lemma read_at_Some p i n bs :
  read_at p i n = Some bs ->
  0 <= i /\ 0 <= n /\ i + n <= Z.of_nat (List.length p) /\
  bs = take n (advance i p) /\ Z.of_nat (List.length bs) = n.
Proof.
  unfold read_at. intros H.
  destruct (Z.leb_spec 0 i), (Z.leb_spec 0 n),
    (Z.leb_spec (i + n) (Z.of_nat (List.length p))); simpl in H;
    try discriminate.
  inversion H; subst. repeat split; try lia.
  rewrite take_length, advance_length. lia.
Qed.

Lemma read_at_in_bounds p i n :
  0 <= i -> 0 <= n -> i + n <= Z.of_nat (List.length p) ->
  read_at p i n = Some (take n (advance i p)).
Proof.
  intros Hi Hn Hl. unfold read_at.
  destruct (Z.leb_spec 0 i), (Z.leb_spec 0 n),
    (Z.leb_spec (i + n) (Z.of_nat (List.length p))); simpl; try lia.
  reflexivity.
Qed.

Lemma read_at_None p i n :
  0 <= i -> 0 <= n ->
  (read_at p i n = None <-> Z.of_nat (List.length p) < i + n).
Proof.
  intros Hi Hn. unfold read_at.
  destruct (Z.leb_spec 0 i), (Z.leb_spec 0 n),
    (Z.leb_spec (i + n) (Z.of_nat (List.length p))); simpl; try lia;
    split; intros; try discriminate; try lia; reflexivity.
Qed.

(** ** Byte order *)

Lemma byte_val_range b : 0 <= byte_val b < 256.
Proof.
  unfold byte_val. pose proof (Byte.to_N_bounded b). lia.
Qed.

Lemma byte_val_inj a b : byte_val a = byte_val b -> a = b.
Proof.
  unfold byte_val. intros H. apply N2Z.inj in H.
  pose proof (Byte.of_to_N a) as Ha. pose proof (Byte.of_to_N b) as Hb.
  rewrite H in Ha. congruence.
Qed.

Lemma byte_val_mask b : byte_val b = Z.land (byte_val b) (Z.ones 8).
Proof.
  rewrite Z.land_ones by lia. symmetry. apply Z.mod_small.
  pose proof (byte_val_range b). change (2 ^ 8) with 256. lia.
Qed.

Lemma lor_shiftl_add lo hi k :
  0 <= k -> 0 <= lo < 2 ^ k ->
  Z.lor lo (Z.shiftl hi k) = lo + hi * 2 ^ k.
Proof.
  intros Hk Hlo. rewrite <- Z.shiftl_mul_pow2 by lia.
  rewrite <- Z.lxor_lor.
  - symmetry. apply Z.add_nocarry_lxor.
    apply Z.bits_inj'. intros i Hi. rewrite Z.land_spec, Z.bits_0.
    destruct (Z.lt_ge_cases i k).
    + rewrite Z.shiftl_spec_low by lia. apply andb_false_r.
    + rewrite <- (Z.mod_small lo (2 ^ k)) by lia.
      rewrite Z.mod_pow2_bits_high by lia. reflexivity.
  - apply Z.bits_inj'. intros i Hi. rewrite Z.land_spec, Z.bits_0.
    destruct (Z.lt_ge_cases i k).
    + rewrite Z.shiftl_spec_low by lia. apply andb_false_r.
    + rewrite <- (Z.mod_small lo (2 ^ k)) by lia.
      rewrite Z.mod_pow2_bits_high by lia. reflexivity.
Qed.

Lemma le_int_cons b bs :
  le_int (b :: bs) = byte_val b + le_int bs * 2 ^ 8.
Proof.
  change (le_int (b :: bs)) with (Z.lor (byte_val b) (Z.shiftl (le_int bs) 8)).
  apply lor_shiftl_add; [lia|]. pose proof (byte_val_range b).
  change (2 ^ 8) with 256. lia.
Qed.

Lemma le_int_range bs :
  0 <= le_int bs < 2 ^ (8 * Z.of_nat (List.length bs)).
Proof.
  induction bs as [|b bs IH].
  - simpl. lia.
  - pose proof (byte_val_range b) as Hb.
    rewrite le_int_cons.
    change (2 ^ 8) with 256.
    replace (8 * Z.of_nat (List.length (b :: bs)))
      with (8 + 8 * Z.of_nat (List.length bs)) by (simpl List.length; lia).
    rewrite Z.pow_add_r by lia. change (2 ^ 8) with 256. nia.
Qed.

Lemma le_int_4 a b c d :
  le_int [a; b; c; d] =
  byte_val a + 2 ^ 8 * byte_val b + 2 ^ 16 * byte_val c + 2 ^ 24 * byte_val d.
Proof.
  rewrite !le_int_cons. change (le_int []) with 0. lia.
Qed.

Lemma lor_add q b k :
  0 <= k -> 0 <= b < 2 ^ k -> Z.lor (q * 2 ^ k) b = q * 2 ^ k + b.
Proof.
  intros Hk Hb. rewrite Z.lor_comm, <- Z.shiftl_mul_pow2 by lia.
  rewrite lor_shiftl_add by lia. rewrite Z.shiftl_mul_pow2 by lia. lia.
Qed.

Lemma land_shifted_mask x k n :
  0 <= k -> 0 <= n ->
  Z.land x (Z.shiftl (Z.ones k) n) =
  ((x / 2 ^ n) mod 2 ^ k) * 2 ^ n.
Proof.
  intros Hk Hn.
  rewrite <- Z.shiftl_mul_pow2, <- Z.land_ones, <- Z.shiftr_div_pow2 by lia.
  apply Z.bits_inj'. intros i Hi.
  rewrite Z.land_spec, !Z.shiftl_spec, Z.land_spec by lia.
  destruct (Z.lt_ge_cases i n).
  - rewrite !(Z.testbit_neg_r _ (i - n)) by lia. now rewrite andb_false_r.
  - rewrite Z.shiftr_spec by lia. replace (i - n + n) with i by lia.
    reflexivity.
Qed.

Lemma bswap32_bytes a b c d :
  bswap32 (le_int [a; b; c; d]) = le_int [d; c; b; a].
Proof.
  rewrite !le_int_4.
  pose proof (byte_val_range a) as Ha. pose proof (byte_val_range b) as Hb.
  pose proof (byte_val_range c) as Hc. pose proof (byte_val_range d) as Hd.
  set (x := byte_val a + 2 ^ 8 * byte_val b + 2 ^ 16 * byte_val c +
            2 ^ 24 * byte_val d).
  unfold bswap32.
  change 255 with (Z.shiftl (Z.ones 8) 0).
  change 65280 with (Z.shiftl (Z.ones 8) 8).
  rewrite !land_shifted_mask, !Z.shiftr_div_pow2, !Z.shiftl_mul_pow2 by lia.
  change (2 ^ 0) with 1. rewrite !Z.div_1_r, !Z.mul_1_r.
  assert (E0 : x mod 2 ^ 8 = byte_val a).
  { symmetry.
    apply (Z.mod_unique_pos x (2 ^ 8)
             (byte_val b + 2 ^ 8 * byte_val c + 2 ^ 16 * byte_val d));
      subst x; lia. }
  assert (E1 : x / 2 ^ 8 =
               byte_val b + 2 ^ 8 * byte_val c + 2 ^ 16 * byte_val d).
  { symmetry. apply (Z.div_unique_pos x (2 ^ 8) _ (byte_val a));
      subst x; lia. }
  assert (E2 : (x / 2 ^ 8) mod 2 ^ 8 = byte_val b).
  { rewrite E1. symmetry.
    apply (Z.mod_unique_pos _ (2 ^ 8) (byte_val c + 2 ^ 8 * byte_val d)); lia. }
  assert (E3 : x / 2 ^ 8 / 2 ^ 8 = byte_val c + 2 ^ 8 * byte_val d).
  { rewrite E1. symmetry.
    apply (Z.div_unique_pos _ (2 ^ 8) _ (byte_val b)); lia. }
  assert (E4 : (x / 2 ^ 8 / 2 ^ 8) mod 2 ^ 8 = byte_val c).
  { rewrite E3. symmetry.
    apply (Z.mod_unique_pos _ (2 ^ 8) (byte_val d)); lia. }
  assert (E5 : x / 2 ^ 24 = byte_val d).
  { symmetry.
    apply (Z.div_unique_pos x (2 ^ 24) _
             (byte_val a + 2 ^ 8 * byte_val b + 2 ^ 16 * byte_val c));
      subst x; lia. }
  assert (E6 : byte_val d mod 2 ^ 8 = byte_val d) by (apply Z.mod_small; lia).
  rewrite E0, E2, E4, E5, E6.
  rewrite (lor_add (byte_val c) (byte_val d) 8) by lia.
  replace (byte_val b * 2 ^ 8 * 2 ^ 8) with (byte_val b * 2 ^ 16) by lia.
  replace (Z.lor (byte_val a * 2 ^ 24) (byte_val b * 2 ^ 16))
    with (byte_val a * 2 ^ 24 + byte_val b * 2 ^ 16).
  2:{ symmetry. apply lor_add; lia. }
  replace (byte_val a * 2 ^ 24 + byte_val b * 2 ^ 16)
    with ((byte_val a * 2 ^ 8 + byte_val b) * 2 ^ 16) by lia.
  rewrite lor_add by lia. lia.
Qed.

(** A field of the structure, loaded and passed through [ntohl], is the
    big-endian value of its four bytes whatever the host. *)
Lemma ntohl_native e a b c d :
  ntohl e (native_int e [a; b; c; d]) = be_int [a; b; c; d].
Proof.
  destruct e; unfold ntohl, native_int.
  - rewrite bswap32_bytes. reflexivity.
  - reflexivity.
Qed.

Lemma byte_val_of_Z z : byte_val (byte_of_Z z) = z mod 256.
Proof.
  unfold byte_of_Z, byte_val.
  assert (Hr : 0 <= z mod 256 < 256) by (apply Z.mod_pos_bound; lia).
  destruct (Byte.of_N (Z.to_N (z mod 256))) as [b|] eqn:E.
  - apply Byte.to_of_N in E. rewrite E. lia.
  - apply Byte.of_N_None_iff in E. lia.
Qed.

Lemma le_bytes_length n : forall x, List.length (le_bytes n x) = n.
Proof. induction n; intros x; simpl; [reflexivity | now rewrite IHn]. Qed.

Lemma be_bytes_length n x : List.length (be_bytes n x) = n.
Proof. unfold be_bytes. now rewrite length_rev, le_bytes_length. Qed.

Lemma le_int_le_bytes n : forall x,
  le_int (le_bytes n x) = x mod 2 ^ (8 * Z.of_nat n).
Proof.
  induction n as [|n IH]; intros x.
  - simpl. now rewrite Z.mod_1_r.
  - change (le_bytes (S n) x)
      with (byte_of_Z x :: le_bytes n (Z.shiftr x 8)).
    rewrite le_int_cons, IH, byte_val_of_Z, Z.shiftr_div_pow2 by lia.
    replace (8 * Z.of_nat (S n)) with (8 + 8 * Z.of_nat n) by lia.
    rewrite Z.pow_add_r by lia. change (2 ^ 8) with 256.
    rewrite Z.rem_mul_r by lia. lia.
Qed.

Lemma be_int_be_bytes n x : be_int (be_bytes n x) = x mod 2 ^ (8 * Z.of_nat n).
Proof.
  unfold be_int, be_bytes. rewrite rev_involutive. apply le_int_le_bytes.
Qed.

Lemma native_int_native_bytes e n x :
  native_int e (native_bytes e n x) = x mod 2 ^ (8 * Z.of_nat n).
Proof.
  destruct e; unfold native_int, native_bytes.
  - apply le_int_le_bytes.
  - apply be_int_be_bytes.
Qed.

Lemma list_of_length_4 {A : Type} (l : list A) :
  List.length l = 4%nat -> exists a b c d, l = [a; b; c; d].
Proof.
  destruct l as [|a [|b [|c [|d [|? ?]]]]]; try discriminate.
  intros _. now exists a, b, c, d.
Qed.

(** A word that went through [ntohl] after its load is the word that was
    laid down big-endian. *)
Lemma ntohl_native_be_bytes e x :
  0 <= x < 2 ^ 32 -> ntohl e (native_int e (be_bytes 4 x)) = x.
Proof.
  intros Hx.
  destruct (list_of_length_4 (be_bytes 4 x) (be_bytes_length 4 x))
    as (a & b & c & d & E).
  rewrite E, ntohl_native, <- E, be_int_be_bytes.
  apply Z.mod_small. exact Hx.
Qed.

Lemma range_holds m addr bs :
  holds m addr bs -> range m addr (List.length bs) = bs.
Proof.
  intros H. unfold range.
  apply (nth_ext _ _ x00 x00).
  - now rewrite length_map, length_seq.
  - intros n Hn. rewrite length_map, length_seq in Hn.
    rewrite (nth_indep _ x00 (phys m (addr + Z.of_nat 0)))
      by now rewrite length_map, length_seq.
    rewrite (map_nth (fun i => phys m (addr + Z.of_nat i))).
    rewrite seq_nth by exact Hn. simpl. now apply H.
Qed.

Lemma copy_physical_holds m addr bs len :
  holds m addr bs -> len = Z.of_nat (List.length bs) ->
  copy_physical m addr len = bs.
Proof.
  intros H ->. unfold copy_physical. rewrite Nat2Z.id. now apply range_holds.
Qed.

Lemma field_app_here a rest :
  List.length a = 4%nat -> field (a ++ rest) 0 = a.
Proof.
  intros H. destruct (list_of_length_4 a H) as (x & y & z & t & ->).
  unfold field. rewrite take_firstn, advance_skipn. reflexivity.
Qed.

Lemma field_here a : List.length a = 4%nat -> field a 0 = a.
Proof.
  intros H. rewrite <- (app_nil_r a) at 1. now apply field_app_here.
Qed.

Lemma field_app_skip a rest i j :
  List.length a = 4%nat -> 0 <= j -> i = j + 4 ->
  field (a ++ rest) i = field rest j.
Proof.
  intros H Hj ->. destruct (list_of_length_4 a H) as (x & y & z & t & ->).
  unfold field. f_equal. rewrite !advance_skipn.
  replace (Z.to_nat (j + 4)) with (4 + Z.to_nat j)%nat by lia.
  reflexivity.
Qed.

Lemma s32_u32 d : - 2 ^ 31 <= d < 2 ^ 31 -> s32 (u32 d) = d.
Proof.
  intros H. unfold s32, u32.
  destruct (Z.lt_ge_cases d 0).
  - replace (d mod 2 ^ 32) with (d + 2 ^ 32).
    + destruct (Z.ltb_spec (d + 2 ^ 32) (2 ^ 31)); lia.
    + apply (Z.mod_unique_pos d (2 ^ 32) (-1)); lia.
  - rewrite Z.mod_small by lia. destruct (Z.ltb_spec d (2 ^ 31)); lia.
Qed.

Ltac word_at i :=
  lazymatch i with
  | 0 => rewrite ?field_app_here, ?field_here by apply be_bytes_length
  | _ =>
      let j := eval cbv in (i - 4) in
      rewrite (field_app_skip _ _ i j)
        by (try apply be_bytes_length; lia);
      word_at j
  end.

Lemma header_roundtrip e h :
  words h ->
  header_ntohl e (header_of_bytes e (header_bytes h)) =
  {| hdr_magic := hdr_magic h; hdr_version := hdr_version h;
     hdr_romsize := hdr_romsize h;
     hdr_bootblocksize := hdr_bootblocksize h;
     hdr_align := hdr_align h; hdr_offset := hdr_offset h;
     hdr_architecture := hdr_architecture h;
     hdr_pad := native_int e (be_bytes 4 (hdr_pad h)) |}.
Proof.
  intros (Hm & Hv & Hr & Hb & Ha & Ho & Hc & Hp).
  unfold header_ntohl, header_of_bytes, header_bytes.
  cbn [hdr_magic hdr_version hdr_romsize hdr_bootblocksize hdr_align
       hdr_offset hdr_architecture hdr_pad].
  f_equal;
    match goal with |- context [field _ ?i] => word_at i end;
    try (now apply ntohl_native_be_bytes); reflexivity.
Qed.

(** C6.  Whatever the byte order of the host: when the four bytes at
    [top_of_space - 4] are the signed 32-bit [header_delta] in the host's own
    order and the header lies big-endian at [top_of_space + header_delta],
    the locator reads its header at that address and every named field comes
    out as it was written, the magic included.  The reserved word is the only
    one that skips [ntohl]: it is recovered when it was written as zero. *)
Theorem header_locator_recovers m o w header_delta h :
  - 2 ^ 31 <= header_delta < 2 ^ 31 ->
  words h ->
  holds m (top_of_space - 4) (footer_bytes (host m) header_delta) ->
  holds m (top_of_space + header_delta) (header_bytes h) ->
  let h' := fst (locate_header m o w) in
  hdr_magic h' = hdr_magic h /\ hdr_version h' = hdr_version h /\
  hdr_romsize h' = hdr_romsize h /\
  hdr_bootblocksize h' = hdr_bootblocksize h /\
  hdr_align h' = hdr_align h /\ hdr_offset h' = hdr_offset h /\
  hdr_architecture h' = hdr_architecture h /\
  (hdr_pad h = 0 -> h' = h) /\
  snd (locate_header m o w) =
    chat (verbose o) (HeaderFields h')
      (chat (verbose o) (SeekingTo (top_of_space + header_delta))
         (chat (verbose o) (HeaderOffset header_delta)
            (chat (verbose o) (SeekingTo (top_of_space - 4)) w))).
Proof.
  intros Hd Hw Hfoot Hhdr.
  assert (Edelta :
    s32 (native_int (host m)
           (copy_physical m (u64 (top_of_space - 4)) 4)) = header_delta).
  { change (u64 (top_of_space - 4)) with (top_of_space - 4).
    rewrite (copy_physical_holds _ _ _ _ Hfoot)
      by (unfold footer_bytes; destruct (host m); reflexivity).
    unfold footer_bytes. rewrite native_int_native_bytes.
    change (2 ^ (8 * Z.of_nat 4)) with (2 ^ 32).
    unfold u32 at 1. rewrite Z.mod_mod by lia. now apply s32_u32. }
  assert (Eoff : u64 (top_of_space + header_delta) =
                 top_of_space + header_delta).
  { unfold u64, top_of_space in *. apply Z.mod_small. lia. }
  assert (Ebytes :
    copy_physical m (top_of_space + header_delta) sizeof_header =
    header_bytes h).
  { apply copy_physical_holds; [exact Hhdr|].
    unfold header_bytes. rewrite !length_app, !be_bytes_length.
    reflexivity. }
  unfold locate_header. cbv zeta. rewrite Edelta, Eoff, Ebytes.
  rewrite (header_roundtrip _ _ Hw). cbn [fst snd hdr_magic hdr_version
    hdr_romsize hdr_bootblocksize hdr_align hdr_offset hdr_architecture].
  repeat split; try reflexivity.
  intros Hpad. destruct h as [a1 a2 a3 a4 a5 a6 a7 a8].
  cbn [hdr_pad hdr_magic hdr_version hdr_romsize hdr_bootblocksize hdr_align
       hdr_offset hdr_architecture] in Hpad |- *.
  rewrite Hpad. f_equal. destruct (host m); reflexivity.
Qed.

(** ** The C library *)

Lemma strncmp_unfold s1 s2 n :
  strncmp s1 s2 n =
  if n <=? 0 then Some 0
  else
    match s1 with
    | [] => None
    | c1 :: s1' =>
        match s2 with
        | [] => Some (byte_val c1)
        | c2 :: s2' =>
            if byte_val c1 =? byte_val c2
            then if is_nul c1 then Some 0 else strncmp s1' s2' (n - 1)
            else Some (byte_val c1 - byte_val c2)
        end
    end.
Proof. destruct s1, s2; reflexivity. Qed.

(** Against a string without NUL and over its whole length, [strncmp] is
    equality of the bytes. *)
Lemma strncmp_exact s2 :
  Forall (fun b => is_nul b = false) s2 ->
  forall s1, List.length s1 = List.length s2 ->
  exists c, strncmp s1 s2 (Z.of_nat (List.length s2)) = Some c /\
            (c = 0 <-> s1 = s2).
Proof.
  induction 1 as [|c2 s2 Hc2 Hs2 IH]; intros s1 Hl.
  - destruct s1; [|discriminate]. exists 0. split; [reflexivity|tauto].
  - destruct s1 as [|c1 s1]; [discriminate|].
    rewrite strncmp_unfold.
    destruct (Z.leb_spec (Z.of_nat (List.length (c2 :: s2))) 0) as [H0|H0];
      [simpl List.length in H0; lia|].
    destruct (Z.eqb_spec (byte_val c1) (byte_val c2)) as [E|E].
    + apply byte_val_inj in E. subst c1. rewrite Hc2.
      replace (Z.of_nat (List.length (c2 :: s2)) - 1)
        with (Z.of_nat (List.length s2)) by (simpl List.length; lia).
      destruct (IH s1) as (c & Hc & Hiff); [simpl in Hl; lia|].
      exists c. split; [exact Hc|]. rewrite Hiff.
      split; [intros ->; reflexivity | intros H; now inversion H].
    + exists (byte_val c1 - byte_val c2). split; [reflexivity|].
      split; [lia | intros H; inversion H; subst; lia].
Qed.

Lemma magic_has_no_nul : Forall (fun b => is_nul b = false) CBFS_FILE_MAGIC.
Proof. repeat constructor. Qed.

Lemma strncmp_magic bs :
  List.length bs = 8%nat ->
  exists c, strncmp bs CBFS_FILE_MAGIC 8 = Some c /\
            (c = 0 <-> bs = CBFS_FILE_MAGIC).
Proof.
  intros H. apply (strncmp_exact _ magic_has_no_nul bs). exact H.
Qed.

(** ** Decoding a record *)

Lemma decode_Some m p file :
  decode m p = Some file ->
  24 <= Z.of_nat (List.length p) /\
  file = file_ntohl (host m) (file_of_bytes (host m) (take 24 p)) /\
  file_magic file = take 8 p.
Proof.
  unfold decode, sizeof_file. intros H.
  destruct (read_at p 0 24) as [bs|] eqn:E; [|discriminate].
  inversion H; subst; clear H.
  apply read_at_Some in E. destruct E as (_ & _ & Hl & -> & _).
  rewrite advance_0. repeat split; try lia.
  unfold file_ntohl, file_of_bytes. cbn [file_magic].
  rewrite !take_firstn, firstn_firstn. reflexivity.
Qed.

Lemma decode_None m p :
  decode m p = None <-> Z.of_nat (List.length p) < 24.
Proof.
  unfold decode, sizeof_file.
  destruct (read_at p 0 24) as [bs|] eqn:E.
  - apply read_at_Some in E. split; [discriminate | lia].
  - apply read_at_None in E; try lia. split; [lia | reflexivity].
Qed.

Lemma field_length bs i :
  0 <= i -> i + 4 <= Z.of_nat (List.length bs) ->
  List.length (field bs i) = 4%nat.
Proof.
  intros Hi Hl. unfold field.
  apply Nat2Z.inj. rewrite take_length, advance_length. lia.
Qed.

Lemma ntohl_native_range e bs :
  List.length bs = 4%nat -> 0 <= ntohl e (native_int e bs) < 2 ^ 32.
Proof.
  intros H. destruct (list_of_length_4 bs H) as (a & b & c & d & ->).
  rewrite ntohl_native. unfold be_int.
  pose proof (le_int_range (rev [a; b; c; d])) as R.
  rewrite length_rev in R. exact R.
Qed.

(** The four numbers of a decoded record are 32-bit words. *)
Lemma decode_words m p file :
  decode m p = Some file ->
  0 <= file_len file < 2 ^ 32 /\ 0 <= file_type file < 2 ^ 32 /\
  0 <= file_attributes_offset file < 2 ^ 32 /\
  0 <= file_offset file < 2 ^ 32 /\
  List.length (file_magic file) = 8%nat.
Proof.
  intros H. apply decode_Some in H. destruct H as (Hl & -> & _).
  assert (L : Z.of_nat (List.length (take 24 p)) = 24)
    by (rewrite take_length; lia).
  unfold file_ntohl, file_of_bytes.
  cbn [file_len file_type file_attributes_offset file_offset file_magic].
  repeat split; try (apply ntohl_native_range, field_length; lia).
  apply Nat2Z.inj. rewrite take_length. lia.
Qed.

(** ** The advance of the cursor *)

Lemma not32_pow2_mask k :
  0 <= k < 32 -> not32 (u32 (2 ^ k - 1)) = Z.shiftl (Z.ones (32 - k)) k.
Proof.
  intros Hk. unfold not32, u32.
  assert (P : 0 < 2 ^ k <= 2 ^ 31)
    by (split; [apply Z.pow_pos_nonneg; lia
               | apply Z.pow_le_mono_r; lia]).
  rewrite (Z.mod_small (2 ^ k - 1)) by lia.
  rewrite Z.shiftl_mul_pow2, Z.ones_equiv by lia.
  unfold Z.lnot, Z.pred.
  assert (E : 2 ^ 32 = 2 ^ (32 - k) * 2 ^ k)
    by (rewrite <- Z.pow_add_r by lia; f_equal; lia).
  symmetry. apply (Z.mod_unique_pos _ (2 ^ 32) (-1)); lia.
Qed.

Lemma land_pow2_mask a k :
  0 <= k < 32 -> 0 <= a < 2 ^ 32 ->
  Z.land a (Z.shiftl (Z.ones (32 - k)) k) = a / 2 ^ k * 2 ^ k.
Proof.
  intros Hk Ha. rewrite land_shifted_mask by lia. f_equal.
  apply Z.mod_small. split.
  - apply Z.div_pos; [lia | apply Z.pow_pos_nonneg; lia].
  - apply Z.div_lt_upper_bound; [apply Z.pow_pos_nonneg; lia|].
    rewrite <- Z.pow_add_r by lia. replace (k + (32 - k)) with 32 by lia.
    lia.
Qed.

Lemma increment_sum align file :
  increment align file =
  Z.land (u32 (align + (file_offset file + file_len file) - 1))
         (not32 (u32 (align - 1))).
Proof.
  unfold increment, u32. f_equal.
  rewrite <- (Zminus_mod_idemp_l (align + (file_offset file + file_len file))).
  rewrite <- (Zplus_mod_idemp_r (file_offset file + file_len file)).
  reflexivity.
Qed.

(** With a power of two for [align] and no wrap-around of the 32-bit sum,
    the increment is the sum rounded up to a multiple of [align]. *)
Lemma increment_align_up k file :
  0 <= k < 32 ->
  0 < file_offset file + file_len file <= 2 ^ 32 - 2 ^ k ->
  increment (2 ^ k) file =
  align_up (file_offset file + file_len file) (2 ^ k).
Proof.
  intros Hk Hx. rewrite increment_sum, not32_pow2_mask by exact Hk.
  assert (P : 0 < 2 ^ k) by (apply Z.pow_pos_nonneg; lia).
  unfold u32 at 1. rewrite Z.mod_small by lia.
  rewrite land_pow2_mask by lia. unfold align_up. f_equal. f_equal. lia.
Qed.

Lemma align_up_spec x a :
  0 < a -> 0 < x ->
  0 < align_up x a /\ (a | align_up x a) /\ x <= align_up x a.
Proof.
  intros Ha Hx. unfold align_up.
  pose proof (Z.div_mod (x + a - 1) a ltac:(lia)) as D.
  pose proof (Z.mod_pos_bound (x + a - 1) a Ha) as B.
  assert (L : x <= (x + a - 1) / a * a) by nia.
  repeat split; try lia. exists ((x + a - 1) / a). reflexivity.
Qed.

(** With a power of two for [align] the increment is a multiple of [align]
    in every case, the wrap-around included; it may be zero. *)
Lemma increment_multiple k file :
  0 <= k < 32 -> (2 ^ k | increment (2 ^ k) file).
Proof.
  intros Hk. rewrite increment_sum, not32_pow2_mask by exact Hk.
  rewrite land_pow2_mask; [eexists; reflexivity | exact Hk |].
  unfold u32. apply Z.mod_pos_bound. lia.
Qed.

Lemma increment_range align file : 0 <= increment align file < 2 ^ 32.
Proof.
  unfold increment.
  assert (A : forall x, 0 <= u32 x < 2 ^ 32)
    by (intros x; unfold u32; apply Z.mod_pos_bound; lia).
  pose proof (A (u32 (align + u32 (file_offset file + file_len file)) - 1))
    as [A1 A2].
  split.
  - apply Z.land_nonneg. left. exact A1.
  - set (a := u32 (u32 (align + u32 (file_offset file + file_len file)) - 1))
      in *.
    set (b := not32 (u32 (align - 1))).
    destruct (Z.eq_dec (Z.land a b) 0) as [->|NZ]; [lia|].
    assert (Pos : 0 < Z.land a b).
    { assert (0 <= Z.land a b) by (apply Z.land_nonneg; left; exact A1). lia. }
    apply Z.log2_lt_pow2; [exact Pos|].
    destruct (Z.eq_dec a 0) as [Ea|Na];
      [rewrite Ea, Z.land_0_l in NZ; contradiction|].
    assert (B0 : 0 <= b)
      by (unfold b, not32, u32; apply Z.mod_pos_bound; lia).
    pose proof (Z.log2_land a b A1 B0) as L.
    assert (Z.log2 a < 32) by (apply Z.log2_lt_pow2; lia).
    lia.
Qed.

(** ** One turn of the loop *)

Lemma extract_not_Next m o end_ s file w s' :
  extract m o end_ s file w <> Some (Next s').
Proof.
  unfold extract.
  destruct (u64 (u64 (off s + file_offset file) + file_len file) >? end_);
    [discriminate|].
  destruct (write_loop _ _ _ _ _ _) as [[w'|w'|w']|]; discriminate.
Qed.

Lemma magic_test m p file :
  decode m p = Some file ->
  exists c, strncmp (file_magic file) CBFS_FILE_MAGIC 8 = Some c /\
            (c = 0 <-> file_magic file = CBFS_FILE_MAGIC).
Proof.
  intros H. apply strncmp_magic. now apply decode_words in H.
Qed.

(** A turn that goes on to the next record stepped over a record with the
    right magic. *)
Lemma loop_body_Next m o align end_ s s' :
  loop_body m o align end_ s = Some (Next s') ->
  exists file w,
    decode m (rom s) = Some file /\
    file_magic file = CBFS_FILE_MAGIC /\
    show_names o file (advance sizeof_file (rom s)) (seen o s file) = Some w /\
    s' = step_over o align s file w.
Proof.
  unfold loop_body. intros H.
  destruct (decode m (rom s)) as [file|] eqn:D; [|discriminate].
  destruct (magic_test _ _ _ D) as (c & Hc & Hiff). rewrite Hc in H.
  destruct (Z.eqb_spec c 0) as [E|E]; simpl negb in H; cbv iota in H;
    [|discriminate].
  fold (seen o s file) in H.
  destruct (show_names o file (advance sizeof_file (rom s)) (seen o s file))
    as [w|] eqn:N; [|discriminate].
  exists file, w. repeat split; try tauto.
  destruct (negb (reading s =? 0) && type_selected o file).
  - destruct (name_matches o _ _) as [[|]|]; try discriminate.
    + now apply extract_not_Next in H.
    + now inversion H.
  - now inversion H.
Qed.



(** ** Streaming the payload *)

Lemma take_0 {A : Type} (p : list A) : take 0 p = [].
Proof. destruct p; reflexivity. Qed.

Lemma take_split {A : Type} (p : list A) : forall a b,
  0 <= a -> 0 <= b -> take a p ++ take b (advance a p) = take (a + b) p.
Proof.
  induction p as [|x p IH]; intros a b Ha Hb.
  - rewrite !take_firstn, advance_skipn, skipn_nil, !firstn_nil. reflexivity.
  - destruct (Z.eq_dec a 0) as [->|Na].
    + rewrite take_0, advance_0. reflexivity.
    + cbn [take advance].
      destruct (Z.leb_spec a 0); [lia|].
      destruct (Z.leb_spec (a + b) 0); [lia|].
      cbn [app]. f_equal.
      replace (a + b - 1) with ((a - 1) + b) by lia.
      apply IH; lia.
Qed.

Lemma take_take {A : Type} (p : list A) a b :
  0 <= a <= b -> take a (take b p) = take a p.
Proof.
  intros H. rewrite !take_firstn, firstn_firstn. f_equal. lia.
Qed.

Lemma write_rc_cases m w count :
  0 < count ->
  (write_rc m w count <= 0 /\ sink m (writes w) <= 0) \/
  (0 < write_rc m w count <= count /\ 0 < sink m (writes w)).
Proof.
  intros Hc. unfold write_rc.
  destruct (Z.leb_spec (sink m (writes w)) 0); [left | right]; lia.
Qed.

(** The loop of lines 221-235 over a buffer that holds the [len] bytes: it
    ends, either with all of them written in order, whatever the sizes of
    the partial writes, or at the first call that returns no positive
    count. *)
Lemma write_loop_spec m data len :
  len < 2 ^ 64 -> len <= Z.of_nat (List.length data) ->
  forall fuel offset w,
    0 <= offset <= len -> len - offset <= Z.of_nat fuel ->
    exists e, write_loop m fuel data len offset w = Some e /\
      match e with
      | WriteDone w' =>
          written w' = written w ++ take (len - offset) (advance offset data)
          /\ printed w' = printed w /\ errors w' = errors w
          /\ (writes w <= writes w')%nat
          /\ forall n, (writes w <= n < writes w')%nat -> 0 < sink m n
      | WriteError w' =>
          (exists k, 0 <= k < len - offset /\
             written w' = written w ++ take k (advance offset data))
          /\ printed w' = printed w
          /\ errors w' = errors w ++ [WriteFailed]
          /\ (writes w < writes w')%nat
          /\ sink m (pred (writes w')) <= 0
          /\ forall n, (writes w <= n < pred (writes w'))%nat -> 0 < sink m n
      | WriteFault _ => False
      end.
Proof.
  intros Hlen Hdata.
  induction fuel as [|fuel IH]; intros offset w Ho Hf.
  - assert (offset = len) by lia. subst offset.
    exists (WriteDone w). cbn [write_loop]. rewrite Z.ltb_irrefl.
    split; [reflexivity|]. rewrite Z.sub_diag, take_0, app_nil_r.
    repeat split; lia.
  - cbn [write_loop].
    destruct (Z.ltb_spec offset len) as [Hlt|Hge].
    2:{ assert (offset = len) by lia. subst offset.
        exists (WriteDone w). split; [reflexivity|].
        rewrite Z.sub_diag, take_0, app_nil_r.
        repeat split; lia. }
    assert (Ecount : u64 (len - offset) = len - offset)
      by (unfold u64; apply Z.mod_small; lia).
    rewrite Ecount.
    destruct (write_rc_cases m w (len - offset)) as [[Hrc Hs]|[Hrc Hs]];
      [lia| |].
    + destruct (Z.leb_spec (write_rc m w (len - offset)) 0); [|lia].
      exists (WriteError (say WriteFailed (emit [] w))).
      split; [reflexivity|]. cbn [say emit written printed errors writes].
      repeat split; try lia; try exact Hs; try reflexivity.
      * exists 0. rewrite take_0. split; [lia | reflexivity].
    + destruct (Z.leb_spec (write_rc m w (len - offset)) 0); [lia|].
      set (rc := write_rc m w (len - offset)) in *.
      rewrite read_at_in_bounds by lia.
      assert (Eoff : u64 (offset + rc) = offset + rc)
        by (unfold u64; apply Z.mod_small; lia).
      rewrite Eoff.
      destruct (IH (offset + rc) (emit (take rc (advance offset data)) w))
        as (e & He & Hspec); try lia.
      exists e. split; [exact He|].
      cbn [emit written printed errors writes] in Hspec.
      assert (Esplit : forall k, 0 <= k ->
                take rc (advance offset data) ++
                take k (advance (offset + rc) data) =
                take (rc + k) (advance offset data)).
      { intros k Hk. rewrite <- take_split by lia.
        rewrite advance_advance by lia. do 3 f_equal. lia. }
      destruct e as [w'|w'|w'].
      * destruct Hspec as (Hw & Hp & He' & Hn & Hall).
        repeat split; try lia; try congruence.
        -- rewrite Hw, <- app_assoc, Esplit by lia. do 2 f_equal. lia.
        -- intros n Hn'. destruct (Nat.eq_dec n (writes w)) as [->|Hne];
             [exact Hs | apply Hall; lia].
      * destruct Hspec as ((k & Hk & Hw) & Hp & He' & Hn & Hlast & Hall).
        repeat split; try lia; try congruence.
        -- exists (rc + k). split; [lia|].
           rewrite Hw, <- app_assoc, Esplit by lia. reflexivity.
        -- intros n Hn'. destruct (Nat.eq_dec n (writes w)) as [->|Hne];
             [exact Hs | apply Hall; lia].
      * exact Hspec.
Qed.

(** A turn of the loop always comes to a result. *)
Lemma extract_total m o end_ s file w :
  0 <= file_len file < 2 ^ 64 ->
  extract m o end_ s file w <> None.
Proof.
  intros Hl. unfold extract.
  destruct (u64 (u64 (off s + file_offset file) + file_len file) >? end_);
    [discriminate|].
  assert (T : forall data fuel offset w0,
             0 <= offset ->
             file_len file - offset <= Z.of_nat fuel ->
             write_loop m fuel data (file_len file) offset w0 <> None).
  { intros data. induction fuel as [|fuel IH]; intros offset w0 Ho Hf;
      cbn [write_loop].
    - destruct (Z.ltb_spec offset (file_len file)); [lia | discriminate].
    - destruct (Z.ltb_spec offset (file_len file)); [|discriminate].
      assert (Ecount : u64 (file_len file - offset) = file_len file - offset)
        by (unfold u64; apply Z.mod_small; lia).
      rewrite Ecount.
      destruct (write_rc_cases m w0 (file_len file - offset))
        as [[Hrc _]|[Hrc _]]; [lia| |].
      + destruct (Z.leb_spec (write_rc m w0 (file_len file - offset)) 0);
          [discriminate | lia].
      + destruct (Z.leb_spec (write_rc m w0 (file_len file - offset)) 0);
          [lia|].
        destruct (read_at _ _ _); [|discriminate].
        apply IH.
        * unfold u64. apply Z.mod_pos_bound. lia.
        * unfold u64. rewrite Z.mod_small by lia. lia. }
  destruct (write_loop _ _ _ _ _ _) as [[?|?|?]|] eqn:E; try discriminate.
  exfalso. revert E. apply T; lia.
Qed.

Lemma loop_body_total m o align end_ s : loop_body m o align end_ s <> None.
Proof.
  unfold loop_body.
  destruct (decode m (rom s)) as [file|] eqn:D; [|discriminate].
  destruct (strncmp _ _ _) as [c|]; [|discriminate].
  destruct (negb (c =? 0)); [discriminate|].
  destruct (show_names _ _ _ _); [|discriminate].
  destruct (negb (reading s =? 0) && type_selected o file); [|discriminate].
  destruct (name_matches _ _ _) as [[|]|]; try discriminate.
  apply extract_total. apply decode_words in D. lia.
Qed.

(** ** What the messages leave untouched *)

Lemma chat_keeps v d w :
  printed (chat v d w) = printed w /\ written (chat v d w) = written w /\
  writes (chat v d w) = writes w.
Proof. unfold chat. destruct (v =? 0); repeat split. Qed.

Lemma chat_quiet d w : chat 0 d w = w.
Proof. reflexivity. Qed.

Lemma seen_keeps o s file :
  printed (seen o s file) = printed (out s) /\
  written (seen o s file) = written (out s) /\
  writes (seen o s file) = writes (out s).
Proof.
  unfold seen.
  destruct (chat_keeps (verbose o) (FileFields file)
              (chat (verbose o) (PotentialFile (off s)) (out s)))
    as (A & B & C).
  destruct (chat_keeps (verbose o) (PotentialFile (off s)) (out s))
    as (A' & B' & C').
  repeat split; congruence.
Qed.

(** What [show_names] does when the name is terminated inside the view. *)
Lemma show_names_Some o file name w w' :
  show_names o file name w = Some w' ->
  written w' = written w /\ writes w' = writes w /\
  printed w' =
    printed w ++
    (if do_list o && type_selected o file
     then match c_string name with
          | Some n => n ++ [x0a]
          | None => []
          end
     else []).
Proof.
  unfold show_names. intros H.
  destruct (verbose o =? 0).
  - destruct (do_list o && type_selected o file).
    + destruct (c_string name) as [n|]; [|discriminate].
      inversion H; subst. cbn. repeat split.
    + inversion H; subst. rewrite app_nil_r. repeat split.
  - destruct (c_string name) as [n|]; [|discriminate].
    cbn [option_map] in H.
    destruct (do_list o && type_selected o file).
    + inversion H; subst. cbn. repeat split.
    + inversion H; subst. cbn. rewrite app_nil_r. repeat split.
Qed.

Lemma show_names_terminated o file name n w :
  c_string name = Some n -> exists w', show_names o file name w = Some w'.
Proof.
  intros H. unfold show_names. rewrite H.
  destruct (verbose o =? 0); cbn [option_map];
    destruct (do_list o && type_selected o file); eauto.
Qed.

(** The turn of the loop on a record that carries the magic. *)
Lemma loop_body_record m o align end_ s file :
  decode m (rom s) = Some file ->
  file_magic file = CBFS_FILE_MAGIC ->
  loop_body m o align end_ s =
  match show_names o file (advance sizeof_file (rom s)) (seen o s file) with
  | None => Some (Fault (seen o s file))
  | Some w =>
      if negb (reading s =? 0) && type_selected o file then
        match name_matches o (advance sizeof_file (rom s))
                (u64 (file_offset file - sizeof_file)) with
        | None => Some (Fault w)
        | Some true => extract m o end_ s file w
        | Some false => Some (Next (step_over o align s file w))
        end
      else Some (Next (step_over o align s file w))
  end.
Proof.
  intros D M. unfold loop_body. rewrite D.
  destruct (magic_test _ _ _ D) as (c & Hc & Hiff). rewrite Hc.
  assert (c = 0) by tauto. subst c. reflexivity.
Qed.

(** The turn of the loop on a record with another magic: the loop is left
    and nothing was printed or written. *)
Lemma loop_body_sentinel m o align end_ s file :
  decode m (rom s) = Some file ->
  file_magic file <> CBFS_FILE_MAGIC ->
  loop_body m o align end_ s = Some (Break (with_out s (seen o s file))).
Proof.
  intros D M. unfold loop_body. rewrite D.
  destruct (magic_test _ _ _ D) as (c & Hc & Hiff). rewrite Hc.
  destruct (Z.eqb_spec c 0) as [E|E]; [tauto | reflexivity].
Qed.

Lemma extract_beyond m o end_ s file w :
  0 <= off s -> off s < end_ -> end_ <= 2 ^ 63 ->
  0 <= file_offset file < 2 ^ 32 -> 0 <= file_len file < 2 ^ 32 ->
  end_ < off s + file_offset file + file_len file ->
  extract m o end_ s file w =
  Some (Return EXIT_FAILURE
          (say BeyondROM
             (chat (verbose o) (StartData (off s + file_offset file)) w))).
Proof.
  intros H0 H1 H2 Ho Hl Hb. unfold extract.
  assert (E1 : u64 (off s + file_offset file) = off s + file_offset file)
    by (unfold u64; apply Z.mod_small; lia).
  assert (E2 : u64 (off s + file_offset file + file_len file) =
               off s + file_offset file + file_len file)
    by (unfold u64; apply Z.mod_small; lia).
  rewrite E1, E2.
  destruct (Z.gtb_spec (off s + file_offset file + file_len file) end_);
    [reflexivity | lia].
Qed.

(** The extraction of a payload that ends inside the region. *)
Lemma extract_in_view m o end_ s file w :
  view_ok end_ s -> off s < end_ -> end_ <= 2 ^ 63 ->
  0 <= file_offset file < 2 ^ 32 -> 0 <= file_len file < 2 ^ 32 ->
  off s + file_offset file + file_len file <= end_ ->
  exists r,
    extract m o end_ s file w = Some r /\
    match r with
    | Break s' =>
        off s' = off s /\ rom s' = rom s /\ reading s' = reading s + 1 /\
        written (out s') =
          written w ++ take (file_len file) (advance (file_offset file) (rom s))
        /\ printed (out s') = printed w
    | Return code w' =>
        code = EXIT_FAILURE /\
        (exists k, 0 <= k < file_len file /\
                   written w' =
                     written w ++ take k (advance (file_offset file) (rom s)))
        /\ printed w' = printed w
        /\ In WriteFailed (errors w')
        /\ sink m (pred (writes w')) <= 0
    | _ => False
    end.
Proof.
  intros (V0 & V) Hoff Hend Ho Hl Hin.
  assert (Hview : Z.of_nat (List.length (rom s)) = end_ - off s) by lia.
  unfold extract.
  assert (E1 : u64 (off s + file_offset file) = off s + file_offset file)
    by (unfold u64; apply Z.mod_small; lia).
  assert (E2 : u64 (off s + file_offset file + file_len file) =
               off s + file_offset file + file_len file)
    by (unfold u64; apply Z.mod_small; lia).
  rewrite E1, E2.
  destruct (Z.gtb_spec (off s + file_offset file + file_len file) end_);
    [lia|].
  set (w0 := chat (verbose o) (StartData (off s + file_offset file)) w).
  destruct (chat_keeps (verbose o)
              (StartData (off s + file_offset file)) w) as (Cp & Cw & Cc).
  fold w0 in Cp, Cw, Cc.
  destruct (write_loop_spec m (advance (file_offset file) (rom s))
              (file_len file) ltac:(lia)
              ltac:(rewrite advance_length; lia)
              (Z.to_nat (file_len file)) 0 w0 ltac:(lia) ltac:(lia))
    as (e & He & Hspec).
  rewrite He. rewrite advance_0, Z.sub_0_r in Hspec.
  destruct e as [w'|w'|w'].
  - destruct Hspec as (Hw & Hp & _).
    eexists. split; [reflexivity|]. cbn [off rom out reading].
    destruct (chat_keeps (verbose o) EndData w') as (Ep & Ew & _).
    repeat split; congruence.
  - destruct Hspec as ((k & Hk & Hw) & Hp & He' & _ & Hlast & _).
    eexists. split; [reflexivity|]. split; [reflexivity|]. split.
    { exists k. split; [lia|]. congruence. }
    split; [congruence|]. split; [|exact Hlast].
    rewrite He'. apply in_or_app. right. left. reflexivity.
  - contradiction.
Qed.

(** C1.  In read mode, on a record that carries the magic and passes the
    type filter, the requested name is compared with the bytes at the name
    pointer by [strncmp] with the count [file.offset - sizeof(file)] of that
    record (computed in 64 bits), whatever the length of the requested name.
    When the comparison yields another value than zero, the loop goes on to
    the next cursor.  When it yields zero, the turn extracts the payload and
    the loop stops there for any amount of fuel, with the cursor where it
    was, so that no later record is decoded: when the payload ends inside
    the region, the [len] bytes at [rom + file.offset] are written and
    [do_read] is incremented, unless a call of [write] fails, and then a
    part of these bytes was written and the turn returns [EXIT_FAILURE];
    when the payload ends past the region, the turn returns [EXIT_FAILURE]
    with nothing written. *)
Theorem read_compares_on_capacity m o align end_ s file w fn :
  off s < end_ ->
  decode m (rom s) = Some file ->
  file_magic file = CBFS_FILE_MAGIC ->
  show_names o file (advance sizeof_file (rom s)) (seen o s file) = Some w ->
  reading s <> 0 ->
  type_selected o file = true ->
  filename o = Some fn ->
  match strncmp (advance sizeof_file (rom s)) (list_byte_of_string fn)
                (u64 (file_offset file - 24)) with
  | None => loop_body m o align end_ s = Some (Fault w)
  | Some c =>
      if c =? 0 then
        exists r,
          loop_body m o align end_ s = Some r /\
          (forall fuel, while m o align end_ (S fuel) s = Some r) /\
          (forall s', r <> Next s') /\
          (view_ok end_ s -> end_ <= 2 ^ 63 ->
           if end_ <? off s + file_offset file + file_len file then
             r = Return EXIT_FAILURE
                   (say BeyondROM
                      (chat (verbose o)
                         (StartData (off s + file_offset file)) w)) /\
             written w = written (out s)
           else
             match r with
             | Break s' =>
                 off s' = off s /\ rom s' = rom s /\
                 reading s' = reading s + 1 /\
                 written (out s') =
                   written (out s) ++
                   take (file_len file) (advance (file_offset file) (rom s))
             | Return code w' =>
                 code = EXIT_FAILURE /\
                 (exists k, 0 <= k < file_len file /\
                    written w' =
                      written (out s) ++
                      take k (advance (file_offset file) (rom s))) /\
                 In WriteFailed (errors w') /\
                 sink m (pred (writes w')) <= 0
             | _ => False
             end)
      else
        loop_body m o align end_ s = Some (Next (step_over o align s file w))
  end.
Proof.
  intros Hoff D M N R T F.
  pose proof (loop_body_record m o align end_ s file D M) as L.
  rewrite N, T in L.
  destruct (Z.eqb_spec (reading s) 0) as [E|_]; [contradiction|].
  cbn [negb andb] in L. unfold name_matches in L. rewrite F in L.
  change (u64 (file_offset file - sizeof_file))
    with (u64 (file_offset file - 24)) in L.
  destruct (strncmp _ _ _) as [c|]; [|exact L].
  destruct (c =? 0); [|exact L].
  pose proof (decode_words _ _ _ D) as (Hl & _ & _ & Ho & _).
  pose proof (extract_not_Next m o end_ s file w) as NN.
  destruct (extract m o end_ s file w) as [r|] eqn:X.
  2:{ exfalso. apply (extract_total m o end_ s file w); [lia | exact X]. }
  assert (Ww : written w = written (out s)).
  { destruct (show_names_Some _ _ _ _ _ N) as (Nw & _).
    destruct (seen_keeps o s file) as (_ & Sw & _). congruence. }
  exists r. split; [exact L|]. split; [|split].
  - intros fuel. cbn [while]. destruct (Z.ltb_spec (off s) end_); [|lia].
    rewrite L. destruct r as [s'| | |]; try reflexivity.
    now destruct (NN s').
  - intros s' ->. now destruct (NN s').
  - intros V Hend.
    destruct (Z.ltb_spec end_ (off s + file_offset file + file_len file))
      as [B|B].
    + destruct V as (V0 & _).
      rewrite extract_beyond in X by lia. inversion X. now split.
    + destruct (extract_in_view m o end_ s file w V Hoff Hend Ho Hl B)
        as (r' & X' & S).
      rewrite X in X'. inversion X'; subst r'.
      destruct r as [s'|s'|code w'|w']; try exact S.
      * destruct S as (A1 & A2 & A3 & A4 & _). rewrite <- Ww. tauto.
      * destruct S as (A1 & A2 & _ & A4 & A5). rewrite <- Ww. tauto.
Qed.

(** C5.  In read mode, on a record that matches: when the payload would
    end past the end of the ROM, the turn returns [EXIT_FAILURE] with the
    message and nothing was written.  Otherwise the [len] bytes of the
    payload lie inside the view and the turn either leaves the loop with
    exactly these bytes written, every call of [write] having returned a
    positive count of any size, or returns [EXIT_FAILURE] with the message
    after a call of [write] that returned no positive count, a proper prefix
    of the payload being written before. *)
Theorem extraction_outcome m o align end_ s file w :
  view_ok end_ s -> off s < end_ -> end_ <= 2 ^ 63 ->
  decode m (rom s) = Some file ->
  file_magic file = CBFS_FILE_MAGIC ->
  show_names o file (advance sizeof_file (rom s)) (seen o s file) = Some w ->
  reading s <> 0 ->
  type_selected o file = true ->
  name_matches o (advance sizeof_file (rom s))
               (u64 (file_offset file - sizeof_file)) = Some true ->
  let payload := take (file_len file) (advance (file_offset file) (rom s)) in
  (end_ < off s + file_offset file + file_len file ->
   exists w',
     loop_body m o align end_ s = Some (Return EXIT_FAILURE w') /\
     finish o (Return EXIT_FAILURE w') = (Exited 1, w') /\
     written w' = written (out s) /\
     In BeyondROM (errors w'))
  /\
  (off s + file_offset file + file_len file <= end_ ->
   Z.of_nat (List.length payload) = file_len file /\
   exists r,
     loop_body m o align end_ s = Some r /\
     match r with
     | Break s' =>
         written (out s') = written (out s) ++ payload /\
         reading s' = reading s + 1 /\
         forall n, (writes (out s) <= n < writes (out s'))%nat ->
                   0 < sink m n
     | Return code w' =>
         finish o r = (Exited 1, w') /\
         (exists k, 0 <= k < file_len file /\
                    written w' = written (out s) ++ take k payload) /\
         sink m (pred (writes w')) <= 0 /\
         In WriteFailed (errors w')
     | _ => False
     end).
Proof.
  intros (V0 & V) Hoff Hend D M N R T NM payload.
  pose proof (decode_words _ _ _ D) as (Hl & _ & _ & Ho & _).
  pose proof (loop_body_record m o align end_ s file D M) as L.
  rewrite N, T, NM in L.
  destruct (Z.eqb_spec (reading s) 0) as [E|_]; [contradiction|].
  cbn [negb andb] in L. rewrite L. clear L.
  destruct (show_names_Some _ _ _ _ _ N) as (Nw & Nc & _).
  destruct (seen_keeps o s file) as (_ & Sw & Sc).
  split.
  - intros Hb. rewrite extract_beyond by lia.
    eexists. split; [reflexivity|]. split; [reflexivity|].
    cbn [say written errors]. split.
    + destruct (chat_keeps (verbose o)
                  (StartData (off s + file_offset file)) w) as (_ & Cw & _).
      congruence.
    + apply in_or_app. right. left. reflexivity.
  - intros Hin.
    assert (Hview : Z.of_nat (List.length (rom s)) = end_ - off s) by lia.
    split.
    { unfold payload. rewrite take_length, advance_length. lia. }
    unfold extract.
    assert (E1 : u64 (off s + file_offset file) = off s + file_offset file)
      by (unfold u64; apply Z.mod_small; lia).
    assert (E2 : u64 (off s + file_offset file + file_len file) =
                 off s + file_offset file + file_len file)
      by (unfold u64; apply Z.mod_small; lia).
    rewrite E1, E2.
    destruct (Z.gtb_spec (off s + file_offset file + file_len file) end_);
      [lia|].
    set (w0 := chat (verbose o) (StartData (off s + file_offset file)) w).
    destruct (chat_keeps (verbose o)
                (StartData (off s + file_offset file)) w) as (_ & Cw & Cc).
    fold w0 in Cw, Cc.
    destruct (write_loop_spec m (advance (file_offset file) (rom s))
                (file_len file) ltac:(lia)
                ltac:(rewrite advance_length; lia)
                (Z.to_nat (file_len file)) 0 w0 ltac:(lia) ltac:(lia))
      as (e & He & Hspec).
    rewrite He. rewrite advance_0, Z.sub_0_r in Hspec.
    destruct e as [w'|w'|w'].
    + destruct Hspec as (Hw & _ & _ & _ & Hall).
      eexists. split; [reflexivity|]. cbn [out reading].
      destruct (chat_keeps (verbose o) EndData w') as (_ & Ew & Ec).
      repeat split.
      * rewrite Ew, Hw. unfold payload. congruence.
      * intros n Hn. apply Hall. rewrite Ec in Hn. lia.
    + destruct Hspec as ((k & Hk & Hw) & _ & He' & _ & Hlast & _).
      eexists. split; [reflexivity|]. split; [reflexivity|]. repeat split.
      * exists k. split; [lia|]. unfold payload.
        rewrite take_take by lia. congruence.
      * exact Hlast.
      * rewrite He'. apply in_or_app. right. left. reflexivity.
    + contradiction.
Qed.

(** ** The loop *)

Lemma while_S m o align end_ fuel s :
  while m o align end_ (S fuel) s =
  if off s <? end_ then
    match loop_body m o align end_ s with
    | Some (Next s') => while m o align end_ fuel s'
    | r => r
    end
  else Some (Break s).
Proof. reflexivity. Qed.

Lemma while_exhausted m o align end_ fuel s :
  end_ <= off s -> while m o align end_ fuel s = Some (Break s).
Proof.
  intros H. destruct fuel; cbn [while];
    destruct (Z.ltb_spec (off s) end_); try lia; reflexivity.
Qed.

Lemma step_over_view o align end_ s file w :
  view_ok end_ s -> off s < end_ -> end_ <= 2 ^ 63 ->
  view_ok end_ (step_over o align s file w) /\
  off (step_over o align s file w) = off s + increment align file.
Proof.
  intros (V0 & V) Hoff Hend.
  pose proof (increment_range align file) as I.
  assert (E : u64 (off s + increment align file) =
              off s + increment align file)
    by (unfold u64; apply Z.mod_small; lia).
  unfold view_ok, step_over. cbn [off rom]. rewrite E, advance_length.
  repeat split; lia.
Qed.

(** Pointer and cursor agree when the loop is entered, for a header whose
    [offset] lies inside [romsize]; [step_over_view] keeps them so. *)
Lemma first_state_view m o h w :
  words h -> hdr_offset h <= hdr_romsize h ->
  view_ok top_of_space (first_state m o h w).
Proof.
  intros (_ & _ & Hr & _ & _ & Ho & _) Hle.
  unfold view_ok, first_state, map_physical, range, top_of_space.
  cbn [off rom].
  assert (E1 : u64 (4294967296 - hdr_romsize h) = 4294967296 - hdr_romsize h)
    by (unfold u64; apply Z.mod_small; lia).
  rewrite E1.
  assert (E2 : u64 (4294967296 - hdr_romsize h + hdr_offset h) =
               4294967296 - hdr_romsize h + hdr_offset h)
    by (unfold u64; apply Z.mod_small; lia).
  rewrite E2.
  assert (E3 : u64 (4294967296 -
                    (4294967296 - hdr_romsize h + hdr_offset h)) =
               hdr_romsize h - hdr_offset h)
    by (unfold u64; rewrite Z.mod_small by lia; lia).
  rewrite E3, length_map, length_seq. lia.
Qed.

Lemma advancing_advance m align p n :
  0 <= n -> advancing m align p -> advancing m align (advance n p).
Proof.
  intros Hn A i file Hi D M. apply (A (i + n) file); try lia; trivial.
  now rewrite <- advance_advance by lia.
Qed.

(** How the extraction can end. *)
Lemma extract_cases m o end_ s file w r :
  extract m o end_ s file w = Some r ->
  match r with
  | Next _ => False
  | Break s' =>
      off s' = off s /\ rom s' = rom s /\ reading s' = reading s + 1
  | Return code _ => code = EXIT_FAILURE
  | Fault _ => True
  end.
Proof.
  unfold extract.
  destruct (u64 (u64 (off s + file_offset file) + file_len file) >? end_).
  - intros H. inversion H. reflexivity.
  - destruct (write_loop _ _ _ _ _ _) as [[w'|w'|w']|]; intros H;
      inversion H; cbn; auto.
Qed.

(** How a turn of the loop can end. *)
Lemma loop_body_cases m o align end_ s r :
  loop_body m o align end_ s = Some r ->
  match r with
  | Next s' =>
      exists file w,
        decode m (rom s) = Some file /\
        file_magic file = CBFS_FILE_MAGIC /\
        show_names o file (advance sizeof_file (rom s)) (seen o s file)
          = Some w /\
        s' = step_over o align s file w
  | Break s' =>
      off s' = off s /\ rom s' = rom s /\
      exists file, decode m (rom s) = Some file /\
        ((file_magic file <> CBFS_FILE_MAGIC /\
          s' = with_out s (seen o s file))
         \/
         (file_magic file = CBFS_FILE_MAGIC /\
          reading s <> 0 /\ reading s' = reading s + 1))
  | Return code _ => code = EXIT_FAILURE
  | Fault _ => True
  end.
Proof.
  intros H. destruct r as [s'|s'|code w'|w']; [| | |exact I].
  - eapply loop_body_Next. exact H.
  - destruct (decode m (rom s)) as [file|] eqn:D.
    2:{ unfold loop_body in H. rewrite D in H. discriminate. }
    destruct (list_eq_dec Byte.byte_eq_dec (file_magic file) CBFS_FILE_MAGIC)
      as [M|M].
    + rewrite (loop_body_record _ _ _ _ _ _ D M) in H.
      destruct (show_names _ _ _ _) as [w|]; [|discriminate].
      destruct (Z.eqb_spec (reading s) 0) as [E|E]; cbn [negb andb] in H;
        [discriminate|].
      destruct (type_selected o file); [|discriminate].
      destruct (name_matches _ _ _) as [[|]|]; try discriminate.
      apply extract_cases in H. destruct H as (A & B & C).
      repeat split; trivial. exists file. split; [reflexivity|]. right. tauto.
    + rewrite (loop_body_sentinel _ _ _ _ _ _ D M) in H.
      inversion H; subst. cbn [with_out off rom]. repeat split.
      exists file. split; [reflexivity|]. left. tauto.
  - destruct (decode m (rom s)) as [file|] eqn:D.
    2:{ unfold loop_body in H. rewrite D in H. discriminate. }
    destruct (list_eq_dec Byte.byte_eq_dec (file_magic file) CBFS_FILE_MAGIC)
      as [M|M].
    + rewrite (loop_body_record _ _ _ _ _ _ D M) in H.
      destruct (show_names _ _ _ _) as [w|]; [|discriminate].
      destruct (negb (reading s =? 0) && type_selected o file);
        [|discriminate].
      destruct (name_matches _ _ _) as [[|]|]; try discriminate.
      now apply extract_cases in H.
    + rewrite (loop_body_sentinel _ _ _ _ _ _ D M) in H. discriminate.
Qed.

(** Over a view in which every record that can be decoded moves the cursor
    forward, the loop ends within as many turns as bytes are left, plus
    one. *)
Lemma while_ends m o align end_ : forall n s,
  (List.length (rom s) <= n)%nat ->
  advancing m align (rom s) ->
  exists r,
    (forall fuel, (n < fuel)%nat ->
                  while m o align end_ fuel s = Some r) /\
    match r with
    | Next _ => False
    | Break s' =>
        (reading s' = reading s /\ at_end m end_ s') \/
        (reading s' = reading s + 1 /\ reading s <> 0)
    | Return code _ => code = EXIT_FAILURE
    | Fault _ => True
    end.
Proof.
  induction n as [|n IH]; intros s Hle A;
    (destruct (Z.lt_ge_cases (off s) end_) as [Hoff|Hoff];
     [|exists (Break s); split;
       [intros fuel _; now apply while_exhausted
       |left; split; [reflexivity | now left]]]).
  - assert (D : decode m (rom s) = None) by (apply decode_None; lia).
    exists (Fault (chat (verbose o) (PotentialFile (off s)) (out s))).
    split; [|exact I].
    intros fuel Hf. destruct fuel as [|fuel]; [lia|].
    rewrite while_S. destruct (Z.ltb_spec (off s) end_); [|lia].
    unfold loop_body. rewrite D. reflexivity.
  - destruct (loop_body m o align end_ s) as [r|] eqn:L;
      [|now apply loop_body_total in L].
    pose proof (loop_body_cases _ _ _ _ _ _ L) as C.
    assert (One : forall fuel, (S n < fuel)%nat ->
              while m o align end_ fuel s =
              match r with
              | Next s' => while m o align end_ (pred fuel) s'
              | _ => Some r
              end).
    { intros fuel Hf. destruct fuel as [|fuel]; [lia|].
      rewrite while_S. destruct (Z.ltb_spec (off s) end_); [|lia].
      rewrite L. destruct r; reflexivity. }
    destruct r as [s'|s'|code w'|w'].
    + destruct C as (file & w & D & M & N & ->).
      assert (Hinc : 0 < increment align file).
      { apply (A 0 file); trivial; [lia|]. now rewrite advance_0. }
      apply decode_Some in D. destruct D as (Hlen & _ & _).
      assert (Hshort :
        (List.length (rom (step_over o align s file w)) <= n)%nat).
      { cbn [step_over rom].
        assert (Z.of_nat (List.length (advance (increment align file) (rom s)))
                < Z.of_nat (List.length (rom s)))
          by (rewrite advance_length; lia).
        lia. }
      destruct (IH (step_over o align s file w) Hshort) as (r & Hr & Hc).
      * cbn [step_over rom]. apply advancing_advance; [lia | exact A].
      * exists r. split.
        -- intros fuel Hf. rewrite One by exact Hf. apply Hr. lia.
        -- cbn [step_over reading] in Hc. exact Hc.
    + exists (Break s'). split; [exact One|].
      destruct C as (Eo & Er & file & D & [(M & ->)|(M & R & R')]).
      * left. split; [reflexivity|]. right. exists file.
        cbn [with_out rom]. tauto.
      * right. tauto.
    + exists (Return code w'). split; [exact One | exact C].
    + exists (Fault w'). split; [exact One | exact I].
Qed.

Lemma walk_accepts m o h w fuel :
  hdr_magic h = CBFS_HEADER_MAGIC ->
  walk m o h w fuel =
  match while m o (hdr_align h) top_of_space fuel (first_state m o h w) with
  | None => None
  | Some r => Some (finish o r)
  end.
Proof.
  intros H. unfold walk. rewrite H, Z.eqb_refl. reflexivity.
Qed.

Lemma main_parsed m argv fuel gs operands :
  (1 < List.length argv)%nat ->
  getopt_long (tl argv) = (gs, operands) ->
  main m argv fuel =
  match parse_options no_options start_world gs with
  | (inr code, w) => Some (Exited code, w)
  | (inl o, w) =>
      if negb (do_list o) && (do_read o =? 0) then
        Some (Exited EXIT_FAILURE, say Usage w)
      else if negb (Z.of_nat (List.length operands) =? 0) then
        Some (Exited EXIT_FAILURE,
              say (ExcessArguments (hd EmptyString argv)) w)
      else
        let (header, w) := locate_header m o w in
        walk m o header w fuel
  end.
Proof.
  intros Hl Hg. unfold main.
  destruct (Z.leb_spec (Z.of_nat (List.length argv)) 1); [lia|].
  rewrite Hg. reflexivity.
Qed.

Lemma locate_header_image m o w :
  fst (locate_header m o w) = image_header m.
Proof. reflexivity. Qed.

(** With an operation selected and no operand left, [main] locates the
    header and walks the table. *)
Lemma main_walks m argv fuel gs o w :
  (1 < List.length argv)%nat ->
  getopt_long (tl argv) = (gs, []) ->
  parse_options no_options start_world gs = (inl o, w) ->
  do_list o = true \/ do_read o <> 0 ->
  main m argv fuel =
  walk m o (image_header m) (snd (locate_header m o w)) fuel.
Proof.
  intros Hl Hg Hp Hsel.
  rewrite (main_parsed _ _ _ _ _ Hl Hg), Hp.
  assert (E : negb (do_list o) && (do_read o =? 0) = false).
  { destruct Hsel as [->|R]; [reflexivity|].
    destruct (Z.eqb_spec (do_read o) 0); [contradiction|].
    apply andb_false_r. }
  rewrite E. cbn [List.length Z.of_nat Z.eqb negb].
  pose proof (locate_header_image m o w) as H.
  destruct (locate_header m o w) as [header w']. cbn [fst snd] in *.
  now subst header.
Qed.

Lemma advancing_check_sound m align p :
  advancing_check m align p = true -> advancing m align p.
Proof.
  induction p as [|a p IH]; intros H i file Hi D M.
  - rewrite advance_skipn, skipn_nil in D. discriminate.
  - cbn [advancing_check] in H. apply andb_true_iff in H.
    destruct H as (H1 & H2).
    destruct (Z.eq_dec i 0) as [->|Ni].
    + rewrite advance_0 in D. rewrite D in H1.
      destruct (list_eq_dec _ _ _); [|contradiction].
      now apply Z.ltb_lt.
    + apply (IH H2 (i - 1) file); try lia; trivial.
      cbn [advance] in D. destruct (Z.leb_spec i 0); [lia | exact D].
Qed.

Lemma step_over_keeps o align s file w :
  printed (out (step_over o align s file w)) = printed w /\
  written (out (step_over o align s file w)) = written w /\
  writes (out (step_over o align s file w)) = writes w.
Proof. unfold step_over. cbn [out]. apply chat_keeps. Qed.

(** A loop that ends at the end of the table extracted nothing: [do_read]
    is what it was, nothing was written, and what was printed before is
    still there. *)
Lemma while_at_end m o align end_ : forall fuel s s',
  while m o align end_ fuel s = Some (Break s') ->
  at_end m end_ s' ->
  reading s' = reading s /\
  written (out s') = written (out s) /\
  exists more, printed (out s') = printed (out s) ++ more.
Proof.
  induction fuel as [|fuel IH]; intros s s' H E.
  - cbn [while] in H. destruct (off s <? end_); [discriminate|].
    inversion H; subst. repeat split. exists []. now rewrite app_nil_r.
  - rewrite while_S in H.
    destruct (Z.ltb_spec (off s) end_) as [Hoff|Hoff].
    2:{ inversion H; subst. repeat split. exists [].
        now rewrite app_nil_r. }
    destruct (loop_body m o align end_ s) as [r|] eqn:L; [|discriminate].
    pose proof (loop_body_cases _ _ _ _ _ _ L) as C.
    destruct r as [s1|s1|code w'|w']; try discriminate.
    + destruct C as (file & w & D & M & N & ->).
      destruct (IH _ _ H E) as (R & W & more & P).
      destruct (step_over_keeps o align s file w) as (Kp & Kw & _).
      destruct (show_names_Some _ _ _ _ _ N) as (Nw & _ & Np).
      destruct (seen_keeps o s file) as (Sp & Sw & _).
      cbn [step_over reading] in R.
      repeat split; try congruence.
      rewrite P, Kp, Np, Sp, <- app_assoc. eexists. reflexivity.
    + inversion H; subst s1; clear H.
      destruct C as (Eo & Er & file & D & [(M & ->)|(M & R & R')]).
      * destruct (seen_keeps o s file) as (Sp & Sw & _).
        cbn [with_out reading out]. repeat split; trivial.
        exists []. now rewrite app_nil_r.
      * exfalso. destruct E as [E|(file' & D' & M')]; [lia|].
        rewrite Er, D in D'. inversion D'; subst. contradiction.
Qed.

(** C7.  A record with another magic ends the loop at once, with nothing
    printed or written in that turn.  When the loop ends at the end of the
    table (cursor past the region, or on such a record), what was printed by
    [--list] is kept and nothing was written; if [--read] was given the
    process then says that the requested file was not found and returns 1,
    and without [--read] it returns 0. *)
Theorem table_end_exit m o h w fuel s' :
  hdr_magic h = CBFS_HEADER_MAGIC ->
  while m o (hdr_align h) top_of_space fuel (first_state m o h w)
    = Some (Break s') ->
  at_end m top_of_space s' ->
  (forall s file n,
     off s < top_of_space -> decode m (rom s) = Some file ->
     file_magic file <> CBFS_FILE_MAGIC ->
     exists s1,
       while m o (hdr_align h) top_of_space (S n) s = Some (Break s1) /\
       printed (out s1) = printed (out s) /\
       written (out s1) = written (out s) /\
       reading s1 = reading s)
  /\ (exists more, printed (out s') = printed w ++ more)
  /\ written (out s') = written w
  /\ (do_read o = 1 ->
      forall fn, filename o = Some fn ->
        walk m o h w fuel
          = Some (Exited 1, say (NotFound fn) (out s')) /\
        diag_text (NotFound fn)
          = Some ("Failed to find CBFS file named '" ++ fn ++ "'" ++ nl)%string)
  /\ (do_read o = 0 ->
      walk m o h w fuel = Some (Exited 0, out s')).
Proof.
  intros Hm Hw He.
  destruct (while_at_end _ _ _ _ _ _ _ Hw He) as (R & W & P).
  cbn [first_state reading out] in R, W, P.
  split; [|split; [exact P | split; [exact W | split]]].
  - intros s file n Hoff D M.
    exists (with_out s (seen o s file)).
    rewrite while_S. destruct (Z.ltb_spec (off s) top_of_space); [|lia].
    rewrite (loop_body_sentinel _ _ _ _ _ _ D M).
    destruct (seen_keeps o s file) as (Sp & Sw & _).
    cbn [with_out out reading]. repeat split; trivial.
  - intros Hr fn Hf. split; [|reflexivity].
    rewrite walk_accepts by exact Hm. rewrite Hw.
    unfold finish. rewrite R, Hr, Hf. reflexivity.
  - intros Hr. rewrite walk_accepts by exact Hm. rewrite Hw.
    unfold finish. rewrite R, Hr. reflexivity.
Qed.

Lemma listing_cons o file name rest :
  listing o ((file, name) :: rest) =
  (if type_selected o file then name ++ [x0a] else []) ++ listing o rest.
Proof.
  unfold listing. cbn [filter fst snd].
  destruct (type_selected o file); reflexivity.
Qed.

(** Without [--read], the loop over a table prints the selected names in
    the order of the table and leaves at its end. *)
Lemma while_table m o align end_ off0 p recs :
  table m align end_ off0 p recs ->
  do_list o = true ->
  forall s fuel,
    off s = off0 -> rom s = p -> reading s = 0 ->
    (List.length recs < fuel)%nat ->
    exists s',
      while m o align end_ fuel s = Some (Break s') /\
      reading s' = 0 /\
      printed (out s') = printed (out s) ++ listing o recs /\
      written (out s') = written (out s).
Proof.
  intros T L.
  induction T as [off0 p Hend | off0 p file Hoff D M
                 | off0 p file name rest Hoff D M N T IH];
    intros s fuel Eo Er R Hf.
  - exists s. rewrite while_exhausted by lia.
    repeat split; trivial. now rewrite app_nil_r.
  - destruct fuel as [|fuel]; [simpl in Hf; lia|].
    rewrite while_S. destruct (Z.ltb_spec (off s) end_); [|lia].
    rewrite <- Er in D. rewrite (loop_body_sentinel _ _ _ _ _ _ D M).
    exists (with_out s (seen o s file)).
    destruct (seen_keeps o s file) as (Sp & Sw & _).
    cbn [with_out out reading]. repeat split; trivial.
    now rewrite Sp, app_nil_r.
  - destruct fuel as [|fuel]; [simpl in Hf; lia|].
    rewrite while_S. destruct (Z.ltb_spec (off s) end_); [|lia].
    rewrite <- Er in D, N.
    rewrite (loop_body_record _ _ _ _ _ _ D M).
    destruct (show_names_terminated o file _ _ (seen o s file) N)
      as (w1 & Hw1).
    rewrite Hw1, R. cbn [Z.eqb negb andb].
    destruct (IH (step_over o align s file w1) fuel) as (s' & Hs' & R' & P & W).
    + cbn [step_over off]. now rewrite Eo.
    + cbn [step_over rom]. now rewrite Er.
    + exact R.
    + simpl in Hf. lia.
    + exists s'. split; [exact Hs'|]. split; [exact R'|].
      destruct (step_over_keeps o align s file w1) as (Kp & Kw & _).
      destruct (show_names_Some _ _ _ _ _ Hw1) as (Nw & _ & Np).
      destruct (seen_keeps o s file) as (Sp & Sw & _).
      split; [|congruence].
      rewrite P, Kp, Np, Sp, N, L, listing_cons, <- app_assoc.
      cbn [andb]. reflexivity.
Qed.


(** ** Reads outside the view *)

Lemma c_string_None p :
  c_string p = None <-> Forall (fun b => is_nul b = false) p.
Proof.
  induction p as [|c p IH]; cbn [c_string].
  - split; [constructor | reflexivity].
  - destruct (is_nul c) eqn:E.
    + split; [discriminate | intros H; inversion H; congruence].
    + destruct (c_string p).
      * split; [discriminate|]. intros H. inversion H; subst.
        apply IH in H3. discriminate.
      * split; [|reflexivity]. intros _. constructor; [exact E|].
        now apply IH.
Qed.

Lemma show_names_None o file name w :
  c_string name = None ->
  verbose o <> 0 \/ (do_list o = true /\ type_selected o file = true) ->
  show_names o file name w = None.
Proof.
  intros N H. unfold show_names. rewrite N.
  destruct (Z.eqb_spec (verbose o) 0) as [E|E]; [|reflexivity].
  destruct H as [H|(H1 & H2)]; [contradiction|].
  now rewrite H1, H2.
Qed.

(** An error return of a turn is an error return of the extraction of a
    decoded record that carries the magic. *)
Lemma loop_body_Return m o align end_ s code w :
  loop_body m o align end_ s = Some (Return code w) ->
  exists file w0,
    decode m (rom s) = Some file /\
    file_magic file = CBFS_FILE_MAGIC /\
    name_matches o (advance sizeof_file (rom s))
                 (u64 (file_offset file - sizeof_file)) = Some true /\
    extract m o end_ s file w0 = Some (Return code w).
Proof.
  intros H.
  destruct (decode m (rom s)) as [file|] eqn:D.
  2:{ unfold loop_body in H. rewrite D in H. discriminate. }
  destruct (list_eq_dec Byte.byte_eq_dec (file_magic file) CBFS_FILE_MAGIC)
    as [M|M].
  - rewrite (loop_body_record _ _ _ _ _ _ D M) in H.
    destruct (show_names _ _ _ _) as [w0|]; [|discriminate].
    destruct (negb (reading s =? 0) && type_selected o file); [|discriminate].
    destruct (name_matches _ _ _) as [[|]|] eqn:N; try discriminate.
    exists file, w0. tauto.
  - rewrite (loop_body_sentinel _ _ _ _ _ _ D M) in H. discriminate.
Qed.

(** ** The command line *)

Lemma parse_options_app before g after : forall o w o' w',
  parse_options o w before = (inl o', w') ->
  parse_options o w (before ++ g :: after) =
  match option_case o' g with
  | inl o'' => parse_options o'' (complain g w') after
  | inr code => (inr code, say Usage (complain g w'))
  end.
Proof.
  induction before as [|b before IH]; intros o w o' w' H.
  - cbn [parse_options] in H. inversion H; subst. reflexivity.
  - cbn [parse_options app] in H |- *.
    destruct (option_case o b) as [o1|code]; [|discriminate].
    now apply IH.
Qed.

Lemma option_case_help o g :
  g_opt g = chr "h" \/ g_opt g = chr "?" ->
  option_case o g = inr EXIT_SUCCESS.
Proof.
  intros [H|H]; unfold option_case; rewrite H; reflexivity.
Qed.

Lemma getopt_long_cons a rest :
  getopt_long (a :: rest) =
  match a with
  | String "-" (String "-" EmptyString) => ([], rest)
  | String "-" (String "-" long) =>
      let (name, value) := split_eq long in
      match long_lookup name, value with
      | None, _ =>
          let (r, ops) := getopt_long rest in (unrecognized :: r, ops)
      | Some (no_argument, _), Some _ =>
          let (r, ops) := getopt_long rest in (unrecognized :: r, ops)
      | Some (no_argument, v), None =>
          let (r, ops) := getopt_long rest in
          (GetoptRet v None false :: r, ops)
      | Some (required_argument, v), Some x =>
          let (r, ops) := getopt_long rest in
          (GetoptRet v (Some x) false :: r, ops)
      | Some (required_argument, v), None =>
          match rest with
          | x :: rest' =>
              let (r, ops) := getopt_long rest' in
              (GetoptRet v (Some x) false :: r, ops)
          | [] => ([unrecognized], [])
          end
      end
  | String "-" (String c s) =>
      match rest with
      | [] => (fst (short_cluster (String c s) None), [])
      | x :: rest' =>
          let (here, used) := short_cluster (String c s) (Some x) in
          let (r, ops) :=
            if used then getopt_long rest' else getopt_long rest in
          (here ++ r, ops)
      end
  | _ =>
      let (r, ops) := getopt_long rest in (r, a :: ops)
  end.
Proof. destruct rest; reflexivity. Qed.

(** What [getopt_long] answers first when [-h], [-?] or [--help] comes
    first. *)
Lemma getopt_long_help help rest :
  In help help_options ->
  exists after operands c,
    getopt_long (help :: rest) =
      (GetoptRet c None false :: after, operands) /\
    (c = chr "h" \/ c = chr "?").
Proof.
  intros [<-|[<-|[<-|[]]]]; rewrite getopt_long_cons.
  - destruct rest as [|x rest']; [cbn; eauto 6|].
    cbn -[getopt_long].
    destruct (getopt_long (x :: rest')) as [r ops]. eauto 6.
  - destruct rest as [|x rest']; [cbn; eauto 6|].
    cbn -[getopt_long].
    destruct (getopt_long (x :: rest')) as [r ops]. eauto 6.
  - cbn -[getopt_long].
    destruct (getopt_long rest) as [r ops]. eauto 6.
Qed.

(** C9, amended.  With no argument at all, or with options that select
    neither [--list] nor [--read], the usage text goes to the error stream
    and the process returns 1.  With an operation selected and operands left
    after the options, the message [<prog>: Excess arguments?] goes to the
    error stream, not the usage text, and the process returns 1.  When
    [getopt_long] answers ['h'] or ['?'] after options that set variables
    only, the usage text goes to the error stream and the process returns 0;
    [-h], [-?] and [--help] in the first place are such. *)
Theorem usage_exits m argv fuel :
  ((List.length argv <= 1)%nat ->
   main m argv fuel = Some (Exited 1, say Usage start_world))
  /\
  (forall gs operands o w,
     (1 < List.length argv)%nat ->
     getopt_long (tl argv) = (gs, operands) ->
     parse_options no_options start_world gs = (inl o, w) ->
     (do_list o = false -> do_read o = 0 ->
      main m argv fuel = Some (Exited 1, say Usage w)) /\
     (do_list o = true \/ do_read o <> 0 -> operands <> [] ->
      main m argv fuel =
        Some (Exited 1, say (ExcessArguments (hd EmptyString argv)) w) /\
      diag_text (ExcessArguments (hd EmptyString argv)) =
        Some (hd EmptyString argv ++ ": Excess arguments?" ++ nl)%string))
  /\
  (forall before g after operands o w,
     (1 < List.length argv)%nat ->
     getopt_long (tl argv) = (before ++ g :: after, operands) ->
     parse_options no_options start_world before = (inl o, w) ->
     g_opt g = chr "h" \/ g_opt g = chr "?" ->
     main m argv fuel = Some (Exited 0, say Usage (complain g w)))
  /\
  (forall prog_name help rest,
     In help help_options ->
     main m (prog_name :: help :: rest) fuel =
       Some (Exited 0, say Usage start_world)).
Proof.
  split; [|split; [|split]].
  - intros H. unfold main.
    destruct (Z.leb_spec (Z.of_nat (List.length argv)) 1); [reflexivity | lia].
  - intros gs operands o w Hl Hg Hp.
    rewrite (main_parsed _ _ _ _ _ Hl Hg), Hp. split.
    + intros L R. rewrite L, R. reflexivity.
    + intros Hsel Hops. split; [|reflexivity].
      assert (E : negb (do_list o) && (do_read o =? 0) = false).
      { destruct Hsel as [->|R]; [reflexivity|].
        destruct (Z.eqb_spec (do_read o) 0); [contradiction|].
        apply andb_false_r. }
      rewrite E.
      destruct operands as [|x operands]; [contradiction|]. reflexivity.
  - intros before g after operands o w Hl Hg Hp Hh.
    rewrite (main_parsed _ _ _ _ _ Hl Hg).
    rewrite (parse_options_app _ _ _ _ _ _ _ Hp).
    rewrite (option_case_help _ _ Hh). reflexivity.
  - intros prog_name help rest Hin.
    destruct (getopt_long_help help rest Hin) as (after & operands & c & Hg & Hc).
    rewrite (main_parsed m (prog_name :: help :: rest) fuel _ _
               ltac:(simpl; lia) Hg).
    cbn [parse_options complain g_complained].
    rewrite (option_case_help no_options (GetoptRet c None false) Hc).
    reflexivity.
Qed.

(** ** The version of the header *)

(** C10.  The walk gives the same result whatever the version word of the
    decoded header is: the header is accepted, and the table walked from the
    cursor that [romsize] and [offset] give, exactly when its magic is
    [CBFS_HEADER_MAGIC], and it is rejected with exit code 1 otherwise. *)
Theorem version_is_not_checked m o h w fuel v :
  walk m o (with_version v h) w fuel = walk m o h w fuel /\
  (hdr_magic h = CBFS_HEADER_MAGIC ->
   walk m o (with_version v h) w fuel =
   match while m o (hdr_align h) top_of_space fuel (first_state m o h w) with
   | None => None
   | Some r => Some (finish o r)
   end) /\
  (hdr_magic h <> CBFS_HEADER_MAGIC ->
   walk m o (with_version v h) w fuel =
   Some (Exited 1, say NoValidHeader w)).
Proof.
  assert (E : walk m o (with_version v h) w fuel = walk m o h w fuel)
    by reflexivity.
  split; [exact E|]. rewrite E. split.
  - intros H. now apply walk_accepts.
  - intros H. unfold walk.
    destruct (Z.eqb_spec (hdr_magic h) CBFS_HEADER_MAGIC); [contradiction|].
    reflexivity.
Qed.

(** * The properties on the images *)

(** ** Header *)

Tactic Notation "by_cases_upto" integer(n) :=
  let i := fresh "i" in
  let H := fresh "H" in
  intros i H;
  match type of H with
  | (_ < ?l)%nat => let v := eval vm_compute in l in change l with v in H
  end;
  do n (destruct i as [|i]; [vm_compute; reflexivity|]);
  exfalso; lia.

Ltac by_computing :=
  vm_compute; repeat split; try reflexivity;
  try (let H := fresh in intros H; discriminate H).

Lemma header_locator_recovers_witness :
  fst (locate_header demo list_only start_world) = demo_header 0 /\
  fst (locate_header demo_be list_only start_world) = demo_header 0.
Proof.
  split.
  - destruct (header_locator_recovers demo list_only start_world
                (-0x40) (demo_header 0))
      as (_ & _ & _ & _ & _ & _ & _ & H & _).
    + lia.
    + by_computing.
    + unfold holds. by_cases_upto 4.
    + unfold holds. by_cases_upto 32.
    + apply H. reflexivity.
  - destruct (header_locator_recovers demo_be list_only start_world
                (-0x40) (demo_header 0))
      as (_ & _ & _ & _ & _ & _ & _ & H & _).
    + lia.
    + by_computing.
    + unfold holds. by_cases_upto 4.
    + unfold holds. by_cases_upto 32.
    + apply H. reflexivity.
Defined.

(** The footer pointer is not byte-swapped: on the little-endian host the
    bytes [C0 FF FF FF] at the top are [-0x40], and the header is found at
    [0xFFFFFFC0]. *)
Example footer_is_native :
  copy_physical demo (top_of_space - 4) 4 = [xc0; xff; xff; xff] /\
  errors (snd (locate_header demo
                 {| verbose := 1; do_read := 0; do_list := true;
                    do_type := false; cbfs_file_type := 0;
                    filename := None |} start_world)) =
  [SeekingTo 0xFFFFFFFC; HeaderOffset (-0x40); SeekingTo 0xFFFFFFC0;
   HeaderFields (demo_header 0)].
Proof. split; vm_compute; reflexivity. Qed.

(** ** Read mode *)

Lemma read_compares_on_capacity_witness :
  exists r,
    loop_body tight (read_only "bootblock") 64 top_of_space
      (demo_state tight (read_only "bootblock")) = Some r /\
    (forall fuel,
       while tight (read_only "bootblock") 64 top_of_space (S fuel)
         (demo_state tight (read_only "bootblock")) = Some r) /\
    match r with
    | Break s' =>
        written (out s') = list_byte_of_string "DATA" /\ reading s' = 2
    | _ => False
    end.
Proof.
  destruct (read_compares_on_capacity tight (read_only "bootblock") 64
              top_of_space (demo_state tight (read_only "bootblock"))
              (record_of 4 0x10 4) start_world "bootblock")
    as (r & L & W & _ & V); [by_computing ..|].
  exists r. split; [exact L|]. split; [exact W|].
  specialize (V ltac:(by_computing) ltac:(by_computing)).
  destruct r as [s'|s'|code w'|w']; try exact V.
  - destruct V as (_ & _ & Hr & Hw). split; [exact Hw | exact Hr].
  - destruct V as (_ & _ & _ & Hsink). vm_compute in Hsink.
    apply Hsink. reflexivity.
Defined.

(** The count of the comparison is the name capacity of the record, not the
    length of the requested name: the file whose name field holds the four
    bytes [boot] is extracted for [bootblock], and is not found under
    [boo]. *)
Example capacity_bounds_the_comparison :
  (exists w, main tight (cbfs_argv ["-r"; "bootblock"]%string) 1
               = Some (Exited 0, w) /\
             written w = list_byte_of_string "DATA") /\
  main tight (cbfs_argv ["-r"; "boo"]%string) 3
    = Some (Exited 1, say (NotFound "boo") start_world).
Proof.
  split; [eexists; split|]; vm_compute; reflexivity.
Qed.

Lemma extraction_outcome_witness :
  exists r,
    loop_body demo (read_only "bootblock") 64 top_of_space
      (demo_state demo (read_only "bootblock")) = Some r /\
    match r with
    | Break s' =>
        written (out s') = list_byte_of_string "BOOT" /\ reading s' = 2
    | _ => False
    end.
Proof.
  destruct (extraction_outcome demo (read_only "bootblock") 64 top_of_space
              (demo_state demo (read_only "bootblock")) bootblock_file
              start_world) as (_ & H); [by_computing ..|].
  destruct H as (_ & r & Hr & Hspec); [by_computing|].
  exists r. split; [exact Hr|].
  destruct r as [s'|s'|code w'|w']; try exact Hspec.
  - destruct Hspec as (Hw & Hrd & _). split; [exact Hw | exact Hrd].
  - destruct Hspec as (_ & _ & Hsink & _). vm_compute in Hsink.
    apply Hsink. reflexivity.
Defined.

(** The three ends of an extraction, on whole runs: the payload in two
    partial writes; a payload that would end past the ROM; a descriptor that
    takes nothing. *)
Example extraction_runs :
  main demo (cbfs_argv ["-r"; "bootblock"]%string) 1 =
    Some (Exited 0,
          {| printed := []; written := list_byte_of_string "BOOT";
             errors := []; writes := 2 |}) /\
  main wrapped (cbfs_argv ["-r"; "bootblock"]%string) 1 =
    Some (Exited 1, say BeyondROM start_world) /\
  main demo_be (cbfs_argv ["-r"; "bootblock"]%string) 1 =
    Some (Exited 1,
          {| printed := []; written := [];
             errors := [WriteFailed]; writes := 1 |}).
Proof. repeat split; vm_compute; reflexivity. Qed.

(** ** The walk *)



(** Both records of [wrapped] are visited: both names are listed. *)
Example wrapped_lists_both :
  main wrapped (cbfs_argv ["-l"]%string) 3 =
  Some (Exited 0,
        puts (list_byte_of_string "config")
          (puts (list_byte_of_string "bootblock") start_world)).
Proof. vm_compute. reflexivity. Qed.

(** In [stuck] the sum [offset + len] of the first record is [2^32]: the
    increment is zero and a turn of the loop comes back to the same
    cursor. *)
Lemma stuck_turn w :
  loop_body stuck list_only 64 top_of_space (later stuck list_only 0 w) =
  Some (Next (later stuck list_only 0
                (puts (list_byte_of_string "stuck") w))).
Proof. vm_compute. reflexivity. Qed.

Lemma stuck_loop : forall fuel w,
  while stuck list_only 64 top_of_space fuel (later stuck list_only 0 w)
    = None.
Proof.
  induction fuel as [|fuel IH]; intros w.
  - vm_compute. reflexivity.
  - rewrite while_S.
    replace (off (later stuck list_only 0 w) <? top_of_space) with true
      by (vm_compute; reflexivity).
    rewrite stuck_turn. apply IH.
Qed.

(** C3.  The walk does not end on every image.  In [stuck] the first
    record carries the magic and the sum [offset + len] of its fields is
    [2^32]: the increment of line 245, computed in [uint32_t], is zero, the
    cursor stays below the end on the same record, which has the magic, and
    each turn prints its name once more.  In list mode [main] has no result
    for any amount of fuel. *)
Theorem walk_loops_on_stuck :
  off (later stuck list_only 0 start_world) < top_of_space /\
  decode stuck (rom (later stuck list_only 0 start_world))
    = Some (record_of 8 0x10 0xFFFFFFE0) /\
  file_magic (record_of 8 0x10 0xFFFFFFE0) = CBFS_FILE_MAGIC /\
  increment 64 (record_of 8 0x10 0xFFFFFFE0) = 0 /\
  forall fuel, main stuck (cbfs_argv ["-l"]%string) fuel = None.
Proof.
  split; [vm_compute; reflexivity|].
  split; [vm_compute; reflexivity|].
  split; [reflexivity|].
  split; [vm_compute; reflexivity|].
  intros fuel.
  assert (E : main stuck (cbfs_argv ["-l"]%string) fuel =
              match while stuck list_only 64 top_of_space fuel
                      (later stuck list_only 0 start_world) with
              | None => None
              | Some r => Some (finish list_only r)
              end) by reflexivity.
  rewrite E, stuck_loop. reflexivity.
Qed.

(** ** Reads outside the view *)

(** C4.  The record header is read past the view.  In [short] the header
    puts the first cursor eight bytes below the end of the address space:
    the test of line 170 lets the turn in, the view has eight bytes, and
    line 175 copies 24 bytes from it, sixteen of them from outside the view.
    No error is returned for it: the run has no exit code. *)
Theorem decode_reads_past_view :
  off (first_state short list_only (demo_header 0xF8) start_world)
    < top_of_space /\
  List.length (rom (first_state short list_only (demo_header 0xF8)
                      start_world)) = 8%nat /\
  read_at (rom (first_state short list_only (demo_header 0xF8) start_world))
          0 sizeof_file = None /\
  main short (cbfs_argv ["-l"]%string) 1 = Some (Undefined, start_world).
Proof. repeat split; vm_compute; reflexivity. Qed.

(** A name without its NUL: the record and its name [ABCD] fill the view up
    to the footer pointer, no byte after the name is zero, and listing the
    name reads past the view. *)
Example name_reads_past_view :
  main (machine_of LittleEndian
          (repeat x00 192 ++
           header_bytes (demo_header 0xE0) ++
           (file_bytes (record_of 8 0x10 0) ++ list_byte_of_string "ABCD")
           ++ footer_bytes LittleEndian (-0x40)) 2)
       (cbfs_argv ["-l"]%string) 1
  = Some (Undefined, start_world).
Proof. vm_compute. reflexivity. Qed.

(** ** The end of the table *)

Lemma table_end_exit_witness :
  walk demo (read_only "nope") (demo_header 0) start_world 3 =
    Some (Exited 1, say (NotFound "nope") start_world) /\
  walk demo list_only (demo_header 0) start_world 3 =
    Some (Exited 0,
          puts (list_byte_of_string "config")
            (puts (list_byte_of_string "bootblock") start_world)).
Proof.
  split.
  - destruct (table_end_exit demo (read_only "nope") (demo_header 0)
                start_world 3
                (later demo (read_only "nope") 128 start_world))
      as (_ & _ & _ & H & _).
    + reflexivity.
    + vm_compute. reflexivity.
    + right. eexists. split; [vm_compute; reflexivity|].
      vm_compute. intros E. discriminate E.
    + apply (H eq_refl "nope"%string eq_refl).
  - destruct (table_end_exit demo list_only (demo_header 0)
                start_world 3
                (later demo list_only 128
                   (puts (list_byte_of_string "config")
                      (puts (list_byte_of_string "bootblock") start_world))))
      as (_ & _ & _ & _ & H).
    + reflexivity.
    + vm_compute. reflexivity.
    + right. eexists. split; [vm_compute; reflexivity|].
      vm_compute. intros E. discriminate E.
    + apply (H eq_refl).
Defined.

(** ** Listing *)

Lemma demo_table m o :
  m = demo \/ m = demo_be ->
  table m 64 top_of_space (off (demo_state m o)) (rom (demo_state m o))
    [(bootblock_file, list_byte_of_string "bootblock");
     (config_file, list_byte_of_string "config")].
Proof.
  intros [-> | ->].
  - eapply table_record; [by_computing ..|].
    eapply table_record; [by_computing ..|].
    eapply table_sentinel; by_computing.
  - eapply table_record; [by_computing ..|].
    eapply table_record; [by_computing ..|].
    eapply table_sentinel; by_computing.
Qed.

(** The example of the spec, on whole runs: listing; reading with the type
    of the file; reading with another type. *)
Example runs_of_the_spec :
  main demo (cbfs_argv ["-l"]%string) 3 =
    Some (Exited 0,
          puts (list_byte_of_string "config")
            (puts (list_byte_of_string "bootblock") start_world)) /\
  main demo (cbfs_argv ["--type"; "10"; "--read"; "bootblock"]%string) 3 =
    Some (Exited 0,
          {| printed := []; written := list_byte_of_string "BOOT";
             errors := []; writes := 2 |}) /\
  main demo (cbfs_argv ["--type"; "20"; "--read"; "bootblock"]%string) 3 =
    Some (Exited 1, say (NotFound "bootblock") start_world).
Proof. repeat split; vm_compute; reflexivity. Qed.

(** ** The command line *)

Lemma usage_exits_witness :
  main demo (cbfs_argv ["-v"]%string) 0 =
    Some (Exited 1, say Usage start_world) /\
  main demo (cbfs_argv ["-l"; "extra"]%string) 0 =
    Some (Exited 1, say (ExcessArguments "cbfs") start_world) /\
  main demo (cbfs_argv ["-v"; "-l"; "--help"; "-r"]%string) 0 =
    Some (Exited 0, say Usage start_world) /\
  main demo ["cbfs"%string] 0 = Some (Exited 1, say Usage start_world).
Proof.
  destruct (usage_exits demo (cbfs_argv ["-v"]%string) 0)
    as (_ & H1 & _).
  destruct (usage_exits demo (cbfs_argv ["-l"; "extra"]%string) 0)
    as (_ & H2 & _).
  destruct (usage_exits demo (cbfs_argv ["-v"; "-l"; "--help"; "-r"]%string) 0)
    as (_ & _ & H3 & _).
  destruct (usage_exits demo ["cbfs"%string] 0) as (H4 & _).
  split; [|split; [|split]].
  - eapply H1; [simpl; lia | reflexivity | reflexivity | reflexivity
                | reflexivity].
  - eapply H2; [simpl; lia | reflexivity | reflexivity | left; reflexivity
                | discriminate].
  - apply (H3 [GetoptRet (chr "v") None false; GetoptRet (chr "l") None false]
              (GetoptRet (chr "h") None false) [unrecognized] []
              {| verbose := 1; do_read := 0; do_list := true;
                 do_type := false; cbfs_file_type := 0; filename := None |}
              start_world);
      [simpl; lia | reflexivity | reflexivity | left; reflexivity].
  - apply H4. simpl. lia.
Defined.

(** C9, as it is written, fails on operands left after the options: what
    goes to the error stream is the message about excess arguments, and the
    usage text does not. *)
Lemma usage_exits_counterexample :
  exists w,
    main demo (cbfs_argv ["-l"; "extra"]%string) 0 = Some (Exited 1, w) /\
    errors w = [ExcessArguments "cbfs"] /\
    ~ In Usage (errors w) /\
    diag_text (ExcessArguments "cbfs") <> Some usage.
Proof.
  eexists. split; [vm_compute; reflexivity|].
  split; [reflexivity|]. split.
  - intros [H|[]]. discriminate H.
  - vm_compute. intros H. discriminate H.
Qed.

(** An option that [getopt_long] does not know is answered with ['?'], the
    value it also returns for [-?]: the usage text is printed after the
    complaint of the library and the process returns 0. *)
Remark unknown_option_run :
  main demo (cbfs_argv ["-x"]%string) 0 =
  Some (Exited 0, say Usage (say GetoptComplaint start_world)).
Proof. vm_compute. reflexivity. Qed.

(** ** The version of the header *)

Lemma version_is_not_checked_witness :
  walk demo list_only (with_version 0xDEADBEEF (demo_header 0)) start_world 3
  = walk demo list_only (demo_header 0) start_world 3 /\
  walk demo list_only (with_version CBFS_HEADER_VERSION1 (demo_header 0))
       start_world 3 =
  Some (Exited 0,
        puts (list_byte_of_string "config")
          (puts (list_byte_of_string "bootblock") start_world)).
Proof.
  destruct (version_is_not_checked demo list_only (demo_header 0) start_world
              3 0xDEADBEEF) as (H1 & _).
  destruct (version_is_not_checked demo list_only (demo_header 0) start_world
              3 CBFS_HEADER_VERSION1) as (_ & H2 & _).
  split; [exact H1|]. rewrite H2 by reflexivity. vm_compute. reflexivity.
Defined.

(** The image whose header says version 1, and one whose version word is
    arbitrary, are listed like the version 2 image. *)
Example any_version_runs :
  main (machine_of LittleEndian
          (rom_image LittleEndian
             (with_version CBFS_HEADER_VERSION1 (demo_header 0))
             bootblock config) 2)
       (cbfs_argv ["-l"]%string) 3
  = main demo (cbfs_argv ["-l"]%string) 3 /\
  main (machine_of LittleEndian
          (rom_image LittleEndian (with_version 0 (demo_header 0))
             bootblock config) 2)
       (cbfs_argv ["-l"]%string) 3
  = main demo (cbfs_argv ["-l"]%string) 3.
Proof. split; vm_compute; reflexivity. Qed.

(** * Further properties of [cbfs.c] *)

(** ** Records on any host *)

Lemma field_app_skip_n a rest i j :
  i = j + Z.of_nat (List.length a) -> 0 <= j ->
  field (a ++ rest) i = field rest j.
Proof.
  intros -> Hj. unfold field. f_equal. rewrite !advance_skipn.
  replace (Z.to_nat (j + Z.of_nat (List.length a)))
    with (Z.to_nat j + List.length a)%nat by lia.
  rewrite <- skipn_skipn, skipn_app, skipn_all, Nat.sub_diag.
  reflexivity.
Qed.

(** A decoded record has the big-endian numbers of its bytes whatever the
    host. *)
Lemma decode_be m p :
  decode m p =
  match read_at p 0 sizeof_file with
  | None => None
  | Some bs =>
      Some {| file_magic := take 8 bs;
              file_len := be_int (field bs 8);
              file_type := be_int (field bs 12);
              file_attributes_offset := be_int (field bs 16);
              file_offset := be_int (field bs 20) |}
  end.
Proof.
  unfold decode. destruct (read_at p 0 sizeof_file) as [bs|] eqn:E;
    [|reflexivity].
  apply read_at_Some in E. destruct E as (_ & _ & _ & _ & L).
  unfold file_ntohl, file_of_bytes.
  cbn [file_magic file_len file_type file_attributes_offset file_offset].
  assert (F : forall i, 0 <= i -> i + 4 <= 24 ->
            ntohl (host m) (native_int (host m) (field bs i)) =
            be_int (field bs i)).
  { intros i Hi Hi'.
    destruct (list_of_length_4 (field bs i)) as (a & b & c & d & ->).
    - apply field_length; unfold sizeof_file in L; lia.
    - apply ntohl_native. }
  rewrite !F by lia. reflexivity.
Qed.

Lemma file_bytes_length f :
  List.length (file_magic f) = 8%nat -> List.length (file_bytes f) = 24%nat.
Proof.
  intros Hm. unfold file_bytes.
  rewrite !length_app, !be_bytes_length, Hm. reflexivity.
Qed.

(** The 24 bytes of a laid out record, read back as the fields. *)
Lemma file_bytes_fields f :
  file_words f ->
  take 8 (file_bytes f) = file_magic f /\
  be_int (field (file_bytes f) 8) = file_len f /\
  be_int (field (file_bytes f) 12) = file_type f /\
  be_int (field (file_bytes f) 16) = file_attributes_offset f /\
  be_int (field (file_bytes f) 20) = file_offset f.
Proof.
  intros (Hm & Hl & Ht & Ha & Ho). unfold file_bytes.
  split.
  { rewrite take_firstn.
    replace (Z.to_nat 8) with (List.length (file_magic f) + 0)%nat
      by (rewrite Hm; reflexivity).
    rewrite firstn_app_2. cbn. apply app_nil_r. }
  rewrite (field_app_skip_n (file_magic f) _ 8 0) by (rewrite ?Hm; lia).
  rewrite (field_app_skip_n (file_magic f) _ 12 4) by (rewrite ?Hm; lia).
  rewrite (field_app_skip_n (file_magic f) _ 16 8) by (rewrite ?Hm; lia).
  rewrite (field_app_skip_n (file_magic f) _ 20 12) by (rewrite ?Hm; lia).
  rewrite field_app_here by apply be_bytes_length.
  rewrite (field_app_skip _ _ 4 0) by (try apply be_bytes_length; lia).
  rewrite field_app_here by apply be_bytes_length.
  rewrite (field_app_skip _ _ 8 4) by (try apply be_bytes_length; lia).
  rewrite (field_app_skip _ _ 4 0) by (try apply be_bytes_length; lia).
  rewrite field_app_here by apply be_bytes_length.
  rewrite (field_app_skip _ _ 12 8) by (try apply be_bytes_length; lia).
  rewrite (field_app_skip _ _ 8 4) by (try apply be_bytes_length; lia).
  rewrite (field_app_skip _ _ 4 0) by (try apply be_bytes_length; lia).
  rewrite field_here by apply be_bytes_length.
  rewrite !be_int_be_bytes.
  change (2 ^ (8 * Z.of_nat 4)) with (2 ^ 32).
  rewrite !Z.mod_small by assumption.
  repeat split.
Qed.

Lemma file_bytes_read f rest :
  List.length (file_magic f) = 8%nat ->
  read_at (file_bytes f ++ rest) 0 sizeof_file = Some (file_bytes f).
Proof.
  intros Hm. pose proof (file_bytes_length f Hm) as L.
  rewrite read_at_in_bounds
    by (rewrite ?length_app; unfold sizeof_file; lia).
  rewrite advance_0. f_equal.
  rewrite take_firstn. unfold sizeof_file.
  replace (Z.to_nat 24) with (List.length (file_bytes f) + 0)%nat
    by (rewrite L; reflexivity).
  rewrite firstn_app_2. cbn. apply app_nil_r.
Qed.

(** X1.  Decoding inverts the layout of a record: whatever the host and
    whatever follows, the 24 bytes of a record with an eight-byte magic and
    32-bit numbers decode to that record. *)
Theorem decode_file_bytes m f rest :
  file_words f -> decode m (file_bytes f ++ rest) = Some f.
Proof.
  intros W. pose proof W as (Hm & _).
  destruct (file_bytes_fields f W) as (M & L & T & A & O).
  rewrite decode_be, file_bytes_read by exact Hm.
  rewrite M, L, T, A, O.
  destruct f; reflexivity.
Qed.

Lemma decode_same m1 m2 p : decode m1 p = decode m2 p.
Proof. now rewrite !decode_be. Qed.

Lemma write_loop_same m1 m2 data len :
  (forall n, sink m1 n = sink m2 n) ->
  forall fuel offset w,
    write_loop m1 fuel data len offset w =
    write_loop m2 fuel data len offset w.
Proof.
  intros S. induction fuel as [|fuel IH]; intros offset w; cbn [write_loop].
  - reflexivity.
  - unfold write_rc. rewrite S.
    destruct (offset <? len); [|reflexivity].
    destruct (_ <=? 0); [reflexivity|].
    destruct (read_at _ _ _); [apply IH | reflexivity].
Qed.

Lemma loop_body_same m1 m2 o align end_ s :
  (forall n, sink m1 n = sink m2 n) ->
  loop_body m1 o align end_ s = loop_body m2 o align end_ s.
Proof.
  intros S. unfold loop_body. rewrite (decode_same m1 m2).
  destruct (decode m2 (rom s)) as [file|]; [|reflexivity].
  destruct (strncmp _ _ _) as [c|]; [|reflexivity].
  destruct (negb (c =? 0)); [reflexivity|].
  destruct (show_names _ _ _ _) as [w|]; [|reflexivity].
  destruct (negb (reading s =? 0) && type_selected o file); [|reflexivity].
  destruct (name_matches _ _ _) as [[|]|]; try reflexivity.
  unfold extract. destruct (_ >? end_); [reflexivity|].
  now rewrite (write_loop_same m1 m2 _ _ S).
Qed.

Lemma while_same m1 m2 o align end_ :
  (forall n, sink m1 n = sink m2 n) ->
  forall fuel s,
    while m1 o align end_ fuel s = while m2 o align end_ fuel s.
Proof.
  intros S. induction fuel as [|fuel IH]; intros s; cbn [while].
  - reflexivity.
  - rewrite (loop_body_same m1 m2 _ _ _ _ S).
    destruct (off s <? end_); [|reflexivity].
    destruct (loop_body m2 o align end_ s) as [[s'|s'|c w|w]|];
      try reflexivity.
    apply IH.
Qed.

(** X2.  The walk does not depend on the byte order of the host: on two
    machines with the same memory and the same descriptor, it gives the same
    exit status and the same output for every decoded header, options and
    amount of fuel. *)
Theorem walk_host_independent m1 m2 o h w fuel :
  same_memory m1 m2 ->
  walk m1 o h w fuel = walk m2 o h w fuel.
Proof.
  intros (P & S). unfold walk.
  destruct (negb (hdr_magic h =? CBFS_HEADER_MAGIC)); [reflexivity|].
  cbv zeta.
  assert (E : forall a n, map_physical m1 a n = map_physical m2 a n).
  { intros a n. unfold map_physical, range. apply map_ext.
    intros i. apply P. }
  rewrite E, (while_same m1 m2 _ _ _ S). reflexivity.
Qed.

(** ** The way through the table *)

Lemma leads_invariant m align end_ off0 p recs off' p' :
  leads m align end_ off0 p recs off' p' ->
  0 <= off0 -> end_ <= 2 ^ 63 ->
  off0 <= off' /\
  p' = advance (off' - off0) p /\
  (forall k, align = 2 ^ k -> 0 <= k < 32 -> (align | off' - off0)).
Proof.
  induction 1 as [off0 p | off0 p file name rest off' p' Hoff D M N L IH];
    intros H0 Hend.
  - rewrite Z.sub_diag, advance_0. repeat split; try lia.
    intros k _ _. apply Z.divide_0_r.
  - pose proof (increment_range align file) as I.
    assert (E : u64 (off0 + increment align file) =
                off0 + increment align file)
      by (unfold u64; apply Z.mod_small; lia).
    rewrite E in IH. destruct IH as (Hle & Hp & Hdiv); try lia.
    split; [lia|]. split.
    + rewrite Hp, advance_advance by lia. f_equal. lia.
    + intros k -> Hk.
      replace (off' - off0)
        with (increment (2 ^ k) file +
              (off' - (off0 + increment (2 ^ k) file))) by lia.
      apply Z.divide_add_r;
        [now apply increment_multiple | now apply (Hdiv k)].
Qed.


(** ** Comparing terminated names *)

Lemma is_nul_true c : is_nul c = true -> c = x00.
Proof. unfold is_nul. intros H. now apply Byte.byte_dec_bl in H. Qed.

(** The comparison reads the name up to its NUL at most. *)
Lemma strncmp_c_string : forall p nm s2 n,
  c_string p = Some nm ->
  strncmp p s2 n = strncmp (nm ++ [x00]) s2 n.
Proof.
  induction p as [|c p IH]; intros nm s2 n H; cbn [c_string] in H.
  - discriminate.
  - destruct (is_nul c) eqn:Z.
    + inversion H; subst. apply is_nul_true in Z as ->.
      cbn [app]. rewrite !(strncmp_unfold (x00 :: _)).
      destruct (n <=? 0); [reflexivity|].
      destruct s2 as [|c2 s2]; [reflexivity|].
      destruct (byte_val x00 =? byte_val c2); reflexivity.
    + destruct (c_string p) as [r|] eqn:R; [|discriminate].
      inversion H; subst. cbn [app].
      rewrite !(strncmp_unfold (c :: _)).
      destruct (n <=? 0); [reflexivity|].
      destruct s2 as [|c2 s2]; [reflexivity|].
      destruct (byte_val c =? byte_val c2); [|reflexivity].
      rewrite Z. now apply IH.
Qed.

Lemma strncmp_terminated : forall nm s2 n,
  exists c, strncmp (nm ++ [x00]) s2 n = Some c.
Proof.
  induction nm as [|a nm IH]; intros s2 n; cbn [app];
    rewrite strncmp_unfold.
  - destruct (n <=? 0); [eauto|].
    destruct s2 as [|c2 s2]; [eauto|].
    change (is_nul x00) with true.
    destruct (byte_val x00 =? byte_val c2); eauto.
  - destruct (n <=? 0); [eauto|].
    destruct s2 as [|c2 s2]; [eauto|].
    destruct (byte_val a =? byte_val c2); [|eauto].
    destruct (is_nul a); eauto.
Qed.

(** What line 206-208 decides on a record with a terminated name. *)
Lemma name_matches_terminated o fn file p nm :
  filename o = Some fn ->
  c_string p = Some nm ->
  type_selected o file = true ->
  name_matches o p (u64 (file_offset file - sizeof_file)) =
  Some (matches o fn (file, nm)).
Proof.
  intros F N T. unfold name_matches, matches. cbn [fst snd].
  rewrite F, T, (strncmp_c_string _ _ _ _ N). cbn [andb].
  destruct (strncmp_terminated nm (list_byte_of_string fn)
              (u64 (file_offset file - sizeof_file))) as (c & ->).
  reflexivity.
Qed.

Lemma listed_app o pre post :
  listed o (pre ++ post) = listed o pre ++ listed o post.
Proof.
  unfold listed, listing. destruct (do_list o); [|reflexivity].
  now rewrite filter_app, map_app, concat_app.
Qed.

Lemma listed_one o file name :
  listed o [(file, name)] =
  if do_list o && type_selected o file then name ++ [x0a] else [].
Proof.
  unfold listed, listing. cbn [filter fst snd].
  destruct (do_list o), (type_selected o file); cbn; try reflexivity.
  now rewrite app_nil_r.
Qed.

(** The loop steps over the records that [--read] does not take, printing
    those that [--list] selects. *)
Lemma while_leads m o fn align end_ off0 p pre off' p' :
  leads m align end_ off0 p pre off' p' ->
  filename o = Some fn ->
  forallb (fun r => negb (matches o fn r)) pre = true ->
  forall s, off s = off0 -> rom s = p ->
  exists w',
    (forall fuel,
       while m o align end_ (List.length pre + fuel) s =
       while m o align end_ fuel
         {| off := off'; rom := p'; reading := reading s; out := w' |}) /\
    printed w' = printed (out s) ++ listed o pre /\
    written w' = written (out s) /\
    writes w' = writes (out s).
Proof.
  intros L F.
  induction L as [off0 p | off0 p file name rest off' p' Hoff D M N L IH];
    intros NM s Eo Er.
  - exists (out s). split.
    + intros fuel. cbn [List.length Nat.add]. f_equal.
      destruct s; cbn in *; now subst.
    + unfold listed, listing. cbn.
      destruct (do_list o); rewrite app_nil_r; auto.
  - cbn [forallb] in NM. apply andb_true_iff in NM.
    destruct NM as (NM1 & NM2). apply negb_true_iff in NM1.
    rewrite <- Er in D, N.
    destruct (show_names_terminated o file _ _ (seen o s file) N)
      as (w1 & Hw1).
    assert (Step : loop_body m o align end_ s =
                   Some (Next (step_over o align s file w1))).
    { rewrite (loop_body_record _ _ _ _ _ _ D M), Hw1.
      destruct (negb (reading s =? 0)); [|reflexivity].
      destruct (type_selected o file) eqn:T; [|reflexivity].
      cbn [andb].
      rewrite (name_matches_terminated o fn file _ name F N T), NM1.
      reflexivity. }
    destruct (IH NM2 (step_over o align s file w1)) as (w' & Hw & P & W & C).
    + cbn [step_over off]. now rewrite Eo.
    + cbn [step_over rom]. now rewrite Er.
    + exists w'. split.
      * intros fuel. cbn [List.length Nat.add]. rewrite while_S.
        destruct (Z.ltb_spec (off s) end_); [|lia].
        rewrite Step. apply Hw.
      * destruct (step_over_keeps o align s file w1) as (Kp & Kw & Kc).
        destruct (show_names_Some _ _ _ _ _ Hw1) as (Nw & Nc & Np).
        destruct (seen_keeps o s file) as (Sp & Sw & Sc).
        repeat split; try congruence.
        rewrite P, Kp, Np, Sp, N.
        change ((file, name) :: rest) with ([(file, name)] ++ rest).
        rewrite listed_app, listed_one, <- app_assoc. reflexivity.
Qed.

Lemma table_leads m align end_ off0 p recs :
  table m align end_ off0 p recs ->
  exists off' p',
    leads m align end_ off0 p recs off' p' /\
    (end_ <= off' \/
     (off' < end_ /\
      exists file, decode m p' = Some file /\
                   file_magic file <> CBFS_FILE_MAGIC)).
Proof.
  induction 1 as [off0 p Hend | off0 p file Hoff D M
                 | off0 p file name rest Hoff D M N T IH].
  - exists off0, p. split; [constructor | now left].
  - exists off0, p. split; [constructor | right; eauto].
  - destruct IH as (off' & p' & L & E).
    exists off', p'. split; [|exact E].
    now apply (leads_step _ _ _ _ _ file name).
Qed.

(** X4.  When no record of the table passes the type filter with a name
    that line 208 compares equal, [--read] says that the file was not found
    and returns 1, for any amount of fuel above the number of records: it
    has written nothing, and has printed what [--list] selects of the whole
    table. *)
Theorem read_not_found m o h w fn recs :
  hdr_magic h = CBFS_HEADER_MAGIC ->
  do_read o = 1 -> filename o = Some fn ->
  table m (hdr_align h) top_of_space
        (off (first_state m o h w)) (rom (first_state m o h w)) recs ->
  forallb (fun r => negb (matches o fn r)) recs = true ->
  forall fuel, (List.length recs < fuel)%nat ->
  exists w',
    walk m o h w fuel = Some (Exited 1, say (NotFound fn) w') /\
    printed w' = printed w ++ listed o recs /\
    written w' = written w.
Proof.
  intros Hm Hr F T NM fuel Hf.
  destruct (table_leads _ _ _ _ _ _ T) as (off' & p' & L & E).
  destruct (while_leads _ _ _ _ _ _ _ _ _ _ L F NM
              (first_state m o h w) eq_refl eq_refl)
    as (w1 & Hw & P & W & _).
  cbn [first_state out reading] in Hw, P, W.
  rewrite walk_accepts by exact Hm.
  replace fuel with (List.length recs + (fuel - List.length recs))%nat by lia.
  rewrite Hw.
  destruct (fuel - List.length recs)%nat as [|n] eqn:En; [lia|].
  destruct E as [E|(E & file & D & M)].
  - rewrite while_exhausted by exact E.
    exists w1. unfold finish. cbn [reading out]. rewrite Hr, F.
    cbn [Z.eqb Pos.eqb]. auto.
  - set (s1 := {| off := off'; rom := p'; reading := do_read o; out := w1 |}).
    rewrite while_S. cbn [off s1].
    destruct (Z.ltb_spec off' top_of_space); [|lia].
    rewrite (loop_body_sentinel m o (hdr_align h) top_of_space s1 file D M).
    exists (seen o s1 file). unfold finish.
    cbn [with_out reading out s1]. rewrite Hr, F. cbn [Z.eqb Pos.eqb].
    destruct (seen_keeps o s1 file) as (Sp & Sw & _).
    cbn [out s1] in Sp, Sw.
    repeat split; congruence.
Qed.

(** An extraction whose payload lies before the end and whose calls of
    [write] all take something writes the payload and leaves the loop. *)
Lemma extract_streams m o end_ s file w :
  view_ok end_ s -> off s < end_ -> end_ <= 2 ^ 63 ->
  0 <= file_offset file < 2 ^ 32 -> 0 <= file_len file < 2 ^ 32 ->
  off s + file_offset file + file_len file <= end_ ->
  (forall n, 0 < sink m n) ->
  exists w',
    extract m o end_ s file w =
      Some (Break {| off := off s; rom := rom s;
                     reading := reading s + 1; out := w' |}) /\
    written w' =
      written w ++ take (file_len file) (advance (file_offset file) (rom s)) /\
    printed w' = printed w /\
    Z.of_nat (List.length
                (take (file_len file) (advance (file_offset file) (rom s))))
      = file_len file.
Proof.
  intros (V0 & V) Hoff Hend Ho Hl Hin Hsink.
  assert (Hview : Z.of_nat (List.length (rom s)) = end_ - off s) by lia.
  unfold extract.
  assert (E1 : u64 (off s + file_offset file) = off s + file_offset file)
    by (unfold u64; apply Z.mod_small; lia).
  assert (E2 : u64 (off s + file_offset file + file_len file) =
               off s + file_offset file + file_len file)
    by (unfold u64; apply Z.mod_small; lia).
  rewrite E1, E2.
  destruct (Z.gtb_spec (off s + file_offset file + file_len file) end_);
    [lia|].
  set (w0 := chat (verbose o) (StartData (off s + file_offset file)) w).
  destruct (chat_keeps (verbose o)
              (StartData (off s + file_offset file)) w) as (Cp & Cw & Cc).
  fold w0 in Cp, Cw, Cc.
  destruct (write_loop_spec m (advance (file_offset file) (rom s))
              (file_len file) ltac:(lia)
              ltac:(rewrite advance_length; lia)
              (Z.to_nat (file_len file)) 0 w0 ltac:(lia) ltac:(lia))
    as (e & He & Hspec).
  rewrite He. rewrite advance_0, Z.sub_0_r in Hspec.
  destruct e as [w'|w'|w'].
  - destruct Hspec as (Hw & Hp & _).
    eexists. split; [reflexivity|].
    destruct (chat_keeps (verbose o) EndData w') as (Ep & Ew & _).
    repeat split; try congruence.
    rewrite take_length, advance_length. lia.
  - destruct Hspec as (_ & _ & _ & _ & Hlast & _).
    specialize (Hsink (pred (writes w'))). lia.
  - contradiction.
Qed.

(** X5.  The first record that passes the type filter with a name that
    line 208 compares equal is the one [--read] extracts: when the records
    before it do not match, its payload lies before the end of the ROM and
    every call of [write] takes something, the process writes exactly the
    [len] bytes of that payload, prints what [--list] selects of the records
    up to and including it, and returns 0.  What lies after that record
    plays no part. *)
Theorem read_extracts_first_match m o h w fn pre off1 p1 file name :
  hdr_magic h = CBFS_HEADER_MAGIC ->
  do_read o = 1 -> filename o = Some fn ->
  view_ok top_of_space (first_state m o h w) ->
  leads m (hdr_align h) top_of_space
        (off (first_state m o h w)) (rom (first_state m o h w))
        pre off1 p1 ->
  forallb (fun r => negb (matches o fn r)) pre = true ->
  off1 < top_of_space ->
  decode m p1 = Some file ->
  file_magic file = CBFS_FILE_MAGIC ->
  c_string (advance sizeof_file p1) = Some name ->
  matches o fn (file, name) = true ->
  off1 + file_offset file + file_len file <= top_of_space ->
  (forall n, 0 < sink m n) ->
  forall fuel, (List.length pre < fuel)%nat ->
  exists w',
    walk m o h w fuel = Some (Exited 0, w') /\
    written w' =
      written w ++ take (file_len file) (advance (file_offset file) p1) /\
    Z.of_nat (List.length
                (take (file_len file) (advance (file_offset file) p1)))
      = file_len file /\
    printed w' = printed w ++ listed o (pre ++ [(file, name)]).
Proof.
  intros Hm Hr F V L NM Hoff D M N MT Hin Hsink fuel Hf.
  destruct (while_leads _ _ _ _ _ _ _ _ _ _ L F NM
              (first_state m o h w) eq_refl eq_refl)
    as (w1 & Hw & P & W & _).
  cbn [first_state out reading] in Hw, P, W.
  destruct V as (V0 & V).
  destruct (leads_invariant _ _ _ _ _ _ _ _ L V0 ltac:(unfold top_of_space; lia))
    as (Hle & Hp & _).
  set (s1 := {| off := off1; rom := p1; reading := do_read o; out := w1 |}).
  assert (V1 : view_ok top_of_space s1).
  { split; cbn [off rom s1]; [lia|]. rewrite Hp, advance_length. lia. }
  pose proof (decode_words _ _ _ D) as (Hl & _ & _ & Ho & _).
  assert (N1 : c_string (advance sizeof_file (rom s1)) = Some name)
    by exact N.
  destruct (show_names_terminated o file _ _ (seen o s1 file) N1)
    as (w2 & Hw2).
  apply andb_true_iff in MT. destruct MT as (T & MT). cbn [fst] in T.
  assert (MT' : matches o fn (file, name) = true)
    by (unfold matches; cbn [fst snd]; rewrite T; exact MT).
  destruct (extract_streams m o top_of_space s1 file w2 V1 Hoff
              ltac:(unfold top_of_space; lia) Ho Hl Hin Hsink)
    as (w3 & He & Hw3 & Hp3 & Hlen).
  assert (Step : loop_body m o (hdr_align h) top_of_space s1 =
                 extract m o top_of_space s1 file w2).
  { rewrite (loop_body_record m o _ _ s1 file D M), Hw2.
    cbn [reading s1]. rewrite Hr. cbn [Z.eqb negb andb]. rewrite T.
    rewrite (name_matches_terminated o fn file _ name F N1 T), MT'.
    reflexivity. }
  exists w3. rewrite walk_accepts by exact Hm.
  replace fuel with (List.length pre + (fuel - List.length pre))%nat by lia.
  rewrite Hw.
  destruct (fuel - List.length pre)%nat as [|n] eqn:En; [lia|].
  fold s1. rewrite while_S. cbn [off s1].
  destruct (Z.ltb_spec off1 top_of_space); [|lia].
  rewrite Step, He. unfold finish. cbn [reading s1 out]. rewrite Hr.
  cbn [Z.add Pos.add Z.eqb Pos.eqb].
  destruct (show_names_Some _ _ _ _ _ Hw2) as (Nw & _ & Np).
  destruct (seen_keeps o s1 file) as (Sp & Sw & _).
  cbn [out s1 rom] in Sp, Sw, Hw3, Hlen.
  repeat split; try congruence.
  rewrite Hp3, Np, Sp, N1, P, listed_app, listed_one, <- app_assoc.
  reflexivity.
Qed.

(** ** When a name matches *)

Lemma byte_val_nul c : byte_val c = 0 <-> c = x00.
Proof.
  split; [|intros ->; reflexivity].
  intros H. apply byte_val_inj. rewrite H. reflexivity.
Qed.

Lemma strncmp_long fn :
  no_nul fn ->
  forall p n, Z.of_nat (List.length fn) < n ->
    (strncmp p fn n = Some 0 <-> exists rest, p = fn ++ x00 :: rest).
Proof.
  induction 1 as [|c2 fn Hc2 Hfn IH]; intros p n Hn;
    rewrite strncmp_unfold;
    (destruct (Z.leb_spec n 0); [cbn [List.length] in Hn; lia|]).
  - destruct p as [|c1 p].
    + split; [discriminate | intros (rest & E); discriminate].
    + cbn [app]. split.
      * intros Hz. inversion Hz as [H0]. apply byte_val_nul in H0. subst.
        now exists p.
      * intros (rest & E). inversion E; subst. reflexivity.
  - destruct p as [|c1 p].
    + split; [discriminate | intros (rest & E); discriminate].
    + cbn [app]. destruct (Z.eqb_spec (byte_val c1) (byte_val c2)) as [E|E].
      * apply byte_val_inj in E. subst c1. rewrite Hc2.
        rewrite IH by (cbn [List.length] in Hn; lia).
        split; intros (rest & R); exists rest; [now subst | now inversion R].
      * split.
        -- intros Hz. inversion Hz. lia.
        -- intros (rest & R). inversion R. subst. contradiction.
Qed.

Lemma strncmp_short fn :
  no_nul fn ->
  forall p n, 0 <= n <= Z.of_nat (List.length fn) ->
    (strncmp p fn n = Some 0 <->
     take n p = take n fn /\ n <= Z.of_nat (List.length p)).
Proof.
  induction 1 as [|c2 fn Hc2 Hfn IH]; intros p n Hn; rewrite strncmp_unfold.
  - cbn [List.length] in Hn. assert (n = 0) by lia. subst n.
    cbn [Z.leb]. rewrite !take_0. split; [intros _; split; [reflexivity|lia]
                                         | reflexivity].
  - destruct (Z.leb_spec n 0) as [H0|H0].
    + assert (n = 0) by lia. subst n. rewrite !take_0.
      split; [intros _; split; [reflexivity|lia] | reflexivity].
    + destruct p as [|c1 p].
      * split; [discriminate | intros (_ & L); cbn in L; lia].
      * cbn [take]. destruct (Z.leb_spec n 0); [lia|].
        destruct (Z.eqb_spec (byte_val c1) (byte_val c2)) as [E|E].
        -- apply byte_val_inj in E. subst c1. rewrite Hc2.
           rewrite IH by (cbn [List.length] in Hn; lia).
           cbn [List.length]. split.
           ++ intros (T & L). split; [now rewrite T | lia].
           ++ intros (T & L). injection T as T. split; [exact T | lia].
        -- split.
           ++ intros Hz. inversion Hz. lia.
           ++ intros (T & _). inversion T. subst. contradiction.
Qed.

(** X6.  What [--read fn] takes for a match, by the name capacity
    [cap = file.offset - sizeof(file)] of the record (in 64 bits, so a
    record with [offset < 24] has a huge capacity): when the capacity
    exceeds the length of [fn], exactly the records whose name bytes are
    [fn] followed by a NUL; when it does not, exactly the records whose
    first [cap] name bytes are the first [cap] bytes of [fn]. *)
Theorem match_rule o fn name cap :
  filename o = Some fn ->
  no_nul (list_byte_of_string fn) ->
  (Z.of_nat (List.length (list_byte_of_string fn)) < cap ->
   (name_matches o name cap = Some true <->
    exists rest, name = list_byte_of_string fn ++ x00 :: rest)) /\
  (0 <= cap <= Z.of_nat (List.length (list_byte_of_string fn)) ->
   (name_matches o name cap = Some true <->
    take cap name = take cap (list_byte_of_string fn) /\
    cap <= Z.of_nat (List.length name))).
Proof.
  intros F NN.
  assert (E : name_matches o name cap = Some true <->
              strncmp name (list_byte_of_string fn) cap = Some 0).
  { unfold name_matches. rewrite F.
    destruct (strncmp name (list_byte_of_string fn) cap) as [c|].
    - destruct (Z.eqb_spec c 0) as [->|N]; split; intros H;
        try reflexivity; try discriminate.
      inversion H. contradiction.
    - split; discriminate. }
  split; intros H; rewrite E.
  - now apply strncmp_long.
  - now apply strncmp_short.
Qed.

(** ** Edge cases of the walk *)

Lemma write_loop_calls m data len :
  len < 2 ^ 64 -> len <= Z.of_nat (List.length data) ->
  forall fuel offset w,
    0 <= offset <= len -> len - offset <= Z.of_nat fuel ->
    exists e, write_loop m fuel data len offset w = Some e /\
              Z.of_nat (writes (world_of e)) - Z.of_nat (writes w)
                <= len - offset.
Proof.
  intros Hlen Hdata.
  induction fuel as [|fuel IH]; intros offset w Ho Hf; cbn [write_loop].
  - destruct (Z.ltb_spec offset len); [lia|].
    exists (WriteDone w). split; [reflexivity|]. cbn [world_of]. lia.
  - destruct (Z.ltb_spec offset len) as [Hlt|Hge].
    2:{ exists (WriteDone w). split; [reflexivity|]. cbn [world_of]. lia. }
    assert (Ecount : u64 (len - offset) = len - offset)
      by (unfold u64; apply Z.mod_small; lia).
    rewrite Ecount.
    destruct (write_rc_cases m w (len - offset)) as [[Hrc Hs]|[Hrc Hs]];
      [lia| |].
    + destruct (Z.leb_spec (write_rc m w (len - offset)) 0); [|lia].
      eexists. split; [reflexivity|].
      cbn [world_of say emit writes]. lia.
    + destruct (Z.leb_spec (write_rc m w (len - offset)) 0); [lia|].
      set (rc := write_rc m w (len - offset)) in *.
      rewrite read_at_in_bounds by lia.
      assert (Eoff : u64 (offset + rc) = offset + rc)
        by (unfold u64; apply Z.mod_small; lia).
      rewrite Eoff.
      destruct (IH (offset + rc) (emit (take rc (advance offset data)) w))
        as (e & He & Hc); try lia.
      exists e. split; [exact He|]. cbn [emit writes] in Hc. lia.
Qed.

(** X7.  The loop of lines 221-235 over a payload of [len] bytes that lies
    in the buffer ends after at most [len] calls of [write], whatever the
    calls return; for an empty payload it calls [write] not once and ends
    well, so that an empty file is extracted even on a descriptor that
    takes nothing. *)
Theorem write_calls_bounded m data len w :
  0 <= len < 2 ^ 64 -> len <= Z.of_nat (List.length data) ->
  exists e,
    write_loop m (Z.to_nat len) data len 0 w = Some e /\
    Z.of_nat (writes (world_of e)) - Z.of_nat (writes w) <= len /\
    (len = 0 -> e = WriteDone w).
Proof.
  intros Hl Hd.
  destruct (write_loop_calls m data len ltac:(lia) Hd (Z.to_nat len) 0 w
              ltac:(lia) ltac:(lia)) as (e & He & Hc).
  exists e. split; [exact He|]. split; [lia|].
  intros ->. cbn in He. now inversion He.
Qed.

(** X8.  A header whose [romsize] does not exceed its [offset] puts the
    first cursor at or past the end: the loop is not entered for any amount
    of fuel, nothing is decoded, printed or written, and the process returns
    0 without [--read] and 1, with the message that the file was not found,
    with it. *)
Theorem empty_region m o h w fuel :
  words h -> hdr_magic h = CBFS_HEADER_MAGIC ->
  hdr_romsize h <= hdr_offset h ->
  (do_read o = 0 -> walk m o h w fuel = Some (Exited 0, w)) /\
  (do_read o = 1 -> forall fn, filename o = Some fn ->
   walk m o h w fuel = Some (Exited 1, say (NotFound fn) w)).
Proof.
  intros (_ & _ & Hr & _ & _ & Ho & _) Hm Hle.
  assert (E : top_of_space <= off (first_state m o h w)).
  { unfold first_state, top_of_space. cbn [off].
    assert (E1 : u64 (4294967296 - hdr_romsize h) =
                 4294967296 - hdr_romsize h)
      by (unfold u64; apply Z.mod_small; lia).
    rewrite E1. unfold u64. rewrite Z.mod_small by lia. lia. }
  rewrite walk_accepts by exact Hm. rewrite while_exhausted by exact E.
  unfold finish. cbn [first_state reading out].
  split.
  - intros ->. reflexivity.
  - intros -> fn ->. reflexivity.
Qed.

(** ** The table on disk *)

Lemma c_string_terminated : forall name tail,
  no_nul name -> c_string (name ++ x00 :: tail) = Some name.
Proof.
  induction name as [|c name IH]; intros tail N; cbn [app c_string].
  - reflexivity.
  - inversion N as [|? ? Hc Hn]; subst. rewrite Hc, IH by exact Hn.
    reflexivity.
Qed.

Lemma advance_past {A : Type} (a b : list A) :
  advance (Z.of_nat (List.length a)) (a ++ b) = b.
Proof.
  rewrite advance_skipn, Nat2Z.id, skipn_app, skipn_all, Nat.sub_diag.
  reflexivity.
Qed.

Lemma align_up_positive x a :
  0 < a -> 0 < align_up x a -> 0 < x.
Proof.
  intros Ha H. unfold align_up in H.
  destruct (Z.lt_ge_cases 0 x) as [|N]; [assumption|].
  assert ((x + a - 1) / a < 1) by (apply Z.div_lt_upper_bound; lia).
  nia.
Qed.

Lemma multiple_below k b :
  0 <= k < 32 -> (2 ^ k | b) -> b < 2 ^ 32 -> b <= 2 ^ 32 - 2 ^ k.
Proof.
  intros Hk (q & ->) Hb.
  assert (P : 0 < 2 ^ k) by (apply Z.pow_pos_nonneg; lia).
  assert (E : 2 ^ 32 = 2 ^ (32 - k) * 2 ^ k)
    by (rewrite <- Z.pow_add_r by lia; f_equal; lia).
  rewrite E in *.
  assert (q < 2 ^ (32 - k)) by (apply (Z.mul_lt_mono_pos_r (2 ^ k)); lia).
  nia.
Qed.

(** The records that lie on disk are those that the loop visits: the
    distance of lines 245-247 is the size of the block. *)
Lemma on_disk_table m k end_ p recs :
  0 <= k < 32 -> end_ <= 2 ^ 32 ->
  on_disk (2 ^ k) p recs ->
  forall off0,
    0 <= off0 -> off0 + Z.of_nat (List.length p) = end_ ->
    Z.of_nat (List.length p) < 2 ^ 32 ->
    table m (2 ^ k) end_ off0 p recs.
Proof.
  intros Hk Hend D.
  induction D as [p [->|(L & M)]
                 | p file name tail rest recs -> W Mg N B D IH];
    intros off0 H0 Hlen Hsmall.
  - apply table_exhausted. cbn in Hlen. lia.
  - assert (R : read_at p 0 sizeof_file = Some (take 24 p)).
    { rewrite read_at_in_bounds by (unfold sizeof_file; lia).
      now rewrite advance_0. }
    eapply table_sentinel; [lia | rewrite decode_be, R; reflexivity |].
    cbn [file_magic]. rewrite take_take by lia. exact M.
  - pose proof W as (Hm & Hl & _ & _ & Ho).
    pose proof (file_bytes_length file Hm) as L24.
    set (body := name ++ x00 :: tail) in *.
    rewrite !length_app, L24 in Hlen, Hsmall.
    assert (P : 0 < 2 ^ k) by (apply Z.pow_pos_nonneg; lia).
    assert (X : 0 < file_offset file + file_len file)
      by (apply (align_up_positive _ (2 ^ k)); lia).
    destruct (align_up_spec (file_offset file + file_len file) (2 ^ k) P X)
      as (_ & Dv & Le).
    assert (Bd : align_up (file_offset file + file_len file) (2 ^ k)
                 <= 2 ^ 32 - 2 ^ k)
      by (apply multiple_below; trivial; lia).
    assert (I : increment (2 ^ k) file =
                24 + Z.of_nat (List.length body))
      by (rewrite increment_align_up by lia; lia).
    destruct (file_bytes_fields file W) as (Fm & Fl & Ft & Fa & Fo).
    eapply table_record.
    + lia.
    + rewrite decode_be, file_bytes_read by exact Hm.
      rewrite Fm, Fl, Ft, Fa, Fo. destruct file; reflexivity.
    + exact Mg.
    + unfold sizeof_file.
      replace 24 with (Z.of_nat (List.length (file_bytes file)))
        by (rewrite L24; reflexivity).
      rewrite advance_past. unfold body. rewrite <- app_assoc.
      cbn [app]. now apply c_string_terminated.
    + rewrite I.
      replace (24 + Z.of_nat (List.length body))
        with (Z.of_nat (List.length (file_bytes file ++ body)))
        by (rewrite length_app, L24; lia).
      rewrite app_assoc, advance_past.
      rewrite length_app, L24.
      replace (u64 (off0 + Z.of_nat (24 + List.length body)))
        with (off0 + Z.of_nat (24 + List.length body))
        by (unfold u64; rewrite Z.mod_small; lia).
      apply IH; lia.
Qed.

Lemma listing_unfiltered o recs :
  do_type o = false -> listing o recs = name_lines recs.
Proof.
  intros Ht. unfold listing, name_lines. do 2 f_equal.
  unfold type_selected. rewrite Ht. cbn [negb orb].
  induction recs as [|r recs IH]; [reflexivity|].
  cbn [filter]. now rewrite IH.
Qed.

Lemma listing_filtered o recs :
  do_type o = true ->
  listing o recs =
  name_lines (filter (fun r => file_type (fst r) =? cbfs_file_type o) recs).
Proof.
  intros Ht. unfold listing, name_lines. do 2 f_equal.
  apply filter_ext. intros r. unfold type_selected. now rewrite Ht.
Qed.

(** C8, amended.  In list mode without [--read], over an image whose header
    is accepted, with a power of two for [align], and whose region holds on
    disk the [N] records [recs], block after block: the process prints,
    without [--type], the [N] names, each followed by a newline, in the
    order of the blocks, and with [--type T] the names of the records whose
    type is [T], in that order; it prints nothing else, writes nothing and
    returns 0. *)
Theorem list_prints_table m o h w recs k :
  hdr_magic h = CBFS_HEADER_MAGIC ->
  words h -> hdr_offset h <= hdr_romsize h ->
  hdr_align h = 2 ^ k -> 0 <= k < 32 ->
  do_list o = true -> do_read o = 0 ->
  on_disk (hdr_align h) (rom (first_state m o h w)) recs ->
  forall fuel, (List.length recs < fuel)%nat ->
  exists w',
    walk m o h w fuel = Some (Exited 0, w') /\
    written w' = written w /\
    (do_type o = false -> printed w' = printed w ++ name_lines recs) /\
    (do_type o = true ->
     printed w' =
       printed w ++
       name_lines
         (filter (fun r => file_type (fst r) =? cbfs_file_type o) recs)).
Proof.
  intros Hm Hw Hle Ha Hk Hl Hr D fuel Hf.
  destruct (first_state_view m o h w Hw Hle) as (V0 & V).
  pose proof Hw as (_ & _ & Hrom & _ & _ & Hoff & _).
  assert (O : off (first_state m o h w) =
              top_of_space - hdr_romsize h + hdr_offset h).
  { unfold first_state, top_of_space, u64. cbn [off].
    rewrite (Z.mod_small (4294967296 - hdr_romsize h)) by lia.
    rewrite Z.mod_small by lia. reflexivity. }
  rewrite Ha in D.
  assert (T : table m (2 ^ k) top_of_space (off (first_state m o h w))
                (rom (first_state m o h w)) recs).
  { apply on_disk_table; trivial; unfold top_of_space in *; try lia. }
  rewrite <- Ha in T.
  destruct (while_table _ _ _ _ _ _ _ T Hl (first_state m o h w) fuel)
    as (s' & Hs' & R & P & W); trivial.
  exists (out s'). rewrite walk_accepts by exact Hm. rewrite Hs'.
  unfold finish. rewrite R. cbn [Z.eqb].
  cbn [first_state out] in P, W.
  split; [reflexivity|]. split; [exact W|]. split.
  - intros Ht. now rewrite P, listing_unfiltered.
  - intros Ht. now rewrite P, listing_filtered.
Qed.

(** ** The options after parsing *)

Lemma long_lookup_cases name ha v :
  long_lookup name = Some (ha, v) ->
  In (ha, v) [(no_argument, chr "v"); (required_argument, chr "r");
              (no_argument, chr "l"); (required_argument, chr "t");
              (no_argument, chr "h")].
Proof.
  unfold long_lookup, long_options. cbn [filter fst snd].
  repeat match goal with
         | |- context [String.eqb ?a name] => destruct (String.eqb a name)
         end;
    try (intros H; inversion H; subst; cbn; tauto).
  repeat match goal with
         | |- context [String.prefix name ?a] => destruct (String.prefix name a)
         end;
    intros H; inversion H; subst; cbn; tauto.
Qed.

Lemma chr_inj a b : chr a = chr b -> a = b.
Proof.
  unfold chr. intros H. apply Nat2Z.inj in H.
  rewrite <- (ascii_nat_embedding a), <- (ascii_nat_embedding b).
  now rewrite H.
Qed.

Lemma short_lookup_plain c :
  short_lookup optstring c = Some false ->
  chr c <> chr "r" /\ chr c <> chr "t".
Proof.
  intros H. split; intros E; apply chr_inj in E; subst c;
    vm_compute in H; discriminate.
Qed.

Lemma unrecognized_with_argument : with_argument unrecognized.
Proof. intros [E|E]; vm_compute in E; discriminate. Qed.

Lemma short_cluster_with_argument : forall s next,
  Forall with_argument (fst (short_cluster s next)).
Proof.
  induction s as [|c s IH]; intros next; cbn [short_cluster].
  - constructor.
  - destruct (short_lookup optstring c) as [[|]|] eqn:L.
    + destruct s as [|c' s']; [destruct next as [x|]|]; cbn [fst].
      * apply Forall_cons; [intros _; cbn; discriminate | constructor].
      * apply Forall_cons; [apply unrecognized_with_argument | constructor].
      * apply Forall_cons; [intros _; cbn; discriminate | constructor].
    + specialize (IH next). destruct (short_cluster s next) as [r used].
      cbn [fst] in *. constructor; [|exact IH].
      intros [E|E]; cbn in E; apply short_lookup_plain in L; tauto.
    + specialize (IH next). destruct (short_cluster s next) as [r used].
      cbn [fst] in *. constructor; [|exact IH].
      intros [E|E]; vm_compute in E; discriminate.
Qed.

Lemma getopt_long_with_argument : forall n args,
  (List.length args <= n)%nat ->
  Forall with_argument (fst (getopt_long args)).
Proof.
  induction n as [|n IH]; intros args Hn.
  - destruct args; [constructor | cbn in Hn; lia].
  - destruct args as [|a rest]; [constructor|].
    assert (R : Forall with_argument (fst (getopt_long rest)))
      by (apply IH; cbn in Hn; lia).
    assert (R' : forall x rest', rest = x :: rest' ->
                 Forall with_argument (fst (getopt_long rest')))
      by (intros x rest' ->; apply IH; cbn in Hn; lia).
    assert (Plain : Forall with_argument
                      (fst (let (r, ops) := getopt_long rest in
                            (r, a :: ops))))
      by (destruct (getopt_long rest); exact R).
    rewrite getopt_long_cons.
    destruct a as [|c0 a]; [exact Plain|].
    destruct (Ascii.eqb_spec c0 "-") as [->|N0].
    2:{ destruct c0 as [[] [] [] [] [] [] [] []];
          try exact Plain; now contradiction N0. }
    destruct a as [|c1 a]; [exact Plain|].
    destruct (Ascii.eqb_spec c1 "-") as [->|N1].
    + destruct a as [|c2 a]; [constructor|].
      destruct (split_eq (String c2 a)) as [name value].
      destruct (long_lookup name) as [[ha v]|] eqn:L.
      * apply long_lookup_cases in L.
        destruct ha, value as [x|].
        -- destruct (getopt_long rest) as [r ops]. cbn [fst] in *.
           apply Forall_cons; [apply unrecognized_with_argument | exact R].
        -- destruct (getopt_long rest) as [r ops]. cbn [fst] in *.
           apply Forall_cons; [|exact R].
           intros E. exfalso. cbn [g_opt] in E. cbn [In] in L.
           destruct E as [E|E]; vm_compute in E;
             repeat (destruct L as [L|L]; [vm_compute in L; congruence|]);
             destruct L.
        -- destruct (getopt_long rest) as [r ops]. cbn [fst] in *.
           apply Forall_cons; [intros _; cbn; discriminate | exact R].
        -- destruct rest as [|x rest'].
           ++ cbn [fst].
              apply Forall_cons;
                [apply unrecognized_with_argument | constructor].
           ++ specialize (R' x rest' eq_refl).
              destruct (getopt_long rest') as [r ops]. cbn [fst] in *.
              apply Forall_cons; [intros _; cbn; discriminate | exact R'].
      * destruct value; destruct (getopt_long rest) as [r ops];
          cbn [fst] in *;
          (constructor; [apply unrecognized_with_argument | exact R]).
    + assert (Short :
        Forall with_argument
          (fst match rest with
               | [] => (fst (short_cluster (String c1 a) None), [])
               | x :: rest' =>
                   let (here, used) :=
                     short_cluster (String c1 a) (Some x) in
                   let (r, ops) :=
                     if used then getopt_long rest' else getopt_long rest in
                   (here ++ r, ops)
               end)).
      { destruct rest as [|x rest'].
        - cbn [fst]. apply short_cluster_with_argument.
        - pose proof (short_cluster_with_argument (String c1 a) (Some x))
            as S.
          specialize (R' x rest' eq_refl).
          destruct (short_cluster (String c1 a) (Some x)) as [here used].
          destruct used.
          + destruct (getopt_long rest') as [r ops]. cbn [fst] in *.
            apply Forall_app. split; assumption.
          + destruct (getopt_long (x :: rest')) as [r ops]. cbn [fst] in *.
            apply Forall_app. split; assumption. }
      destruct c1 as [[] [] [] [] [] [] [] []];
        try exact Short; now contradiction N1.
Qed.

Lemma option_case_named o g o' :
  with_argument g -> read_is_named o ->
  option_case o g = inl o' -> read_is_named o'.
Proof.
  intros G I. unfold option_case.
  destruct (Z.eqb_spec (g_opt g) (chr "v"));
    [intros H; inversion H; subst; exact I|].
  destruct (Z.eqb_spec (g_opt g) (chr "l"));
    [intros H; inversion H; subst; exact I|].
  destruct (Z.eqb_spec (g_opt g) (chr "r")) as [E|].
  { intros H; inversion H; subst. right. cbn. split; [reflexivity|].
    destruct (g_optarg g) as [a|] eqn:A; [eauto|].
    exfalso. apply G; [now left | exact A]. }
  destruct (Z.eqb_spec (g_opt g) (chr "t"));
    [intros H; inversion H; subst; exact I|].
  destruct ((g_opt g =? chr "?") || (g_opt g =? chr "h")); discriminate.
Qed.

Lemma parse_options_named : forall gs o w o' w',
  Forall with_argument gs -> read_is_named o ->
  parse_options o w gs = (inl o', w') -> read_is_named o'.
Proof.
  induction gs as [|g gs IH]; intros o w o' w' G I H; cbn [parse_options] in H.
  - inversion H; subst. exact I.
  - inversion G; subst.
    destruct (option_case o g) as [o1|code] eqn:C; [|discriminate].
    eapply IH; [eassumption | | exact H].
    eapply option_case_named; eassumption.
Qed.

Lemma option_case_read o g o' :
  option_case o g = inl o' ->
  if g_opt g =? chr "r"
  then filename o' = g_optarg g /\ do_read o' = 1
  else filename o' = filename o /\ do_read o' = do_read o.
Proof.
  unfold option_case.
  destruct (Z.eqb_spec (g_opt g) (chr "v")) as [E|_].
  { rewrite E. intros H. inversion H. now split. }
  destruct (Z.eqb_spec (g_opt g) (chr "l")) as [E|_].
  { rewrite E. intros H. inversion H. now split. }
  destruct (Z.eqb_spec (g_opt g) (chr "r")) as [E|_].
  { intros H. inversion H. now split. }
  destruct (Z.eqb_spec (g_opt g) (chr "t")) as [E|_].
  { intros H. inversion H. now split. }
  destruct ((g_opt g =? chr "?") || (g_opt g =? chr "h")); discriminate.
Qed.

(** The loop over the options keeps the argument of the last [-r]. *)
Lemma parse_options_last_read : forall gs o w o' w',
  parse_options o w gs = (inl o', w') ->
  filename o' = match rev (read_answers gs) with
                | g :: _ => g_optarg g
                | [] => filename o
                end /\
  do_read o' = match read_answers gs with
               | [] => do_read o
               | _ :: _ => 1
               end.
Proof.
  induction gs as [|g gs IH]; intros o w o' w' H; cbn [parse_options] in H.
  - inversion H; subst. now split.
  - destruct (option_case o g) as [o1|code] eqn:C; [|discriminate].
    apply option_case_read in C. apply IH in H. destruct H as (F & R).
    unfold read_answers in *. cbn [filter].
    destruct (g_opt g =? chr "r"); destruct C as (C1 & C2).
    + cbn [rev]. split.
      * rewrite F. destruct (rev (filter _ gs)); [exact C1 | reflexivity].
      * rewrite R. destruct (filter _ gs); [exact C2 | reflexivity].
    + rewrite F, R, C1, C2. now split.
Qed.

(** X9.  After the options are parsed, [filename] is the argument of the
    last [-r] or [--read] of the command line, whatever came before it, and
    [do_read] is 1 exactly when there was one; [filename] is then set:
    whenever [main] goes on to the walk in read mode, the name it compares
    and reports is the argument of the last [--read], never the null
    pointer. *)
Theorem read_mode_has_a_name argv gs operands o w :
  getopt_long (tl argv) = (gs, operands) ->
  parse_options no_options start_world gs = (inl o, w) ->
  filename o = last_read gs /\
  (do_read o = 1 <-> read_answers gs <> []) /\
  read_is_named o /\
  (do_read o <> 0 ->
   exists fn, last_read gs = Some fn /\ filename o = Some fn /\
     forall s, reading s = 1 ->
       finish o (Break s) = (Exited 1, say (NotFound fn) (out s))).
Proof.
  intros G P.
  assert (I : read_is_named o).
  { eapply parse_options_named; [| |exact P].
    - replace gs with (fst (getopt_long (tl argv))) by now rewrite G.
      eapply getopt_long_with_argument. reflexivity.
    - left. split; reflexivity. }
  destruct (parse_options_last_read _ _ _ _ _ P) as (F & R).
  assert (L : filename o = last_read gs).
  { rewrite F. unfold last_read.
    destruct (rev (read_answers gs)); reflexivity. }
  split; [exact L|]. split.
  { rewrite R. cbn [no_options do_read].
    destruct (read_answers gs); split; intros H; try easy. }
  split; [exact I|]. intros N.
  destruct I as [(Z & _)|(_ & fn & Fn)]; [contradiction|].
  exists fn. split; [congruence|]. split; [exact Fn|].
  intros s Hs. unfold finish. rewrite Hs, Fn. reflexivity.
Qed.

(** ** Verbosity *)

Lemma same_output_chat_l v d w1 w2 :
  same_output w1 w2 -> same_output (chat v d w1) w2.
Proof.
  unfold same_output. destruct (chat_keeps v d w1) as (A & B & C).
  intros (P & W & N). repeat split; congruence.
Qed.

Lemma same_output_say d w1 w2 :
  same_output w1 w2 -> same_output (say d w1) (say d w2).
Proof. unfold same_output, say. cbn. tauto. Qed.

Lemma same_output_say_l d w1 w2 :
  same_output w1 w2 -> same_output (say d w1) w2.
Proof. unfold same_output, say. cbn. tauto. Qed.

Lemma same_output_puts n w1 w2 :
  same_output w1 w2 -> same_output (puts n w1) (puts n w2).
Proof.
  unfold same_output, puts. cbn. intros (P & W & N).
  repeat split; congruence.
Qed.

Lemma same_output_emit bs w1 w2 :
  same_output w1 w2 -> same_output (emit bs w1) (emit bs w2).
Proof.
  unfold same_output, emit. cbn. intros (P & W & N).
  repeat split; congruence.
Qed.

Lemma write_loop_same_output m data len : forall fuel offset w1 w2,
  same_output w1 w2 ->
  match write_loop m fuel data len offset w1,
        write_loop m fuel data len offset w2 with
  | Some e1, Some e2 => same_end e1 e2
  | None, None => True
  | _, _ => False
  end.
Proof.
  induction fuel as [|fuel IH]; intros offset w1 w2 S; cbn [write_loop].
  - destruct (offset <? len); [exact I | exact S].
  - destruct (offset <? len); [|exact S].
    assert (E : write_rc m w1 (u64 (len - offset)) =
                write_rc m w2 (u64 (len - offset))).
    { unfold write_rc. destruct S as (_ & _ & N). now rewrite N. }
    rewrite E.
    destruct (write_rc m w2 (u64 (len - offset)) <=? 0).
    + cbn [same_end]. apply same_output_say. now apply same_output_emit.
    + destruct (read_at data offset _) as [bs|]; [|exact S].
      apply IH. now apply same_output_emit.
Qed.

Lemma show_names_quiet o file name w1 w1' w2 :
  same_output w1 w2 ->
  show_names o file name w1 = Some w1' ->
  exists w2', show_names (quiet o) file name w2 = Some w2' /\
              same_output w1' w2'.
Proof.
  intros S. unfold show_names.
  change (verbose (quiet o)) with 0. change (do_list (quiet o)) with (do_list o).
  change (type_selected (quiet o) file) with (type_selected o file).
  change (0 =? 0) with true. cbv iota.
  destruct (verbose o =? 0).
  - destruct (do_list o && type_selected o file).
    + destruct (c_string name) as [n|]; [|discriminate].
      cbn [option_map]. intros H; inversion H; subst.
      eexists. split; [reflexivity|]. now apply same_output_puts.
    + intros H; inversion H; subst. eauto.
  - destruct (c_string name) as [n|]; [|discriminate]. cbn [option_map].
    destruct (do_list o && type_selected o file).
    + intros H; inversion H; subst.
      eexists. split; [reflexivity|].
      apply same_output_puts. now apply same_output_say_l.
    + intros H; inversion H; subst.
      eexists. split; [reflexivity|]. now apply same_output_say_l.
Qed.

Lemma extract_quiet m o end_ s1 s2 file w1 w2 r1 :
  same_state s1 s2 -> same_output w1 w2 ->
  extract m o end_ s1 file w1 = Some r1 ->
  (forall w, r1 <> Fault w) ->
  exists r2, extract m (quiet o) end_ s2 file w2 = Some r2 /\
             same_flow r1 r2.
Proof.
  intros (So & Sr & Sd & _) S. unfold extract. cbn [quiet verbose].
  rewrite So, Sr, Sd.
  destruct (_ >? end_).
  - intros H _. inversion H; subst. eexists. split; [reflexivity|].
    cbn [same_flow]. split; [reflexivity|].
    unfold chat at 2. cbn [Z.eqb]. apply same_output_say.
    now apply same_output_chat_l.
  - set (data := advance (file_offset file) (rom s2)).
    pose proof (write_loop_same_output m data (file_len file)
                  (Z.to_nat (file_len file)) 0
                  (chat (verbose o) (StartData (u64 (off s2 + file_offset file))) w1)
                  (chat 0 (StartData (u64 (off s2 + file_offset file))) w2)
                  ltac:(apply same_output_chat_l; exact S)) as WL.
    destruct (write_loop m _ data (file_len file) 0
                (chat (verbose o) _ w1)) as [[a|a|a]|];
      destruct (write_loop m _ data (file_len file) 0 (chat 0 _ w2))
        as [[b|b|b]|]; cbn [same_end] in WL; try contradiction;
      intros H NF; inversion H; subst.
    + eexists. split; [reflexivity|]. cbn [same_flow same_state off rom
        reading out]. repeat split; trivial.
      * apply same_output_chat_l. exact WL.
      * apply same_output_chat_l. exact WL.
      * apply same_output_chat_l. exact WL.
    + eexists. split; [reflexivity|]. cbn [same_flow]. tauto.
    + now destruct (NF a).
Qed.

Lemma loop_body_quiet m o align end_ s1 s2 r1 :
  same_state s1 s2 ->
  loop_body m o align end_ s1 = Some r1 ->
  (forall w, r1 <> Fault w) ->
  exists r2, loop_body m (quiet o) align end_ s2 = Some r2 /\
             same_flow r1 r2.
Proof.
  intros S. pose proof S as (So & Sr & Sd & Sw).
  unfold loop_body. cbn [quiet verbose]. rewrite <- Sr.
  destruct (decode m (rom s1)) as [file|];
    [|intros H NF; inversion H; subst; exfalso; eapply NF; reflexivity].
  destruct (strncmp _ _ _) as [c|];
    [|intros H NF; inversion H; subst; exfalso; eapply NF; reflexivity].
  assert (S0 : same_output
                 (chat (verbose o) (FileFields file)
                    (chat (verbose o) (PotentialFile (off s1)) (out s1)))
                 (chat 0 (FileFields file)
                    (chat 0 (PotentialFile (off s2)) (out s2))))
    by (do 2 apply same_output_chat_l; exact Sw).
  destruct (negb (c =? 0)).
  - intros H _. inversion H; subst. eexists. split; [reflexivity|].
    cbn [same_flow same_state with_out off rom reading out].
    repeat split; try tauto; apply S0.
  - destruct (show_names o file _ _) as [w1|] eqn:N;
      [|intros H NF; inversion H; subst; exfalso; eapply NF; reflexivity].
    destruct (show_names_quiet _ _ _ _ _ _ S0 N) as (w2 & N2 & S1).
    rewrite N2, <- Sd.
    change (type_selected (quiet o) file) with (type_selected o file).
    change (name_matches (quiet o)) with (name_matches o).
    assert (Step : same_flow (Next (step_over o align s1 file w1))
                     (Next (step_over (quiet o) align s2 file w2))).
    { unfold same_flow, same_state, step_over.
      cbn [off rom reading out]. change (verbose (quiet o)) with 0.
      rewrite So, Sr. repeat split; trivial;
        apply same_output_chat_l; apply S1. }
    destruct (negb (reading s1 =? 0) && type_selected o file).
    + destruct (name_matches o _ _) as [[|]|].
      * intros H NF. eapply extract_quiet; eassumption.
      * intros H _. inversion H; subst. eauto.
      * intros H NF; inversion H; subst; exfalso; eapply NF; reflexivity.
    + intros H _. inversion H; subst. eauto.
Qed.

Lemma while_quiet m o align end_ : forall fuel s1 s2 r1,
  same_state s1 s2 ->
  while m o align end_ fuel s1 = Some r1 ->
  (forall w, r1 <> Fault w) ->
  exists r2, while m (quiet o) align end_ fuel s2 = Some r2 /\
             same_flow r1 r2.
Proof.
  induction fuel as [|fuel IH]; intros s1 s2 r1 S; cbn [while];
    pose proof S as (So & _); rewrite <- So.
  - destruct (off s1 <? end_); [discriminate|].
    intros H _. inversion H; subst. eauto.
  - destruct (off s1 <? end_);
      [|intros H _; inversion H; subst; eauto].
    destruct (loop_body m o align end_ s1) as [r|] eqn:L; [|discriminate].
    destruct r as [s1'|s1'|c w|w].
    + intros H NF.
      destruct (loop_body_quiet _ _ _ _ _ s2 _ S L) as (r2 & L2 & F);
        [discriminate|].
      rewrite L2. destruct r2 as [s2'| | |]; try contradiction.
      eapply IH; eassumption.
    + intros H NF. inversion H; subst.
      destruct (loop_body_quiet _ _ _ _ _ s2 _ S L) as (r2 & L2 & F);
        [discriminate|].
      rewrite L2. destruct r2 as [|s2'| |]; try contradiction. eauto.
    + intros H NF. inversion H; subst.
      destruct (loop_body_quiet _ _ _ _ _ s2 _ S L) as (r2 & L2 & F);
        [discriminate|].
      rewrite L2. destruct r2 as [| |c2 w2|]; try contradiction. eauto.
    + intros H NF. inversion H; subst. now destruct (NF w).
Qed.

(** X10.  [--verbose] changes the error stream only: when a walk with any
    verbosity returns an exit code, the walk without [--verbose] returns the
    same code with the same bytes printed and the same bytes written.  (A
    verbose run can end at a read outside the view where the quiet one goes
    on, since it prints every name.) *)
Theorem verbose_keeps_output m o h w fuel code w1 :
  walk m o h w fuel = Some (Exited code, w1) ->
  exists w2,
    walk m (quiet o) h w fuel = Some (Exited code, w2) /\
    printed w2 = printed w1 /\ written w2 = written w1.
Proof.
  unfold walk.
  destruct (negb (hdr_magic h =? CBFS_HEADER_MAGIC)).
  - intros H. inversion H; subst. eexists. split; [reflexivity|].
    split; reflexivity.
  - cbv zeta. cbn [quiet do_read].
    set (s0 := {| off := _; rom := _; reading := do_read o; out := w |}).
    destruct (while m o (hdr_align h) top_of_space fuel s0) as [r1|] eqn:W;
      [|discriminate].
    intros H.
    assert (NF : forall w', r1 <> Fault w').
    { intros w' ->. cbn in H. discriminate. }
    destruct (while_quiet m o (hdr_align h) top_of_space fuel s0 s0 r1)
      as (r2 & W2 & F); trivial.
    { repeat split. }
    rewrite W2. clear W W2.
    destruct r1 as [s1|s1|c a|a], r2 as [s2|s2|c2 b|b];
      cbn [same_flow] in F; try contradiction.
    + destruct F as (_ & _ & Rd & P & Wr & _). unfold finish in *.
      cbn [quiet filename]. rewrite <- Rd.
      destruct (reading s1 =? 1).
      * destruct (filename o); inversion H; subst.
        eexists. split; [reflexivity|]. cbn. split; congruence.
      * inversion H; subst. eexists. split; [reflexivity|].
        split; congruence.
    + destruct F as (_ & _ & Rd & P & Wr & _). unfold finish in *.
      cbn [quiet filename]. rewrite <- Rd.
      destruct (reading s1 =? 1).
      * destruct (filename o); inversion H; subst.
        eexists. split; [reflexivity|]. cbn. split; congruence.
      * inversion H; subst. eexists. split; [reflexivity|].
        split; congruence.
    + destruct F as (-> & P & Wr & _). cbn [finish] in *.
      inversion H; subst. eexists. split; [reflexivity|].
      split; congruence.
Qed.

(** ** Exit codes and output streams *)

Lemma option_case_codes o g code :
  option_case o g = inr code -> code = EXIT_SUCCESS \/ code = EXIT_FAILURE.
Proof.
  unfold option_case.
  repeat match goal with
         | |- context [if ?b then _ else _] => destruct b
         end; intros H; inversion H; auto.
Qed.

Lemma parse_options_codes : forall gs o w code w',
  parse_options o w gs = (inr code, w') ->
  code = EXIT_SUCCESS \/ code = EXIT_FAILURE.
Proof.
  induction gs as [|g gs IH]; intros o w code w'; cbn [parse_options].
  - discriminate.
  - destruct (option_case o g) as [o'|c] eqn:E.
    + apply IH.
    + intros H. inversion H; subst. eapply option_case_codes. exact E.
Qed.

Lemma while_Return m o align end_ : forall fuel s code w,
  while m o align end_ fuel s = Some (Return code w) -> code = EXIT_FAILURE.
Proof.
  induction fuel as [|fuel IH]; intros s code w; cbn [while].
  - destruct (off s <? end_); discriminate.
  - destruct (off s <? end_); [|discriminate].
    destruct (loop_body m o align end_ s) as [r|] eqn:L; [|discriminate].
    destruct r as [s'|s'|c a|a]; try discriminate.
    + apply IH.
    + intros H. inversion H; subst.
      apply loop_body_cases in L. exact L.
Qed.

(** X11.  Whenever [main] returns, for any memory, command line and
    descriptor, its exit code is [EXIT_SUCCESS] or [EXIT_FAILURE]: no path
    through the option switch, the checks before the walk, the loop and the
    statements after it returns anything else. *)
Theorem main_exit_codes m argv fuel code w :
  main m argv fuel = Some (Exited code, w) ->
  code = EXIT_SUCCESS \/ code = EXIT_FAILURE.
Proof.
  unfold main.
  destruct (Z.of_nat (List.length argv) <=? 1).
  { intros H. inversion H. now right. }
  destruct (getopt_long (tl argv)) as [gs operands].
  destruct (parse_options no_options start_world gs) as [[o|c] w0] eqn:P.
  2:{ intros H. inversion H; subst. eapply parse_options_codes. exact P. }
  destruct (negb (do_list o) && (do_read o =? 0)).
  { intros H. inversion H. now right. }
  destruct (negb (Z.of_nat (List.length operands) =? 0)).
  { intros H. inversion H. now right. }
  destruct (locate_header m o w0) as [h w1].
  unfold walk.
  destruct (negb (hdr_magic h =? CBFS_HEADER_MAGIC)).
  { intros H. inversion H. now right. }
  cbv zeta.
  destruct (while m o (hdr_align h) top_of_space fuel _) as [r|] eqn:W;
    [|discriminate].
  destruct r as [s|s|c a|a]; cbn [finish].
  - destruct (reading s =? 1); [destruct (filename o)|]; intros H;
      inversion H; auto.
  - destruct (reading s =? 1); [destruct (filename o)|]; intros H;
      inversion H; auto.
  - intros H. inversion H; subst. right. eapply while_Return. exact W.
  - discriminate.
Qed.

Lemma write_loop_printed m data len : forall fuel offset w e,
  write_loop m fuel data len offset w = Some e ->
  printed (world_of e) = printed w.
Proof.
  induction fuel as [|fuel IH]; intros offset w e; cbn [write_loop].
  - destruct (offset <? len); [discriminate|].
    intros H. inversion H. reflexivity.
  - destruct (offset <? len); [|intros H; inversion H; reflexivity].
    destruct (write_rc m w (u64 (len - offset)) <=? 0).
    + intros H. inversion H. reflexivity.
    + destruct (read_at data offset _) as [bs|].
      * intros H. apply IH in H. exact H.
      * intros H. inversion H. reflexivity.
Qed.

Lemma extract_printed m o end_ s file w r :
  extract m o end_ s file w = Some r ->
  printed (world_after r) = printed w.
Proof.
  unfold extract.
  destruct (chat_keeps (verbose o)
              (StartData (u64 (off s + file_offset file))) w) as (P & _).
  destruct (_ >? end_).
  - intros H. inversion H. cbn. exact P.
  - destruct (write_loop _ _ _ _ _ _) as [e|] eqn:WL; [|discriminate].
    apply write_loop_printed in WL.
    destruct e as [a|a|a]; intros H; inversion H; subst;
      cbn [world_after out world_of] in *; try congruence.
    destruct (chat_keeps (verbose o) EndData a) as (Q & _). congruence.
Qed.

Lemma loop_body_streams m o align end_ s r :
  loop_body m o align end_ s = Some r ->
  (do_list o = false -> printed (world_after r) = printed (out s)) /\
  (reading s = 0 ->
   written (world_after r) = written (out s) /\
   writes (world_after r) = writes (out s) /\
   (reading_after r = Some 0 \/ reading_after r = None)).
Proof.
  unfold loop_body. cbv zeta.
  destruct (chat_keeps (verbose o) (PotentialFile (off s)) (out s))
    as (P0 & W0 & N0).
  set (w0 := chat (verbose o) (PotentialFile (off s)) (out s)) in *.
  destruct (decode m (rom s)) as [file|].
  2:{ intros H. inversion H. cbn. auto. }
  destruct (chat_keeps (verbose o) (FileFields file) w0) as (P1 & W1 & N1).
  set (w1 := chat (verbose o) (FileFields file) w0) in *.
  destruct (strncmp _ _ _) as [c|].
  2:{ intros H. inversion H. cbn. split; [congruence|].
      intros _. repeat split; try congruence. now right. }
  destruct (negb (c =? 0)).
  { intros H. inversion H. cbn. split; [congruence|].
    intros R. repeat split; try congruence. left. now rewrite R. }
  destruct (show_names o file _ w1) as [w2|] eqn:N.
  2:{ intros H. inversion H. cbn. split; [congruence|].
      intros _. repeat split; try congruence. now right. }
  destruct (show_names_Some _ _ _ _ _ N) as (W2 & N2 & P2).
  assert (Step : forall r',
             r' = Next (step_over o align s file w2) ->
             (do_list o = false ->
              printed (world_after r') = printed (out s)) /\
             (reading s = 0 ->
              written (world_after r') = written (out s) /\
              writes (world_after r') = writes (out s) /\
              (reading_after r' = Some 0 \/ reading_after r' = None))).
  { intros r' ->. cbn [world_after reading_after step_over out reading].
    destruct (chat_keeps (verbose o)
                (Advanced (u32 (file_offset file + file_len file)) align
                   (increment align file)
                   (u64 (off s + increment align file))) w2)
      as (P3 & W3 & N3).
    split.
    - intros L. rewrite P3, P2, L. cbn [andb]. rewrite app_nil_r. congruence.
    - intros R. repeat split; try congruence. left. now rewrite R. }
  destruct (Z.eqb_spec (reading s) 0) as [R|R]; cbn [negb andb].
  { intros H. inversion H. now apply Step. }
  destruct (type_selected o file) eqn:T.
  2:{ intros H. inversion H. now apply Step. }
  destruct (name_matches _ _ _) as [[|]|].
  - intros H. split; [|contradiction].
    intros L. rewrite (extract_printed _ _ _ _ _ _ _ H), P2, L.
    cbn [andb]. rewrite app_nil_r. congruence.
  - intros H. inversion H. now apply Step.
  - intros H. inversion H. cbn. split; [|contradiction].
    intros L. rewrite P2, L. cbn [andb]. rewrite app_nil_r. congruence.
Qed.

Lemma while_streams m o align end_ : forall fuel s r,
  while m o align end_ fuel s = Some r ->
  (do_list o = false -> printed (world_after r) = printed (out s)) /\
  (reading s = 0 ->
   written (world_after r) = written (out s) /\
   writes (world_after r) = writes (out s) /\
   (reading_after r = Some 0 \/ reading_after r = None)).
Proof.
  induction fuel as [|fuel IH]; intros s r; cbn [while].
  - destruct (off s <? end_); [discriminate|].
    intros H. inversion H. cbn. split; [reflexivity|].
    intros R. repeat split. left. now rewrite R.
  - destruct (off s <? end_).
    2:{ intros H. inversion H. cbn. split; [reflexivity|].
        intros R. repeat split. left. now rewrite R. }
    destruct (loop_body m o align end_ s) as [r1|] eqn:L; [|discriminate].
    destruct (loop_body_streams _ _ _ _ _ _ L) as (A & B).
    destruct r1 as [s1|s1|c a|a]; try (intros H; inversion H; subst; auto).
    destruct (IH _ _ H) as (A' & B').
    cbn [world_after reading_after] in A, B. split.
    + intros Ls. rewrite (A' Ls). auto.
    + intros R. destruct (B R) as (W1 & N1 & [R1|R1]); [|discriminate].
      injection R1 as R1. destruct (B' R1) as (W2 & N2 & R2).
      repeat split; congruence.
Qed.

(** X12.  The two output streams by mode: a walk without [--list] prints
    nothing on the standard output, and a walk without [--read] never calls
    [write], so that [--list] alone writes no payload byte and [--read]
    alone prints no name, whatever the memory holds and however the walk
    ends. *)
Theorem streams_by_mode m o h w fuel st w' :
  walk m o h w fuel = Some (st, w') ->
  (do_list o = false -> printed w' = printed w) /\
  (do_read o = 0 -> written w' = written w /\ writes w' = writes w).
Proof.
  unfold walk.
  destruct (negb (hdr_magic h =? CBFS_HEADER_MAGIC)).
  { intros H. inversion H. cbn. auto. }
  cbv zeta.
  set (s0 := {| off := _; rom := _; reading := do_read o; out := w |}).
  destruct (while m o (hdr_align h) top_of_space fuel s0) as [r|] eqn:W;
    [|discriminate].
  destruct (while_streams _ _ _ _ _ _ _ W) as (A & B).
  cbn [s0 out reading] in A, B.
  assert (F : printed (snd (finish o r)) = printed (world_after r) /\
              written (snd (finish o r)) = written (world_after r) /\
              writes (snd (finish o r)) = writes (world_after r)).
  { destruct r as [s|s|c a|a]; cbn [finish world_after];
      try (destruct (reading s =? 1); [destruct (filename o)|]);
      cbn; auto. }
  destruct F as (Fp & Fw & Fn).
  intros H. inversion H as [E]. rewrite E in Fp, Fw, Fn. cbn [snd] in *.
  split.
  - intros L. rewrite Fp. auto.
  - intros R. destruct (B R) as (Bw & Bn & _). split; congruence.
Qed.

(** ** The further properties on the images *)

Lemma demo_leads_one o :
  leads demo 64 top_of_space
    (off (demo_state demo o)) (rom (demo_state demo o))
    [(bootblock_file, list_byte_of_string "bootblock")]
    (u64 (off (demo_state demo o) + increment 64 bootblock_file))
    (advance (increment 64 bootblock_file) (rom (demo_state demo o))).
Proof. eapply leads_step; [by_computing ..|]. apply leads_here. Qed.

Lemma decode_file_bytes_witness :
  decode demo (file_bytes bootblock_file ++ list_byte_of_string "bootblock")
    = Some bootblock_file /\
  decode demo_be (file_bytes config_file ++ []) = Some config_file.
Proof.
  split.
  - apply (decode_file_bytes demo bootblock_file). by_computing.
  - apply (decode_file_bytes demo_be config_file). by_computing.
Defined.

Lemma walk_host_independent_witness :
  walk demo list_only (demo_header 0) start_world 3 =
  walk demo_swapped list_only (demo_header 0) start_world 3.
Proof.
  apply (walk_host_independent demo demo_swapped).
  split; intros; reflexivity.
Defined.


Lemma read_not_found_witness :
  exists w',
    walk demo (read_only "missing") (demo_header 0) start_world 3
      = Some (Exited 1, say (NotFound "missing") w') /\
    printed w' = [] /\ written w' = [].
Proof.
  destruct (read_not_found demo (read_only "missing") (demo_header 0)
              start_world "missing" _ eq_refl eq_refl eq_refl
              (demo_table demo _ (or_introl eq_refl)) eq_refl 3%nat)
    as (w' & W & P & Wr); [simpl; lia|].
  exists w'. split; [exact W|]. split; [exact P | exact Wr].
Defined.

Lemma read_extracts_first_match_witness :
  exists w',
    walk demo (read_only "config") (demo_header 0) start_world 2
      = Some (Exited 0, w') /\
    written w' = list_byte_of_string "abc".
Proof.
  destruct (read_extracts_first_match demo (read_only "config")
              (demo_header 0) start_world "config"
              [(bootblock_file, list_byte_of_string "bootblock")]
              (u64 (off (demo_state demo (read_only "config"))
                    + increment 64 bootblock_file))
              (advance (increment 64 bootblock_file)
                 (rom (demo_state demo (read_only "config"))))
              config_file (list_byte_of_string "config")
              eq_refl eq_refl eq_refl)
    with (fuel := 2%nat) as (w' & W & Wr & _);
    [by_computing | apply (demo_leads_one (read_only "config"))
     | by_computing .. | intros n; by_computing | simpl; lia |].
  exists w'. split; [exact W|]. rewrite Wr. by_computing.
Defined.

Lemma match_rule_witness :
  name_matches (read_only "boot")
    (list_byte_of_string "boot" ++ x00 :: repeat xff 11) 16 = Some true /\
  name_matches (read_only "boot") (list_byte_of_string "bootblock") 4
    = Some true.
Proof.
  assert (N : no_nul (list_byte_of_string "boot"))
    by (unfold no_nul; repeat constructor).
  split.
  - destruct (match_rule (read_only "boot") "boot"
                (list_byte_of_string "boot" ++ x00 :: repeat xff 11) 16
                eq_refl N) as (A & _).
    apply A; [by_computing|]. eexists. reflexivity.
  - destruct (match_rule (read_only "boot") "boot"
                (list_byte_of_string "bootblock") 4 eq_refl N) as (_ & B).
    apply B; by_computing.
Defined.

Lemma write_calls_bounded_witness :
  exists e,
    write_loop demo 4 (list_byte_of_string "BOOT") 4 0 start_world = Some e /\
    Z.of_nat (writes (world_of e)) <= 4.
Proof.
  destruct (write_calls_bounded demo (list_byte_of_string "BOOT") 4
              start_world) as (e & E & B & _); [by_computing ..|].
  exists e. split; [exact E|]. cbn in B. lia.
Defined.

Lemma empty_region_witness :
  walk demo list_only (demo_header 0x100) start_world 0
    = Some (Exited 0, start_world) /\
  walk demo (read_only "config") (demo_header 0x100) start_world 0
    = Some (Exited 1, say (NotFound "config") start_world).
Proof.
  split.
  - destruct (empty_region demo list_only (demo_header 0x100) start_world 0)
      as (A & _); [by_computing ..|]. apply A. reflexivity.
  - destruct (empty_region demo (read_only "config") (demo_header 0x100)
                start_world 0) as (_ & B); [by_computing ..|].
    apply B; reflexivity.
Defined.

Lemma read_mode_has_a_name_witness :
  exists o w,
    parse_options no_options start_world
      (fst (getopt_long
              (tl (cbfs_argv ["-r"; "bootblock"; "-l"; "--read=config"]%string))))
      = (inl o, w) /\
    read_is_named o /\ filename o = Some "config"%string /\ do_read o = 1.
Proof.
  destruct (read_mode_has_a_name
              (cbfs_argv ["-r"; "bootblock"; "-l"; "--read=config"]%string)
              _ _ _ _ eq_refl eq_refl) as (L & R & I & _).
  do 2 eexists. split; [reflexivity|]. split; [exact I|].
  split; [exact L|]. apply R. discriminate.
Defined.

Lemma verbose_keeps_output_witness :
  exists w2,
    walk demo list_only (demo_header 0) start_world 3
      = Some (Exited 0, w2) /\
    string_of_list_byte (printed w2)
      = ("bootblock" ++ nl ++ "config" ++ nl)%string.
Proof.
  destruct (walk demo verbose_list (demo_header 0) start_world 3)
    as [[st w1]|] eqn:E; [|vm_compute in E; discriminate E].
  assert (S : st = Exited 0) by (vm_compute in E; congruence).
  assert (P : printed w1 = list_byte_of_string "bootblock" ++ [x0a] ++
                           list_byte_of_string "config" ++ [x0a])
    by (vm_compute in E; injection E as _ <-; reflexivity).
  subst st.
  destruct (verbose_keeps_output demo verbose_list (demo_header 0)
              start_world 3 0 w1 E) as (w2 & W & Pr & _).
  exists w2. split; [exact W|]. rewrite Pr, P. reflexivity.
Defined.

Lemma main_exit_codes_witness :
  exists code w,
    main demo (cbfs_argv ["-r"; "nothing"]%string) 3 = Some (Exited code, w) /\
    (code = EXIT_SUCCESS \/ code = EXIT_FAILURE).
Proof.
  destruct (main demo (cbfs_argv ["-r"; "nothing"]%string) 3)
    as [[[c|] w]|] eqn:E; try (vm_compute in E; discriminate E).
  exists c, w. split; [reflexivity|].
  exact (main_exit_codes demo _ 3 c w E).
Defined.

Lemma streams_by_mode_witness :
  (exists st w,
     walk demo (read_only "config") (demo_header 0) start_world 3
       = Some (st, w) /\ printed w = []) /\
  (exists st w,
     walk demo list_only (demo_header 0) start_world 3 = Some (st, w) /\
     written w = [] /\ writes w = 0%nat).
Proof.
  split.
  - destruct (walk demo (read_only "config") (demo_header 0) start_world 3)
      as [[st w]|] eqn:E; [|vm_compute in E; discriminate E].
    exists st, w. split; [reflexivity|].
    destruct (streams_by_mode _ _ _ _ _ _ _ E) as (A & _).
    exact (A eq_refl).
  - destruct (walk demo list_only (demo_header 0) start_world 3)
      as [[st w]|] eqn:E; [|vm_compute in E; discriminate E].
    exists st, w. split; [reflexivity|].
    destruct (streams_by_mode _ _ _ _ _ _ _ E) as (_ & B).
    exact (B eq_refl).
Defined.

(** The two records of [demo] as they lie on disk. *)
Lemma demo_on_disk o :
  on_disk 64 (rom (demo_state demo o))
    [(bootblock_file, list_byte_of_string "bootblock");
     (config_file, list_byte_of_string "config")].
Proof.
  apply (on_disk_record 64 _ bootblock_file (list_byte_of_string "bootblock")
           (take 30 (advance 34 (rom (demo_state demo o))))
           (advance 64 (rom (demo_state demo o))));
    [by_computing .. | unfold no_nul; repeat constructor | by_computing |].
  apply (on_disk_record 64 _ config_file (list_byte_of_string "config")
           (take 33 (advance 95 (rom (demo_state demo o))))
           (advance 128 (rom (demo_state demo o))));
    [by_computing .. | unfold no_nul; repeat constructor | by_computing |].
  apply on_disk_end. right. by_computing.
Qed.

Lemma list_prints_table_witness :
  (exists w,
     walk demo list_only (demo_header 0) start_world 3 = Some (Exited 0, w) /\
     string_of_list_byte (printed w) = ("bootblock" ++ nl ++ "config" ++ nl)%string)
  /\
  (exists w,
     walk demo
       {| verbose := 0; do_read := 0; do_list := true; do_type := true;
          cbfs_file_type := 0x50; filename := None |}
       (demo_header 0) start_world 3 = Some (Exited 0, w) /\
     string_of_list_byte (printed w) = ("config" ++ nl)%string).
Proof.
  split.
  - destruct (list_prints_table demo list_only (demo_header 0) start_world
                _ 6 eq_refl ltac:(by_computing) ltac:(by_computing)
                eq_refl ltac:(by_computing) eq_refl eq_refl
                (demo_on_disk list_only) 3%nat)
      as (w & Hw & _ & Hp & _); [simpl; lia|].
    exists w. split; [exact Hw|]. rewrite (Hp eq_refl). reflexivity.
  - destruct (list_prints_table demo
                {| verbose := 0; do_read := 0; do_list := true;
                   do_type := true; cbfs_file_type := 0x50;
                   filename := None |}
                (demo_header 0) start_world
                _ 6 eq_refl ltac:(by_computing) ltac:(by_computing)
                eq_refl ltac:(by_computing) eq_refl eq_refl
                (demo_on_disk _) 3%nat)
      as (w & Hw & _ & _ & Hp); [simpl; lia|].
    exists w. split; [exact Hw|]. rewrite (Hp eq_refl). reflexivity.
Defined.

(** C8, as it is written, fails when [--read] is given with [--list]: two
    records lie on disk in [demo], and no type filter is set, but the
    listing stops at the record that is extracted and one name is
    printed. *)
Lemma list_prints_table_counterexample :
  on_disk 64 (rom (demo_state demo list_only))
    [(bootblock_file, list_byte_of_string "bootblock");
     (config_file, list_byte_of_string "config")] /\
  exists w,
    main demo (cbfs_argv ["-l"; "-r"; "bootblock"]%string) 3
      = Some (Exited 0, w) /\
    printed w = name_lines [(bootblock_file, list_byte_of_string "bootblock")]
    /\
    printed w <>
    name_lines [(bootblock_file, list_byte_of_string "bootblock");
                (config_file, list_byte_of_string "config")].
Proof.
  split; [apply demo_on_disk|].
  eexists. split; [vm_compute; reflexivity|].
  split; [vm_compute; reflexivity|]. vm_compute. discriminate.
Qed.

(** * Properties of [util.c] *)

(** ** Hexadecimal digits *)

Lemma hex_digits_length : forall n v, List.length (hex_digits n v) = n.
Proof.
  induction n as [|n IH]; intros v; cbn [hex_digits]; [reflexivity|].
  rewrite length_app, IH. cbn. lia.
Qed.

Lemma printf_x_length width v :
  List.length (printf_x width v) = Nat.max width (hex_length v).
Proof. apply hex_digits_length. Qed.

Lemma hex_length_bound v n :
  0 <= v < 2 ^ (4 * Z.of_nat n) -> (0 < n)%nat -> (hex_length v <= n)%nat.
Proof.
  intros [Hv Hb] Hn. unfold hex_length.
  destruct (Z.eq_dec v 0) as [->|Hz].
  - cbn. lia.
  - assert (L : Z.log2 v < 4 * Z.of_nat n) by (apply Z.log2_lt_pow2; lia).
    assert (0 <= Z.log2 v) by apply Z.log2_nonneg.
    assert (Z.log2 v / 4 < Z.of_nat n)
      by (apply Z.div_lt_upper_bound; lia).
    assert (0 <= Z.log2 v / 4) by (apply Z.div_pos; lia).
    lia.
Qed.

Lemma hex_length_fits v :
  0 <= v -> v < 2 ^ (4 * Z.of_nat (hex_length v)).
Proof.
  intros Hv. unfold hex_length.
  assert (0 <= Z.log2 v) by apply Z.log2_nonneg.
  assert (0 <= Z.log2 v / 4) by (apply Z.div_pos; lia).
  rewrite Z2Nat.id by lia.
  destruct (Z.eq_dec v 0) as [->|Hz].
  - cbn. lia.
  - apply Z.log2_lt_pow2; [lia|].
    pose proof (Z.mul_succ_div_gt (Z.log2 v) 4 ltac:(lia)). lia.
Qed.

Lemma printf_x_8 v :
  0 <= v < 2 ^ 32 -> List.length (printf_x 8 v) = 8%nat.
Proof.
  intros H. rewrite printf_x_length.
  pose proof (hex_length_bound v 8 ltac:(cbn; lia) ltac:(lia)). lia.
Qed.

Lemma printf_x_2 b : List.length (printf_x 2 (byte_val b)) = 2%nat.
Proof.
  rewrite printf_x_length.
  pose proof (byte_val_range b).
  pose proof (hex_length_bound (byte_val b) 2 ltac:(cbn; lia) ltac:(lia)).
  lia.
Qed.

Lemma hex_char_cases d :
  0 <= d < 16 ->
  In (hex_char d) (list_byte_of_string "0123456789abcdef").
Proof.
  intros H. unfold hex_char. apply nth_In. cbn. lia.
Qed.

Lemma hex_digits_chars : forall n v,
  Forall (fun c => In c (list_byte_of_string "0123456789abcdef"))
         (hex_digits n v).
Proof.
  induction n as [|n IH]; intros v; cbn [hex_digits]; [constructor|].
  apply Forall_app. split; [apply IH|].
  constructor; [|constructor].
  apply hex_char_cases. apply Z.mod_pos_bound. lia.
Qed.

Lemma hex_char_shown c :
  In c (list_byte_of_string "0123456789abcdef") ->
  isprint (byte_val c) = true.
Proof.
  cbn. intros H.
  repeat (destruct H as [<-|H]; [reflexivity|]). destruct H.
Qed.

Lemma hex_digit_hex_char d :
  0 <= d < 16 -> hex_digit (ascii_of_byte (hex_char d)) = Some d.
Proof.
  intros H.
  assert (C : d = 0 \/ d = 1 \/ d = 2 \/ d = 3 \/ d = 4 \/ d = 5 \/ d = 6 \/
              d = 7 \/ d = 8 \/ d = 9 \/ d = 10 \/ d = 11 \/ d = 12 \/
              d = 13 \/ d = 14 \/ d = 15) by lia.
  repeat (destruct C as [->|C]; [reflexivity|]). subst. reflexivity.
Qed.

(** [strtoul] reads the digits that [%x] prints. *)
Lemma hex_value_hex_digits : forall n v rest acc,
  0 <= v ->
  hex_value (string_of_list_byte (hex_digits n v ++ rest)) acc =
  hex_value (string_of_list_byte rest)
            (acc * 16 ^ Z.of_nat n + v mod 16 ^ Z.of_nat n).
Proof.
  induction n as [|n IH]; intros v rest acc Hv.
  - cbn [hex_digits app]. change (16 ^ Z.of_nat 0) with 1.
    rewrite Z.mod_1_r. f_equal. lia.
  - cbn [hex_digits]. rewrite <- app_assoc.
    rewrite IH by (apply Z.div_pos; lia).
    cbn [app]. unfold string_of_list_byte. cbn [map string_of_list_ascii].
    cbn [hex_value].
    rewrite hex_digit_hex_char by (apply Z.mod_pos_bound; lia).
    f_equal.
    rewrite Nat2Z.inj_succ, Z.pow_succ_r by lia.
    rewrite (Z.rem_mul_r v 16 (16 ^ Z.of_nat n)) by lia. lia.
Qed.

Lemma strtoul16_digits ds :
  ds <> [] ->
  Forall (fun c => In c (list_byte_of_string "0123456789abcdef")) ds ->
  strtoul16 (string_of_list_byte ds) =
  if 2 ^ 64 <=? hex_value (string_of_list_byte ds) 0 then 2 ^ 64 - 1
  else hex_value (string_of_list_byte ds) 0.
Proof.
  destruct ds as [|c1 rest]; [congruence|]. intros _ F.
  inversion F as [|? ? H1 F']; subst.
  unfold string_of_list_byte. cbn [map string_of_list_ascii].
  destruct rest as [|c2 rest'].
  - cbn in H1. repeat (destruct H1 as [<-|H1]; [reflexivity|]). destruct H1.
  - inversion F' as [|? ? H2 _]; subst. cbn [map string_of_list_ascii].
    cbn in H1, H2.
    repeat (destruct H1 as [<-|H1];
            [repeat (destruct H2 as [<-|H2]; [reflexivity|]); destruct H2|]).
    destruct H1.
Qed.

Lemma strtoul16_printf_x width v :
  0 <= v < 2 ^ 64 ->
  strtoul16 (string_of_list_byte (printf_x width v)) = v.
Proof.
  intros [Hv Hb]. unfold printf_x.
  set (n := Nat.max width (hex_length v)).
  assert (Hn : (0 < n)%nat).
  { unfold n, hex_length.
    assert (0 <= Z.log2 v / 4)
      by (apply Z.div_pos; [apply Z.log2_nonneg | lia]).
    lia. }
  rewrite strtoul16_digits.
  2:{ intros E. apply (f_equal (@List.length byte)) in E.
      rewrite hex_digits_length in E. cbn in E. lia. }
  2:{ apply hex_digits_chars. }
  rewrite <- (app_nil_r (hex_digits n v)).
  rewrite hex_value_hex_digits by lia.
  change (string_of_list_byte []) with EmptyString. cbn [hex_value].
  assert (F : v < 16 ^ Z.of_nat n).
  { change 16 with (2 ^ 4). rewrite <- Z.pow_mul_r by lia.
    eapply Z.lt_le_trans; [apply hex_length_fits; lia|].
    apply Z.pow_le_mono_r; lia. }
  rewrite Z.mod_small by lia. cbn [Z.mul Z.add].
  destruct (Z.leb_spec (2 ^ 64) v); [lia | reflexivity].
Qed.

(** ** Lists as buffers *)

Lemma take_cons {A : Type} (a : A) p k :
  0 < k -> take k (a :: p) = a :: take (k - 1) p.
Proof.
  intros H. cbn [take]. destruct (Z.leb_spec k 0); [lia | reflexivity].
Qed.

Lemma take_nil {A : Type} k : take k (@nil A) = [].
Proof. rewrite take_firstn. apply firstn_nil. Qed.

Lemma advance_nil {A : Type} (p : list A) a :
  Z.of_nat (List.length p) <= a -> advance a p = [].
Proof. intros H. rewrite advance_skipn. apply skipn_all2. lia. Qed.

Lemma advance_nth {A : Type} (b : A) : forall n p,
  nth_error p n = Some b -> skipn n p = b :: skipn (S n) p.
Proof.
  induction n as [|n IH]; intros [|a p]; cbn; try discriminate.
  - intros H. now inversion H.
  - intros H. now apply IH.
Qed.

Lemma advance_next {A : Type} (b : A) p a :
  0 <= a -> nth_error p (Z.to_nat a) = Some b ->
  advance a p = b :: advance (a + 1) p.
Proof.
  intros Ha H. rewrite !advance_skipn.
  replace (Z.to_nat (a + 1)) with (S (Z.to_nat a)) by lia.
  now apply advance_nth.
Qed.

Lemma nth_error_take {A : Type} (p : list A) k n :
  Z.of_nat n < k -> nth_error (take k p) n = nth_error p n.
Proof.
  intros H. rewrite take_firstn.
  revert p k H. induction n as [|n IH]; intros [|a p] k H.
  - now rewrite firstn_nil.
  - destruct (Z.to_nat k) eqn:E; [lia | reflexivity].
  - now rewrite firstn_nil.
  - destruct (Z.to_nat k) as [|k'] eqn:E; [lia|]. cbn.
    replace k' with (Z.to_nat (k - 1)) by lia. apply IH. lia.
Qed.

Lemma take_app_le {A : Type} (a b : list A) k :
  k <= Z.of_nat (List.length a) -> take k (a ++ b) = take k a.
Proof.
  intros H. rewrite !take_firstn, firstn_app.
  replace (Z.to_nat k - List.length a)%nat with 0%nat by lia.
  cbn. apply app_nil_r.
Qed.

Lemma advance_app_le {A : Type} (a b : list A) k :
  k <= Z.of_nat (List.length a) -> advance k (a ++ b) = advance k a ++ b.
Proof.
  intros H. rewrite !advance_skipn, skipn_app.
  replace (Z.to_nat k - List.length a)%nat with 0%nat by lia.
  reflexivity.
Qed.

Lemma take_all {A : Type} (p : list A) k :
  Z.of_nat (List.length p) <= k -> take k p = p.
Proof. intros H. rewrite take_firstn. apply firstn_all2. lia. Qed.

(** ** The lines of [hexdump] *)

Lemma row_spec cell blank buf len offset : forall n i,
  0 <= offset -> 0 <= i -> offset + i + Z.of_nat n <= 2 ^ 64 ->
  0 <= len <= Z.of_nat (List.length buf) ->
  row cell blank buf len offset n i =
  Some (flat_map cell
          (take (Z.of_nat n) (advance (offset + i) (take len buf)))
        ++ List.concat
             (repeat blank
                (n - List.length
                       (take (Z.of_nat n)
                             (advance (offset + i) (take len buf)))))).
Proof.
  induction n as [|n IH]; intros i Ho Hi Hn Hl.
  - cbn [row]. change (Z.of_nat 0) with 0. rewrite take_0. reflexivity.
  - cbn [row].
    assert (Hlen : Z.of_nat (List.length (take len buf)) = len)
      by (rewrite take_length; lia).
    replace (u64 (i + offset)) with (offset + i)
      by (unfold u64; rewrite Z.mod_small; lia).
    replace (u64 (offset + i)) with (offset + i)
      by (unfold u64; rewrite Z.mod_small; lia).
    rewrite (IH (i + 1)) by lia.
    replace (offset + (i + 1)) with (offset + i + 1) by lia.
    destruct (Z.ltb_spec (offset + i) len) as [In|Out].
    + destruct (nth_error buf (Z.to_nat (offset + i))) as [b|] eqn:E.
      2:{ apply nth_error_None in E. lia. }
      cbn [option_map].
      rewrite (advance_next b (take len buf) (offset + i)); [|lia|].
      2:{ rewrite nth_error_take by lia. exact E. }
      rewrite take_cons by lia.
      replace (Z.of_nat (S n) - 1) with (Z.of_nat n) by lia.
      cbn [flat_map List.length Nat.sub]. now rewrite <- app_assoc.
    + rewrite (advance_nil (take len buf) (offset + i)) by lia.
      rewrite (advance_nil (take len buf) (offset + i + 1)) by lia.
      rewrite !take_nil. cbn [flat_map List.length app].
      rewrite !Nat.sub_0_r. reflexivity.
Qed.

Lemma line_count_0 x : line_count x = 0%nat -> x <= 0.
Proof.
  unfold line_count. intros H.
  destruct (Z.le_gt_cases x 0) as [|P]; [assumption|].
  assert (1 <= (x + 15) / 16) by (apply Z.div_le_lower_bound; lia). lia.
Qed.

Lemma line_count_S x k : line_count x = S k -> 0 < x /\ line_count (x - 16) = k.
Proof.
  unfold line_count. intros H. split.
  - destruct (Z.lt_ge_cases 0 x) as [|N]; [assumption|].
    assert ((x + 15) / 16 <= 0).
    { apply Z.lt_succ_r. apply Z.div_lt_upper_bound; lia. }
    lia.
  - replace (x - 16 + 15) with (x + 15 + (-1) * 16) by lia.
    rewrite Z.div_add by lia. lia.
Qed.

Lemma hexdump_from_spec base buf len :
  0 <= len <= Z.of_nat (List.length buf) -> len <= 2 ^ 64 - 16 ->
  forall k fuel offset text,
    0 <= offset -> line_count (len - offset) = k -> (k <= fuel)%nat ->
    hexdump_from fuel base buf len offset text =
    Some (Dumped (text ++ dump_lines k (base + offset)
                            (advance offset (take len buf)))).
Proof.
  intros Hl Hb. induction k as [|k IH]; intros fuel offset text Ho Hk Hf.
  - apply line_count_0 in Hk.
    assert (E : (offset <? len) = false) by (apply Z.ltb_ge; lia).
    destruct fuel; cbn [hexdump_from dump_lines]; rewrite E, app_nil_r;
      reflexivity.
  - apply line_count_S in Hk. destruct Hk as (Hlt & Hk).
    destruct fuel as [|fuel]; [lia|].
    cbn [hexdump_from dump_lines].
    assert (E : (offset <? len) = true) by (apply Z.ltb_lt; lia).
    rewrite E.
    rewrite !row_spec by (cbn; lia).
    rewrite Z.add_0_r. change (Z.of_nat 16) with 16.
    replace (u64 (offset + 16)) with (offset + 16)
      by (unfold u64; rewrite Z.mod_small; lia).
    rewrite (IH fuel (offset + 16)); [|lia| |lia].
    2:{ rewrite <- Hk. f_equal. lia. }
    rewrite advance_advance by lia.
    replace (base + (offset + 16)) with (base + offset + 16) by lia.
    replace (16 + offset) with (offset + 16) by lia.
    unfold dump_line, column. rewrite <- !app_assoc. reflexivity.
Qed.

(** With fuel for every line, [hexdump] prints the lines of the first
    [len] bytes. *)
Lemma hexdump_lines fuel base_offset buf len :
  0 <= len <= Z.of_nat (List.length buf) -> len <= 2 ^ 64 - 16 ->
  (line_count len <= fuel)%nat ->
  hexdump fuel base_offset buf len =
  Some (Dumped (dump_lines (line_count len) base_offset (take len buf))).
Proof.
  intros Hl Hb Hf. unfold hexdump.
  rewrite (hexdump_from_spec base_offset buf len Hl Hb (line_count len));
    [|lia|f_equal; lia|exact Hf].
  rewrite Z.add_0_r, advance_0. reflexivity.
Qed.

(** X13.  What [hexdump] prints: for a buffer that holds [len] bytes
    ([len] at most [2^64 - 16]) it returns after one turn per line with
    [ceil(len / 16)] lines, the line for each block of sixteen bytes being
    the address (at least eight digits), a colon, a cell of three characters
    per byte, blanks up to sixteen cells, two spaces, one character per byte
    and blanks up to sixteen, and a newline.  The text is the same for every
    buffer with the same first [len] bytes: nothing after them is read. *)
Theorem hexdump_text fuel base_offset buf len :
  0 <= len <= Z.of_nat (List.length buf) -> len <= 2 ^ 64 - 16 ->
  (line_count len <= fuel)%nat ->
  hexdump fuel base_offset buf len =
    Some (Dumped (dump_lines (line_count len) base_offset (take len buf))) /\
  forall buf',
    len <= Z.of_nat (List.length buf') -> take len buf' = take len buf ->
    hexdump fuel base_offset buf' len = hexdump fuel base_offset buf len.
Proof.
  intros Hl Hb Hf. split; [now apply hexdump_lines|].
  intros buf' Hl' E. rewrite !hexdump_lines by lia. now rewrite E.
Qed.

Lemma flat_map_length_const {A B : Type} (f : A -> list B) n bs :
  (forall b, List.length (f b) = n) ->
  List.length (flat_map f bs) = (n * List.length bs)%nat.
Proof.
  intros H. induction bs as [|b bs IH]; cbn [flat_map List.length]; [lia|].
  rewrite length_app, H, IH. lia.
Qed.

Lemma concat_repeat_length {A : Type} (blank : list A) n :
  List.length (List.concat (repeat blank n)) = (n * List.length blank)%nat.
Proof.
  induction n as [|n IH]; cbn [repeat List.concat]; [reflexivity|].
  rewrite length_app, IH. lia.
Qed.

Lemma take_length_le {A : Type} (p : list A) k :
  0 <= k -> (List.length (take k p) <= Z.to_nat k)%nat.
Proof. intros H. pose proof (take_length p k). lia. Qed.

Lemma dump_line_length a bs :
  (List.length bs <= 16)%nat ->
  List.length (dump_line a bs) = (List.length (printf_x 8 a) + 68)%nat.
Proof.
  intros H. unfold dump_line, column.
  rewrite !length_app, !concat_repeat_length.
  rewrite (flat_map_length_const hex_cell 3).
  2:{ intros b. unfold hex_cell. cbn [List.length]. now rewrite printf_x_2. }
  rewrite (flat_map_length_const char_cell 1) by reflexivity.
  cbn [List.length]. lia.
Qed.

Lemma dump_lines_length : forall k a bs,
  0 <= a -> a + 16 * Z.of_nat k <= 2 ^ 32 + 15 ->
  List.length (dump_lines k a bs) = (76 * k)%nat.
Proof.
  induction k as [|k IH]; intros a bs Ha Hk; cbn [dump_lines];
    [reflexivity|].
  rewrite length_app, IH by lia.
  rewrite dump_line_length by (pose proof (take_length_le bs 16); lia).
  rewrite printf_x_8; [lia|].
  unfold u64. rewrite Z.mod_small; lia.
Qed.

Lemma line_count_bound len : 0 <= len -> 16 * Z.of_nat (line_count len) <= len + 15.
Proof.
  intros H. unfold line_count.
  rewrite Z2Nat.id by (apply Z.div_pos; lia).
  apply Z.mul_div_le. lia.
Qed.

(** X14.  The lines of [hexdump] have a fixed width as long as the
    addresses have eight digits: when [base_offset + len] is at most [2^32],
    the text has exactly 76 characters for each block of sixteen bytes, the
    last block included, however short it is.  (An address from [2^32] on
    takes more digits and moves its line to the right.) *)
Theorem hexdump_size fuel base_offset buf len text :
  0 <= base_offset -> 0 <= len <= Z.of_nat (List.length buf) ->
  base_offset + len <= 2 ^ 32 ->
  hexdump fuel base_offset buf len = Some (Dumped text) ->
  Z.of_nat (List.length text) = 76 * ((len + 15) / 16).
Proof.
  intros Hb Hl Ht H.
  destruct (Nat.le_gt_cases (line_count len) fuel) as [Hf|Hf].
  - rewrite hexdump_lines in H by (trivial; lia).
    inversion H; subst.
    pose proof (line_count_bound len ltac:(lia)).
    rewrite dump_lines_length by lia.
    unfold line_count. rewrite Nat2Z.inj_mul, Z2Nat.id; [reflexivity|].
    apply Z.div_pos; lia.
  - exfalso. revert H. unfold hexdump.
    assert (G : forall f offset t,
               0 <= offset -> (f < line_count (len - offset))%nat ->
               hexdump_from f base_offset buf len offset t = None).
    { clear Hf. induction f as [|f IH]; intros offset t Ho Hf.
      - destruct (line_count (len - offset)) eqn:E; [lia|].
        apply line_count_S in E. cbn [hexdump_from].
        destruct (Z.ltb_spec offset len); [reflexivity | lia].
      - destruct (line_count (len - offset)) eqn:E; [lia|].
        apply line_count_S in E. destruct E as (E1 & E2).
        cbn [hexdump_from].
        destruct (Z.ltb_spec offset len); [|lia].
        rewrite !row_spec by (cbn; lia).
        replace (u64 (offset + 16)) with (offset + 16)
          by (unfold u64; rewrite Z.mod_small; lia).
        apply IH; [lia|].
        replace (len - (offset + 16)) with (len - offset - 16) by lia.
        lia. }
    rewrite G; [discriminate | lia |].
    now rewrite Z.sub_0_r.
Qed.

Lemma row_shown cell blank buf len offset : forall n i t,
  (forall b, Forall shown (cell b)) -> Forall shown blank ->
  row cell blank buf len offset n i = Some t -> Forall shown t.
Proof.
  induction n as [|n IH]; intros i t Hc Hb; cbn [row].
  - intros H. inversion H. constructor.
  - destruct (if u64 (i + offset) <? len
              then option_map cell
                     (nth_error buf (Z.to_nat (u64 (offset + i))))
              else Some blank) as [a|] eqn:E; [|discriminate].
    destruct (row cell blank buf len offset n (i + 1)) as [b|] eqn:R;
      [|discriminate].
    intros H. inversion H; subst. apply Forall_app. split.
    + destruct (u64 (i + offset) <? len).
      * destruct (nth_error buf _) as [c|]; [|discriminate].
        inversion E. apply Hc.
      * inversion E; subst. exact Hb.
    + eapply IH; eassumption.
Qed.

Lemma printf_x_shown width v : Forall shown (printf_x width v).
Proof.
  eapply Forall_impl; [|apply hex_digits_chars].
  intros c H. left. now apply hex_char_shown.
Qed.

Lemma printable_shown b : shown (printable b).
Proof.
  left. unfold printable.
  destruct (isprint (byte_val b)) eqn:E; [exact E | reflexivity].
Qed.

Lemma hexdump_from_shown base buf len : forall fuel offset t text,
  Forall shown t ->
  hexdump_from fuel base buf len offset t = Some (Dumped text) ->
  Forall shown text.
Proof.
  assert (Sp : shown x20) by (left; reflexivity).
  induction fuel as [|fuel IH]; intros offset t text Ht; cbn [hexdump_from].
  - destruct (offset <? len); [discriminate|].
    intros H. now inversion H; subst.
  - destruct (offset <? len); [|intros H; now inversion H; subst].
    destruct (row hex_cell _ buf len offset 16 0) as [h|] eqn:Rh;
      [|discriminate].
    destruct (row char_cell _ buf len offset 16 0) as [c|] eqn:Rc;
      [|discriminate].
    apply IH.
    apply row_shown in Rh; [| |repeat constructor; exact Sp].
    2:{ intros b. constructor; [exact Sp | apply printf_x_shown]. }
    apply row_shown in Rc; [| |repeat constructor; exact Sp].
    2:{ intros b. constructor; [apply printable_shown | constructor]. }
    repeat (apply Forall_app; split); trivial.
    + apply printf_x_shown.
    + constructor; [left; reflexivity | constructor].
    + repeat constructor; exact Sp.
    + constructor; [right; reflexivity | constructor].
Qed.

(** X15.  Whatever the buffer holds, and for every address and length,
    the text [hexdump] has printed when it returns consists of printable
    characters of the C locale and newlines only: bytes that [isprint]
    rejects, control characters and bytes from 0x7f on, appear as their two
    digits and as a dot. *)
Theorem hexdump_shown fuel base_offset buf len text :
  hexdump fuel base_offset buf len = Some (Dumped text) ->
  Forall shown text.
Proof.
  unfold hexdump. apply hexdump_from_shown. constructor.
Qed.

Lemma dump_lines_congruent : forall k a a' bs,
  u64 a = u64 a' -> dump_lines k a bs = dump_lines k a' bs.
Proof.
  induction k as [|k IH]; intros a a' bs H; cbn [dump_lines]; [reflexivity|].
  rewrite H. f_equal. apply IH.
  unfold u64 in *. rewrite (Z.add_mod a), (Z.add_mod a'), H by lia.
  reflexivity.
Qed.

Lemma dump_lines_app b : forall k1 k2 a base,
  Z.of_nat (List.length a) = 16 * Z.of_nat k1 ->
  dump_lines (k1 + k2) base (a ++ b) =
  dump_lines k1 base a ++ dump_lines k2 (base + 16 * Z.of_nat k1) b.
Proof.
  induction k1 as [|k1 IH]; intros k2 a base H.
  - destruct a; [|cbn in H; lia]. cbn [Nat.add dump_lines app].
    f_equal. cbn. lia.
  - cbn [Nat.add dump_lines].
    rewrite take_app_le, advance_app_le by lia.
    rewrite IH.
    2:{ rewrite advance_length. lia. }
    rewrite <- app_assoc. do 3 f_equal. lia.
Qed.

(** X16.  Dumping in pieces: when the first piece is a whole number of
    lines, the dump of a buffer is the dump of the first piece followed by
    the dump of the rest at the address moved on by the length of the first
    piece, in [uintptr_t] arithmetic. *)
Theorem hexdump_app fuel base_offset a b :
  Z.of_nat (List.length a) mod 16 = 0 ->
  Z.of_nat (List.length (a ++ b)) <= 2 ^ 64 - 16 ->
  (line_count (Z.of_nat (List.length (a ++ b))) <= fuel)%nat ->
  exists t1 t2,
    hexdump fuel base_offset a (Z.of_nat (List.length a))
      = Some (Dumped t1) /\
    hexdump fuel (u64 (base_offset + Z.of_nat (List.length a))) b
            (Z.of_nat (List.length b)) = Some (Dumped t2) /\
    hexdump fuel base_offset (a ++ b) (Z.of_nat (List.length (a ++ b)))
      = Some (Dumped (t1 ++ t2)).
Proof.
  intros Hm Hb Hf. rewrite length_app, Nat2Z.inj_add in *.
  set (la := Z.of_nat (List.length a)) in *.
  set (lb := Z.of_nat (List.length b)) in *.
  assert (Hla : 0 <= la) by (unfold la; lia).
  assert (Hlb : 0 <= lb) by (unfold lb; lia).
  apply Z.mod_divide in Hm; [|lia]. destruct Hm as [q Hq].
  assert (Hq0 : 0 <= q) by lia.
  assert (Ka : line_count la = Z.to_nat q).
  { unfold line_count. rewrite Hq.
    replace (q * 16 + 15) with (15 + q * 16) by lia.
    rewrite Z.div_add by lia. cbn. f_equal. }
  assert (Kab : line_count (la + lb) = (Z.to_nat q + line_count lb)%nat).
  { unfold line_count. rewrite Hq.
    replace (q * 16 + lb + 15) with (lb + 15 + q * 16) by lia.
    rewrite Z.div_add by lia.
    assert (0 <= (lb + 15) / 16) by (apply Z.div_pos; lia). lia. }
  exists (dump_lines (line_count la) base_offset a),
         (dump_lines (line_count lb) (base_offset + la) b).
  split; [|split].
  - rewrite hexdump_lines by (unfold la in *; lia).
    now rewrite take_all by (unfold la; lia).
  - rewrite hexdump_lines by (unfold lb in *; lia).
    rewrite take_all by (unfold lb; lia).
    do 2 f_equal. apply dump_lines_congruent.
    unfold u64. now rewrite Z.mod_mod by lia.
  - rewrite hexdump_lines by (rewrite ?length_app; unfold la, lb in *; lia).
    rewrite take_all by (rewrite length_app; unfold la, lb; lia).
    rewrite Kab, Ka, dump_lines_app by (unfold la in *; lia).
    do 4 f_equal. lia.
Qed.

(** X17.  [--type] reads what [%x] prints: the hexadecimal text that
    [printf] gives for a 32-bit value, with any field width, is read back by
    [strtoul(optarg, NULL, 16)] as that value, so that the type a verbose
    run or a dump shows selects, given to [--type], exactly the records of
    that type. *)
Theorem type_reads_what_x_prints o g width v :
  0 <= v < 2 ^ 32 ->
  g_opt g = chr "t" ->
  g_optarg g = Some (string_of_list_byte (printf_x width v)) ->
  exists o',
    option_case o g = inl o' /\ do_type o' = true /\
    cbfs_file_type o' = v /\
    forall file, type_selected o' file = (file_type file =? v).
Proof.
  intros Hv Ho Ha. unfold option_case. rewrite Ho, Ha.
  change (chr "t" =? chr "v") with false.
  change (chr "t" =? chr "l") with false.
  change (chr "t" =? chr "r") with false.
  change (chr "t" =? chr "t") with true. cbv iota.
  eexists. split; [reflexivity|].
  cbn [do_type cbfs_file_type].
  rewrite strtoul16_printf_x by lia.
  assert (E : u32 v = v) by (unfold u32; apply Z.mod_small; lia).
  split; [reflexivity|]. split; [exact E|].
  intros file. unfold type_selected. cbn [do_type cbfs_file_type negb orb andb].
  now rewrite E.
Qed.

(** ** Objects of a given width *)

Lemma byte_high_bits b n : 8 <= n -> Z.testbit (byte_val b) n = false.
Proof.
  intros H. rewrite byte_val_mask, Z.land_spec, Z.ones_spec_high by lia.
  apply andb_false_r.
Qed.

Lemma byte_val_op op d s :
  byte_val (byte_op op d s) = word_op op (byte_val d) (byte_val s).
Proof.
  destruct op; cbn [byte_op word_op]; [| |reflexivity];
    rewrite byte_val_of_Z; change 256 with (2 ^ 8);
    rewrite <- Z.land_ones by lia.
  - rewrite <- Z.land_assoc, <- byte_val_mask. reflexivity.
  - rewrite Z.land_lor_distr_l, <- !byte_val_mask. reflexivity.
Qed.

Lemma word_op_cons op x y X Y :
  (forall n, 8 <= n -> Z.testbit x n = false) ->
  (forall n, 8 <= n -> Z.testbit y n = false) ->
  word_op op (Z.lor x (Z.shiftl X 8)) (Z.lor y (Z.shiftl Y 8)) =
  Z.lor (word_op op x y) (Z.shiftl (word_op op X Y) 8).
Proof.
  intros Hx Hy. apply Z.bits_inj'. intros n Hn.
  destruct op; cbn [word_op];
    rewrite ?Z.land_spec, ?Z.lor_spec, ?Z.land_spec;
    (destruct (Z.lt_ge_cases n 8) as [L|G];
     [rewrite !Z.shiftl_spec_low by lia; now rewrite ?orb_false_r
     |rewrite !Z.shiftl_spec by lia;
      rewrite ?Z.land_spec, ?Z.lor_spec, ?Hx, ?Hy by lia;
      reflexivity]).
Qed.

Lemma blend_length op ds ss :
  List.length ds = List.length ss ->
  List.length (blend op ds ss) = List.length ss.
Proof.
  intros H. unfold blend. rewrite length_map, length_combine. lia.
Qed.

Lemma le_int_blend op : forall ds ss,
  List.length ds = List.length ss ->
  le_int (blend op ds ss) = word_op op (le_int ds) (le_int ss).
Proof.
  induction ds as [|d ds IH]; intros [|s ss] H; try discriminate.
  - destruct op; reflexivity.
  - unfold blend. cbn [combine map le_int fst snd]. fold (blend op ds ss).
    rewrite IH by (cbn in H; lia).
    rewrite byte_val_op. symmetry.
    apply word_op_cons; intros n Hn; now apply byte_high_bits.
Qed.

Lemma blend_app op : forall a1 b1 a2 b2,
  List.length a1 = List.length b1 ->
  blend op (a1 ++ a2) (b1 ++ b2) = blend op a1 b1 ++ blend op a2 b2.
Proof.
  induction a1 as [|a a1 IH]; intros [|b b1] a2 b2 H; try discriminate.
  - reflexivity.
  - unfold blend in *. cbn [app combine map]. f_equal.
    apply IH. cbn in H. lia.
Qed.

Lemma blend_rev op : forall ds ss,
  List.length ds = List.length ss ->
  blend op (rev ds) (rev ss) = rev (blend op ds ss).
Proof.
  induction ds as [|d ds IH]; intros [|s ss] H; try discriminate.
  - reflexivity.
  - cbn [rev]. rewrite blend_app by (rewrite !length_rev; cbn in H; lia).
    rewrite IH by (cbn in H; lia). reflexivity.
Qed.

Lemma le_bytes_le_int : forall bs,
  le_bytes (List.length bs) (le_int bs) = bs.
Proof.
  induction bs as [|b bs IH]; [reflexivity|].
  cbn [List.length le_bytes]. rewrite le_int_cons.
  pose proof (byte_val_range b) as R.
  f_equal.
  - apply byte_val_inj. rewrite byte_val_of_Z.
    change (2 ^ 8) with 256. rewrite Z.mod_add by lia.
    apply Z.mod_small. lia.
  - rewrite Z.shiftr_div_pow2 by lia.
    rewrite Z.div_add by lia. rewrite Z.div_small by lia. exact IH.
Qed.

Lemma native_bytes_native_int e bs :
  native_bytes e (List.length bs) (native_int e bs) = bs.
Proof.
  destruct e; cbn [native_bytes native_int].
  - apply le_bytes_le_int.
  - unfold be_bytes, be_int. rewrite <- (length_rev bs).
    rewrite le_bytes_le_int. apply rev_involutive.
Qed.

(** A load of both objects, [op] on the words and a store: [op] on the
    bytes, whatever the width and the byte order. *)
Lemma word_op_bytes e op ds ss :
  List.length ds = List.length ss ->
  native_bytes e (List.length ss)
    (word_op op (native_int e ds) (native_int e ss)) = blend op ds ss.
Proof.
  intros H.
  assert (E : word_op op (native_int e ds) (native_int e ss) =
              native_int e (blend op ds ss)).
  { destruct e; cbn [native_int].
    - now rewrite le_int_blend.
    - unfold be_int. rewrite <- blend_rev by exact H.
      rewrite le_int_blend by (now rewrite !length_rev). reflexivity. }
  rewrite E, <- (blend_length op ds ss H).
  apply native_bytes_native_int.
Qed.

Lemma nth_error_blend op : forall ds ss j,
  nth_error (blend op ds ss) j =
  match nth_error ds j, nth_error ss j with
  | Some d, Some s => Some (byte_op op d s)
  | _, _ => None
  end.
Proof.
  induction ds as [|d ds IH]; intros ss j.
  - destruct j; reflexivity.
  - destruct ss as [|s ss].
    + destruct j; cbn; [reflexivity|]. now destruct (nth_error ds j).
    + destruct j; [reflexivity|]. unfold blend.
      cbn [combine map nth_error]. apply IH.
Qed.

Lemma nth_error_advance {A : Type} (p : list A) a j :
  0 <= a -> nth_error (advance a p) j = nth_error p (Z.to_nat a + j).
Proof.
  intros H. rewrite advance_skipn.
  generalize (Z.to_nat a). clear. intros n. revert p.
  induction n as [|n IH]; intros [|x p]; cbn; trivial.
  now destruct j.
Qed.

Lemma byte_at_unit mem a width j :
  0 <= a -> 0 <= j < width ->
  nth_error (take width (advance a mem)) (Z.to_nat j) = byte_at mem (a + j).
Proof.
  intros Ha Hj. rewrite nth_error_take by lia.
  rewrite nth_error_advance by lia. unfold byte_at.
  destruct (Z.ltb_spec (a + j) 0); [lia|]. f_equal. lia.
Qed.

Lemma byte_at_splice mem a vs x :
  0 <= a -> a + Z.of_nat (List.length vs) <= Z.of_nat (List.length mem) ->
  byte_at (take a mem ++ vs ++ advance (a + Z.of_nat (List.length vs)) mem) x
  = if (a <=? x) && (x <? a + Z.of_nat (List.length vs))
    then nth_error vs (Z.to_nat (x - a))
    else byte_at mem x.
Proof.
  intros Ha Hb. unfold byte_at.
  assert (Lt : List.length (take a mem) = Z.to_nat a)
    by (pose proof (take_length mem a); lia).
  destruct (Z.ltb_spec x 0) as [N|N].
  { destruct (Z.leb_spec a x); [lia | reflexivity]. }
  destruct (Z.leb_spec a x) as [L|L]; cbn [andb].
  - rewrite nth_error_app2 by lia. rewrite Lt.
    destruct (Z.ltb_spec x (a + Z.of_nat (List.length vs))) as [I|O].
    + rewrite nth_error_app1 by lia. f_equal. lia.
    + rewrite nth_error_app2 by lia.
      rewrite nth_error_advance by lia. f_equal. lia.
  - rewrite nth_error_app1 by lia. apply nth_error_take. lia.
Qed.

Lemma byte_at_Some mem a :
  0 <= a < Z.of_nat (List.length mem) -> exists b, byte_at mem a = Some b.
Proof.
  intros H. unfold byte_at. destruct (Z.ltb_spec a 0); [lia|].
  destruct (nth_error mem (Z.to_nat a)) as [b|] eqn:E; [eauto|].
  apply nth_error_None in E. lia.
Qed.

(** ** The loop of [MEMCPY_N] *)

(** One turn of the loop, inside the memory. *)
Lemma memcpy_loop_turn e width op dest src n i mem :
  0 < width -> 0 <= dest + i * width -> 0 <= src + i * width ->
  dest + i * width + width <= Z.of_nat (List.length mem) ->
  src + i * width + width <= Z.of_nat (List.length mem) ->
  memcpy_loop e width op dest src (S n) i mem =
  memcpy_loop e width op dest src n (i + 1)
    (take (dest + i * width) mem
     ++ blend op (take width (advance (dest + i * width) mem))
                 (take width (advance (src + i * width) mem))
     ++ advance (dest + i * width + width) mem).
Proof.
  intros Hw Hd Hs Bd Bs. cbn [memcpy_loop]. unfold load, store.
  rewrite (read_at_in_bounds mem (src + i * width)) by lia.
  cbn [option_map].
  set (ds := take width (advance (dest + i * width) mem)).
  set (ss := take width (advance (src + i * width) mem)).
  assert (Ls : List.length ss = Z.to_nat width).
  { unfold ss. pose proof (take_length (advance (src + i * width) mem) width).
    pose proof (advance_length mem (src + i * width)). lia. }
  assert (Ld : List.length ds = Z.to_nat width).
  { unfold ds. pose proof (take_length (advance (dest + i * width) mem) width).
    pose proof (advance_length mem (dest + i * width)). lia. }
  assert (V : (match op with
               | MEM_AND =>
                   option_map (fun d => Z.land d (native_int e ss))
                     (option_map (native_int e)
                        (read_at mem (dest + i * width) width))
               | MEM_OR =>
                   option_map (fun d => Z.lor d (native_int e ss))
                     (option_map (native_int e)
                        (read_at mem (dest + i * width) width))
               | MEM_other => Some (native_int e ss)
               end) = Some (word_op op (native_int e ds) (native_int e ss))).
  { destruct op; cbn [word_op]; trivial;
      rewrite (read_at_in_bounds mem (dest + i * width)) by lia;
      reflexivity. }
  rewrite V.
  destruct (Z.leb_spec 0 (dest + i * width)); [|lia].
  destruct (Z.leb_spec (dest + i * width + width)
              (Z.of_nat (List.length mem))); [|lia].
  cbn [andb]. rewrite <- Ls, word_op_bytes by congruence. reflexivity.
Qed.

Lemma splice_length {A : Type} (mem vs : list A) a :
  0 <= a -> a + Z.of_nat (List.length vs) <= Z.of_nat (List.length mem) ->
  List.length (take a mem ++ vs ++ advance (a + Z.of_nat (List.length vs)) mem)
  = List.length mem.
Proof.
  intros Ha Hb. rewrite !length_app.
  pose proof (take_length mem a).
  pose proof (advance_length mem (a + Z.of_nat (List.length vs))). lia.
Qed.

Lemma memcpy_loop_spec e width op dest src :
  0 < width -> 0 <= dest -> 0 <= src ->
  forall n i mem,
    0 <= i ->
    dest + (i + Z.of_nat n) * width <= Z.of_nat (List.length mem) ->
    src + (i + Z.of_nat n) * width <= Z.of_nat (List.length mem) ->
    dest <= src \/ src + (i + Z.of_nat n) * width <= dest + i * width ->
    exists mem',
      memcpy_loop e width op dest src n i mem = Some mem' /\
      List.length mem' = List.length mem /\
      forall a,
        byte_at mem' a =
        copy_byte op mem (dest + i * width) (src + i * width)
                  (Z.of_nat n * width) a.
Proof.
  intros Hw Hd Hs. induction n as [|n IH]; intros i mem Hi Bd Bs Dis.
  - exists mem. split; [reflexivity|]. split; [reflexivity|].
    intros a. unfold copy_byte. change (Z.of_nat 0 * width) with 0.
    destruct (Z.leb_spec (dest + i * width) a); cbn [andb];
      [destruct (Z.ltb_spec a (dest + i * width + 0)); [lia|]|];
      reflexivity.
  - set (D := dest + i * width) in *. set (S_ := src + i * width) in *.
    assert (0 <= i * width) by (apply Z.mul_nonneg_nonneg; lia).
    assert (0 <= Z.of_nat n * width) by (apply Z.mul_nonneg_nonneg; lia).
    assert (E1 : (i + Z.of_nat (S n)) * width
                 = i * width + width + Z.of_nat n * width) by lia.
    rewrite E1 in Bd, Bs, Dis.
    set (ds := take width (advance D mem)).
    set (ss := take width (advance S_ mem)).
    assert (Ls : Z.of_nat (List.length ss) = width).
    { unfold ss. pose proof (take_length (advance S_ mem) width).
      pose proof (advance_length mem S_). lia. }
    assert (Ld : Z.of_nat (List.length ds) = width).
    { unfold ds. pose proof (take_length (advance D mem) width).
      pose proof (advance_length mem D). lia. }
    assert (Lb : Z.of_nat (List.length (blend op ds ss)) = width)
      by (rewrite blend_length by lia; exact Ls).
    rewrite memcpy_loop_turn by (fold D S_; lia).
    fold D S_ ds ss.
    set (mem1 := take D mem ++ blend op ds ss ++ advance (D + width) mem).
    assert (L1 : List.length mem1 = List.length mem).
    { unfold mem1.
      replace (D + width)
        with (D + Z.of_nat (List.length (blend op ds ss))) by lia.
      apply splice_length; lia. }
    assert (At1 : forall x,
               byte_at mem1 x =
               if (D <=? x) && (x <? D + width)
               then nth_error (blend op ds ss) (Z.to_nat (x - D))
               else byte_at mem x).
    { intros x. unfold mem1.
      replace (D + width)
        with (D + Z.of_nat (List.length (blend op ds ss))) by lia.
      apply byte_at_splice; lia. }
    assert (E2 : (i + 1 + Z.of_nat n) * width
                 = i * width + width + Z.of_nat n * width) by lia.
    destruct (IH (i + 1) mem1) as (mem' & R & L' & At');
      [lia | rewrite L1, E2; fold D; lia | rewrite L1, E2; fold S_; lia
       | rewrite E2; fold D S_; lia |].
    exists mem'. split; [exact R|]. split; [congruence|].
    intros a. rewrite At'. unfold copy_byte.
    replace (dest + (i + 1) * width) with (D + width) by (unfold D; lia).
    replace (src + (i + 1) * width) with (S_ + width) by (unfold S_; lia).
    replace (Z.of_nat (S n) * width) with (width + Z.of_nat n * width) by lia.
    rewrite !At1.
    destruct (Z.leb_spec (D + width) a) as [A1|A1];
      destruct (Z.ltb_spec a (D + width + Z.of_nat n * width)) as [A2|A2];
      destruct (Z.leb_spec D a) as [A3|A3];
      destruct (Z.ltb_spec a (D + (width + Z.of_nat n * width))) as [A4|A4];
      destruct (Z.ltb_spec a (D + width)) as [A5|A5];
      cbn [andb]; try lia; try reflexivity.
    + replace (a - (D + width) + (S_ + width)) with (a - D + S_) by lia.
      destruct (Z.leb_spec D (a - D + S_)) as [A6|A6];
        destruct (Z.ltb_spec (a - D + S_) (D + width)) as [A7|A7];
        cbn [andb]; try lia; reflexivity.
    + rewrite nth_error_blend. unfold ds, ss.
      rewrite !byte_at_unit by lia.
      replace (D + (a - D)) with a by lia.
      replace (S_ + (a - D)) with (a - D + S_) by lia. reflexivity.
Qed.

Lemma memcpy_width_supported e mem dest src len width op :
  supported width ->
  memcpy_width e mem dest src len width op =
  returned (memcpy_loop e width op dest src (Z.to_nat (len / width)) 0 mem).
Proof. intros [-> | [-> | [-> | ->]]]; reflexivity. Qed.

(** [memcpy_width] on regions of [width * (len / width)] bytes that lie in
    memory, the destination starting at or before the source or after its
    end. *)
Lemma memcpy_width_copy_byte e mem dest src len width op :
  supported width -> 0 <= len -> 0 <= dest -> 0 <= src ->
  dest + width * (len / width) <= Z.of_nat (List.length mem) ->
  src + width * (len / width) <= Z.of_nat (List.length mem) ->
  dest <= src \/ src + width * (len / width) <= dest ->
  exists mem',
    memcpy_width e mem dest src len width op = Copied mem' /\
    List.length mem' = List.length mem /\
    forall a,
      byte_at mem' a =
      copy_byte op mem dest src (width * (len / width)) a.
Proof.
  intros Sw Hl Hd Hs Bd Bs Dis.
  assert (Hw : 0 < width) by (unfold supported in Sw; lia).
  assert (Hq : 0 <= len / width) by (apply Z.div_pos; lia).
  rewrite memcpy_width_supported by exact Sw.
  destruct (memcpy_loop_spec e width op dest src Hw Hd Hs
              (Z.to_nat (len / width)) 0 mem) as (mem' & R & L & At);
    [lia | rewrite Z2Nat.id by lia; lia | rewrite Z2Nat.id by lia; lia
     | rewrite Z2Nat.id by lia; lia |].
  rewrite R. exists mem'. split; [reflexivity|]. split; [exact L|].
  intros a. rewrite At. rewrite Z2Nat.id by lia.
  replace (dest + 0 * width) with dest by lia.
  replace (src + 0 * width) with src by lia.
  now rewrite Z.mul_comm.
Qed.

(** X18.  What [memcpy_width] leaves in memory: for a supported width and
    two regions of [k = width * (len / width)] bytes that lie in memory, the
    destination starting at or before the source (they may overlap) or
    after its end, it returns; each of the first [k] bytes of the
    destination has become the byte that the source held at the same place
    before the call, or its bitwise AND or OR with it, and every other byte
    of memory, the [len mod width] last bytes of the destination included,
    is as it was.  Neither the width nor the byte order of the host shows
    in the result beyond [k]. *)
Theorem memcpy_width_bytes e mem dest src len width op :
  supported width -> 0 <= len -> 0 <= dest -> 0 <= src ->
  dest + width * (len / width) <= Z.of_nat (List.length mem) ->
  src + width * (len / width) <= Z.of_nat (List.length mem) ->
  dest <= src \/ src + width * (len / width) <= dest ->
  exists mem',
    memcpy_width e mem dest src len width op = Copied mem' /\
    List.length mem' = List.length mem /\
    (forall j, 0 <= j < width * (len / width) ->
       exists d s,
         byte_at mem (dest + j) = Some d /\
         byte_at mem (src + j) = Some s /\
         byte_at mem' (dest + j) = Some (byte_op op d s)) /\
    (forall a, a < dest \/ dest + width * (len / width) <= a ->
       byte_at mem' a = byte_at mem a).
Proof.
  intros Sw Hl Hd Hs Bd Bs Dis.
  destruct (memcpy_width_copy_byte e mem dest src len width op)
    as (mem' & R & L & At); trivial.
  exists mem'. split; [exact R|]. split; [exact L|]. split.
  - intros j Hj.
    destruct (byte_at_Some mem (dest + j)) as (d & Ed); [lia|].
    destruct (byte_at_Some mem (src + j)) as (s & Es); [lia|].
    exists d, s. split; [exact Ed|]. split; [exact Es|].
    rewrite At. unfold copy_byte.
    destruct (Z.leb_spec dest (dest + j)); [|lia].
    destruct (Z.ltb_spec (dest + j) (dest + width * (len / width))); [|lia].
    cbn [andb]. replace (dest + j - dest + src) with (src + j) by lia.
    now rewrite Ed, Es.
  - intros a Ha. rewrite At. unfold copy_byte.
    destruct (Z.leb_spec dest a); cbn [andb]; [|reflexivity].
    destruct (Z.ltb_spec a (dest + width * (len / width))); [lia|].
    reflexivity.
Qed.

Lemma byte_at_ext (l1 l2 : list byte) :
  (forall a, byte_at l1 a = byte_at l2 a) -> l1 = l2.
Proof.
  intros H. apply nth_error_ext. intros n.
  specialize (H (Z.of_nat n)). unfold byte_at in H.
  destruct (Z.ltb_spec (Z.of_nat n) 0); [lia|].
  now rewrite Nat2Z.id in H.
Qed.

(** X19.  The access width cannot be observed when the destination starts
    at or before the source, or after its end: two supported widths that
    both divide [len], on hosts of either byte order, leave the same
    memory.  (A destination that starts inside the source is where the
    width shows.) *)
Theorem memcpy_width_any_width e1 e2 w1 w2 mem dest src len op :
  supported w1 -> supported w2 ->
  0 <= len -> len mod w1 = 0 -> len mod w2 = 0 ->
  0 <= dest -> 0 <= src ->
  dest + len <= Z.of_nat (List.length mem) ->
  src + len <= Z.of_nat (List.length mem) ->
  dest <= src \/ src + len <= dest ->
  exists mem',
    memcpy_width e1 mem dest src len w1 op = Copied mem' /\
    memcpy_width e2 mem dest src len w2 op = Copied mem'.
Proof.
  intros S1 S2 Hl M1 M2 Hd Hs Bd Bs Dis.
  assert (K1 : w1 * (len / w1) = len).
  { unfold supported in S1. pose proof (Z.div_mod len w1 ltac:(lia)). lia. }
  assert (K2 : w2 * (len / w2) = len).
  { unfold supported in S2. pose proof (Z.div_mod len w2 ltac:(lia)). lia. }
  destruct (memcpy_width_copy_byte e1 mem dest src len w1 op)
    as (m1 & R1 & _ & A1); trivial; try (rewrite K1; assumption).
  destruct (memcpy_width_copy_byte e2 mem dest src len w2 op)
    as (m2 & R2 & _ & A2); trivial; try (rewrite K2; assumption).
  exists m1. split; [exact R1|]. rewrite R2. f_equal.
  apply byte_at_ext. intros a. now rewrite A1, A2, K1, K2.
Qed.

Lemma byte_op_diag op b : byte_op op b b = b.
Proof.
  destruct op; cbn [byte_op]; [| |reflexivity];
    rewrite ?Z.land_diag, ?Z.lor_diag; apply byte_val_inj;
    rewrite byte_val_of_Z; apply Z.mod_small; apply byte_val_range.
Qed.

Lemma blend_diag op : forall bs, blend op bs bs = bs.
Proof.
  induction bs as [|b bs IH]; [reflexivity|].
  unfold blend in *. cbn [combine map fst snd].
  now rewrite byte_op_diag, IH.
Qed.

Lemma take_advance {A : Type} (p : list A) a : take a p ++ advance a p = p.
Proof. rewrite take_firstn, advance_skipn. apply firstn_skipn. Qed.

Lemma memcpy_loop_self e width op p :
  0 < width -> 0 <= p ->
  forall n i mem,
    0 <= i ->
    p + (i + Z.of_nat n) * width <= Z.of_nat (List.length mem) ->
    memcpy_loop e width op p p n i mem = Some mem.
Proof.
  intros Hw Hp. induction n as [|n IH]; intros i mem Hi B; [reflexivity|].
  assert (0 <= i * width) by (apply Z.mul_nonneg_nonneg; lia).
  assert (0 <= Z.of_nat n * width) by (apply Z.mul_nonneg_nonneg; lia).
  rewrite memcpy_loop_turn by lia.
  rewrite blend_diag.
  replace (take (p + i * width) mem
           ++ take width (advance (p + i * width) mem)
           ++ advance (p + i * width + width) mem) with mem.
  - apply IH; lia.
  - rewrite app_assoc, take_split by lia. symmetry. apply take_advance.
Qed.

(** X20.  A copy onto itself changes nothing: with [dest] equal to [src],
    [memcpy_width] returns with the memory as it was, for the three
    operations, every supported width and either byte order. *)
Theorem memcpy_width_self e mem p len width op :
  supported width -> 0 <= len -> 0 <= p ->
  p + width * (len / width) <= Z.of_nat (List.length mem) ->
  memcpy_width e mem p p len width op = Copied mem.
Proof.
  intros Sw Hl Hp B.
  assert (Hw : 0 < width) by (unfold supported in Sw; lia).
  assert (Hq : 0 <= len / width) by (apply Z.div_pos; lia).
  rewrite memcpy_width_supported by exact Sw.
  rewrite memcpy_loop_self; trivial; [lia|].
  rewrite Z2Nat.id by lia. lia.
Qed.

(** ** [util.c] on samples *)

Lemma hexdump_text_witness :
  exists text,
    hexdump 2 0xfffff000 (sample ++ [x41]) 17 = Some (Dumped text) /\
    string_of_list_byte text =
      ("fffff000: 00 01 7f ff 63 6f 72 65 62 6f 6f 74 43 42 46 53  "
       ++ "....corebootCBFS" ++ nl
       ++ "fffff010: 41" ++ string_of_list_byte (repeat x20 47)
       ++ "A" ++ string_of_list_byte (repeat x20 15) ++ nl)%string.
Proof.
  destruct (hexdump_text 2 0xfffff000 (sample ++ [x41]) 17) as (A & _);
    [by_computing ..|].
  eexists. split; [exact A|]. vm_compute. reflexivity.
Defined.

Lemma hexdump_size_witness :
  exists text,
    hexdump 2 0xfffff000 (sample ++ [x41]) 17 = Some (Dumped text) /\
    Z.of_nat (List.length text) = 152.
Proof.
  destruct (hexdump 2 0xfffff000 (sample ++ [x41]) 17) as [[t|]|] eqn:E;
    try (vm_compute in E; discriminate E).
  exists t. split; [reflexivity|].
  exact (hexdump_size 2 0xfffff000 (sample ++ [x41]) 17 t
           ltac:(by_computing) ltac:(by_computing) ltac:(by_computing) E).
Defined.

Lemma hexdump_shown_witness :
  exists text,
    hexdump 1 0 sample 16 = Some (Dumped text) /\ Forall shown text.
Proof.
  destruct (hexdump 1 0 sample 16) as [[t|]|] eqn:E;
    try (vm_compute in E; discriminate E).
  exists t. split; [reflexivity|].
  exact (hexdump_shown 1 0 sample 16 t E).
Defined.

Lemma hexdump_app_witness :
  exists t1 t2,
    hexdump 2 0xfffffff0 sample (Z.of_nat (List.length sample))
      = Some (Dumped t1) /\
    hexdump 2 (u64 (0xfffffff0 + Z.of_nat (List.length sample))) [x41]
            (Z.of_nat (List.length [x41])) = Some (Dumped t2) /\
    hexdump 2 0xfffffff0 (sample ++ [x41])
            (Z.of_nat (List.length (sample ++ [x41])))
      = Some (Dumped (t1 ++ t2)).
Proof.
  apply (hexdump_app 2 0xfffffff0 sample [x41]); by_computing.
Defined.

Lemma type_reads_what_x_prints_witness :
  exists o',
    option_case no_options (GetoptRet (chr "t") (Some "00000050"%string) false)
      = inl o' /\
    cbfs_file_type o' = 0x50 /\
    type_selected o' config_file = true /\
    type_selected o' bootblock_file = false.
Proof.
  destruct (type_reads_what_x_prints no_options
              (GetoptRet (chr "t") (Some "00000050"%string) false) 8 0x50)
    as (o' & E & _ & T & F); [by_computing | reflexivity | reflexivity |].
  exists o'. split; [exact E|]. split; [exact T|].
  rewrite !F. split; reflexivity.
Defined.

Lemma memcpy_width_bytes_witness :
  exists mem',
    memcpy_width BigEndian two_blocks 0 4 7 2 MEM_OR = Copied mem' /\
    byte_at mem' 0 = Some xff /\ byte_at mem' 5 = Some x3f /\
    byte_at mem' 6 = Some x0f.
Proof.
  destruct (memcpy_width_bytes BigEndian two_blocks 0 4 7 2 MEM_OR)
    as (mem' & R & _ & In & Out);
    [right; left; reflexivity | by_computing .. | left; by_computing |].
  exists mem'. split; [exact R|].
  destruct (In 0 ltac:(by_computing)) as (d0 & s0 & D0 & S0 & R0).
  destruct (In 5 ltac:(by_computing)) as (d5 & s5 & D5 & S5 & R5).
  vm_compute in D0, S0, D5, S5.
  injection D0 as <-. injection S0 as <-.
  injection D5 as <-. injection S5 as <-.
  split; [exact R0|]. split; [exact R5|].
  rewrite (Out 6) by (right; by_computing). reflexivity.
Defined.

Lemma memcpy_width_any_width_witness :
  exists mem',
    memcpy_width LittleEndian two_blocks 0 4 8 1 MEM_AND = Copied mem' /\
    memcpy_width BigEndian two_blocks 0 4 8 8 MEM_AND = Copied mem'.
Proof.
  apply (memcpy_width_any_width LittleEndian BigEndian 1 8);
    [left; reflexivity | right; right; right; reflexivity
     | by_computing .. | left; by_computing].
Defined.

Lemma memcpy_width_self_witness :
  memcpy_width BigEndian two_blocks 4 4 8 4 MEM_AND = Copied two_blocks /\
  memcpy_width LittleEndian two_blocks 0 0 16 8 MEM_other = Copied two_blocks.
Proof.
  split.
  - apply memcpy_width_self;
      [right; right; left; reflexivity | by_computing ..].
  - apply memcpy_width_self;
      [right; right; right; reflexivity | by_computing ..].
Defined.
